(** * The backfill pipeline of ddl/backfilling.go

    A shallow embedding of the parts of [ddl/backfilling.go] that drive a
    reorganisation: the done-task keeper, the collection of task results,
    the construction of a batch of tasks, the range splitter, the snapshot
    iterators, the per-task batch loop, the loop of a worker, the handling
    of the ranges of a round and the merging of warnings.

    Go values are modelled as follows.
    - [int] and [int64] are [Z]; additions that the code performs on
      counters are wrapped to 64 bits ([wrap64]).
    - [kv.Key] is a byte slice that may be [nil]: [option (list byte)].
    - maps are [gmap]s, slices are lists, channels are lists in arrival
      order.
    - a function that may block, panic or run longer than its scripted
      environment returns an [option] or an [outcome]. *)

From Stdlib Require Import ZArith Lia List.
From Stdlib.Strings Require Import Byte String.
From stdpp Require Import base option list sorting strings gmap.

Local Open Scope Z_scope.

(** ** Machine integers *)

(** Go's [int] and [int64] are 64-bit two's complement on the platforms TiDB
    supports. *)
Definition int_min : Z := - 2 ^ 63.
Definition int_max : Z := 2 ^ 63 - 1.

Definition wrap64 (z : Z) : Z := (z + 2 ^ 63) mod 2 ^ 64 - 2 ^ 63.

Definition int_add (a b : Z) : Z := wrap64 (a + b).
Definition int_mul (a b : Z) : Z := wrap64 (a * b).

(** ** Keys *)

Module kv.

(** Modelled from the spec: the type [kv.Key] is declared in package
    [kv], outside this file.  The spec describes a key as an ordered byte
    string.  A Go byte slice can be [nil], which the code tests for, so a
    key is an optional list of bytes: [None] is [nil]. *)
Definition Key : Type := option (list byte).

(** The bytes of a key; [nil] has none. *)
Definition bytes (k : Key) : list byte := default [] k.

(** [len(k)] *)
Definition len (k : Key) : Z := Z.of_nat (length (bytes k)).

(** [k == nil] *)
Definition isNil (k : Key) : bool :=
  match k with None => true | Some _ => false end.

(** Modelled from the spec: keys are totally ordered byte strings.  The
    order is the lexicographic one on bytes, as of [bytes.Compare]. *)
Fixpoint bytes_compare (a b : list byte) : comparison :=
  match a, b with
  | [], [] => Eq
  | [], _ :: _ => Lt
  | _ :: _, [] => Gt
  | x :: a', y :: b' =>
      match N.compare (Byte.to_N x) (Byte.to_N y) with
      | Eq => bytes_compare a' b'
      | c => c
      end
  end.

(** Modelled from the spec: [k.Cmp(another)], declared in package [kv]:
    0 if equal, -1 if smaller, +1 if greater. *)
Definition Cmp (k another : Key) : Z :=
  match bytes_compare (bytes k) (bytes another) with
  | Lt => -1
  | Eq => 0
  | Gt => 1
  end.

(** Modelled from the spec: [k.Next()], declared in package [kv], is the
    smallest strictly greater key: the key followed by a zero byte.  It is
    never [nil]. *)
Definition Next (k : Key) : Key := Some (bytes k ++ [x00]).

(** Modelled from the spec: whether a byte string begins with another, as
    [bytes.HasPrefix]. *)
Fixpoint bytes_has_prefix (s p : list byte) : bool :=
  match p, s with
  | [], _ => true
  | _ :: _, [] => false
  | y :: p', x :: s' => Byte.eqb x y && bytes_has_prefix s' p'
  end.

(** Modelled from the spec: [k.HasPrefix(prefix)], declared in package
    [kv]. *)
Definition HasPrefix (k prefix : Key) : bool :=
  bytes_has_prefix (bytes k) (bytes prefix).

(** Modelled from the spec: [kv.KeyRange], the half-open range
    [[StartKey, EndKey)]. *)
Record KeyRange := mkKeyRange { StartKey : Key; EndKey : Key }.

End kv.

(** ** The done-task keeper *)

Module doneTaskKeeper.
(** [doneTaskKeeper] keeps the done tasks and the latest next key. *)
Record t := mk {
  doneTaskNextKey : gmap Z kv.Key;
  current : Z;
  nextKey : kv.Key
}.
End doneTaskKeeper.

Definition newDoneTaskKeeper (start : kv.Key) : doneTaskKeeper.t :=
  {| doneTaskKeeper.doneTaskNextKey := ∅;
     doneTaskKeeper.current := 0;
     doneTaskKeeper.nextKey := start |}.

(** The inner [for] loop of [updateNextKey]: as long as the entry of
    [n.current] is in the map, delete it, advance [current] and take its
    key.  Every round deletes an entry, so the size of the map bounds the
    number of rounds; [updateNextKey] supplies that much fuel. *)
Fixpoint updateNextKey_loop (fuel : nat) (n : doneTaskKeeper.t) : doneTaskKeeper.t :=
  match fuel with
  | O => n
  | S fuel' =>
      match doneTaskKeeper.doneTaskNextKey n !! doneTaskKeeper.current n with
      | Some nKey =>
          updateNextKey_loop fuel'
            {| doneTaskKeeper.doneTaskNextKey :=
                 delete (doneTaskKeeper.current n) (doneTaskKeeper.doneTaskNextKey n);
               doneTaskKeeper.current := int_add (doneTaskKeeper.current n) 1;
               doneTaskKeeper.nextKey := nKey |}
      | None => n
      end
  end.

Definition updateNextKey (n : doneTaskKeeper.t) (doneTaskID : Z) (next : kv.Key)
  : doneTaskKeeper.t :=
  if doneTaskID =? doneTaskKeeper.current n then
    updateNextKey_loop (size (doneTaskKeeper.doneTaskNextKey n))
      {| doneTaskKeeper.doneTaskNextKey := doneTaskKeeper.doneTaskNextKey n;
         doneTaskKeeper.current := int_add (doneTaskKeeper.current n) 1;
         doneTaskKeeper.nextKey := next |}
  else
    {| doneTaskKeeper.doneTaskNextKey :=
         <[doneTaskID := next]> (doneTaskKeeper.doneTaskNextKey n);
       doneTaskKeeper.current := doneTaskKeeper.current n;
       doneTaskKeeper.nextKey := doneTaskKeeper.nextKey n |}.

(** A sequence of calls [updateNextKey(id, next)] on one keeper. *)
Definition updateNextKeys (n : doneTaskKeeper.t) (calls : list (Z * kv.Key))
  : doneTaskKeeper.t :=
  foldl (fun n c => updateNextKey n (fst c) (snd c)) n calls.

(** *** Invariant of the keeper

    The batch starts at key [S0], task [i] carries next key [k i] and the
    batch has [n] tasks. *)
Section keeper_spec.
Variable S0 : kv.Key.
Variable k : Z -> kv.Key.
Variable n : Z.

(** The calls of a batch: id [i] is reported with key [k i]. *)
Definition calls_of (ids : list Z) : list (Z * kv.Key) :=
  (fun i => (i, k i)) <$> ids.

(** What holds of a keeper once the ids of [seen] were reported, before
    and during the drain loop. *)
Record keeper_draining (seen : list Z) (st : doneTaskKeeper.t) : Prop := {
  kd_range : 0 <= doneTaskKeeper.current st <= n;
  kd_below : forall i, 0 <= i < doneTaskKeeper.current st -> i ∈ seen;
  kd_key : doneTaskKeeper.nextKey st =
           if doneTaskKeeper.current st =? 0 then S0
           else k (doneTaskKeeper.current st - 1);
  kd_stash : forall i v, doneTaskKeeper.doneTaskNextKey st !! i = Some v ->
                         i ∈ seen /\ v = k i;
  kd_pending : forall i, i ∈ seen -> doneTaskKeeper.current st <= i ->
                         doneTaskKeeper.doneTaskNextKey st !! i = Some (k i)
}.

(** Between two calls the entry of [current] is moreover absent. *)
Definition keeper_inv (seen : list Z) (st : doneTaskKeeper.t) : Prop :=
  keeper_draining seen st /\
  doneTaskKeeper.doneTaskNextKey st !! doneTaskKeeper.current st = None.

End keeper_spec.

Arguments kd_range {S0 k n seen st}.
Arguments kd_below {S0 k n seen st}.
Arguments kd_key {S0 k n seen st}.
Arguments kd_stash {S0 k n seen st}.
Arguments kd_pending {S0 k n seen st}.

(** ** Errors and outcomes *)

(** Modelled from the spec: the error values are declared in the packages
    [kv] and [dbterror].  The spec lists the kinds: cancellation
    ([ReorgCancelled], [NotOwner]), [ReorgPanic],
    [InvalidSplitRegionRanges], a missing job, and [ErrNotExist] of an
    iterator.  A Go [error] value is an [option error]; [None] is [nil]. *)
Inductive error : Type :=
| ErrNotExist                                  (* kv.ErrNotExist *)
| ErrInvalidSplitRegionRanges (startKey endKey : kv.Key)
                                               (* dbterror, message built from the two keys *)
| ErrReorgPanic                                (* dbterror.ErrReorgPanic *)
| ErrDDLJobNotFound                            (* dbterror.ErrDDLJobNotFound *)
| ErrReorgCancelled                            (* the spec's ReorgCancelled *)
| ErrNotOwner                                  (* dbterror.ErrNotOwner *)
| ErrOther (msg : string).

(** [errors.Trace] adds a stack to an error and keeps [nil]; it does not
    change the error's class, so it is the identity here. *)
Definition Trace (err : option error) : option error := err.

(** What a call does: it returns, blocks for ever on a channel, or panics. *)
Inductive outcome (A : Type) : Type :=
| Returns (a : A)
| Blocks
| Panics.
Arguments Returns {A} a.
Arguments Blocks {A}.
Arguments Panics {A}.

(** Go's [a % b] on [int]: the remainder of the truncated division; a zero
    divisor panics. *)
Definition int_rem (a b : Z) : option Z :=
  if b =? 0 then None else Some (Z.rem a b).

(** ** Tasks, batch contexts and results *)

Module BackfillJob.
(** Modelled from the spec: [BackfillJob], the persisted task of the
    distributed mode, is declared in another file; only its job id is read
    here. *)
Record t := mk { JobID : Z }.
End BackfillJob.

Module backfillTaskContext.
(** [backfillTaskContext]: the result of one batch.  The warnings and
    [finishTS] go to the reorg context and to the log only and are left
    out. *)
Record t := mk {
  nextKey : kv.Key;
  done : bool;
  addedCount : Z;
  scanCount : Z
}.
End backfillTaskContext.

Module backfillResult.
Record t := mk {
  taskID : Z;
  addedCount : Z;
  scanCount : Z;
  nextKey : kv.Key;
  err : option error
}.

Definition with_err (e : option error) (r : t) : t :=
  mk (taskID r) (addedCount r) (scanCount r) (nextKey r) e.
End backfillResult.

Module reorgBackfillTask.
Record t := mk {
  bfJob : option BackfillJob.t;
  physicalTable : Z;            (* the physical table, by id *)
  id : Z;
  startKey : kv.Key;
  endKey : kv.Key;
  endInclude : bool;
  jobID : Z;
  sqlQuery : string;
  priority : Z
}.

Definition with_startKey (k : kv.Key) (r : t) : t :=
  mk (bfJob r) (physicalTable r) (id r) k (endKey r) (endInclude r)
     (jobID r) (sqlQuery r) (priority r).
End reorgBackfillTask.

Definition getJobID (r : reorgBackfillTask.t) : Z :=
  match reorgBackfillTask.bfJob r with
  | Some j => BackfillJob.JobID j
  | None => reorgBackfillTask.jobID r
  end.

Definition excludedEndKey (r : reorgBackfillTask.t) : kv.Key :=
  if reorgBackfillTask.endInclude r then kv.Next (reorgBackfillTask.endKey r)
  else reorgBackfillTask.endKey r.

(** [mergeBackfillCtxToResult] merges the partial result in [taskCtx] into
    [result]. *)
Definition mergeBackfillCtxToResult (taskCtx : backfillTaskContext.t)
    (result : backfillResult.t) : backfillResult.t :=
  {| backfillResult.taskID := backfillResult.taskID result;
     backfillResult.addedCount :=
       int_add (backfillResult.addedCount result) (backfillTaskContext.addedCount taskCtx);
     backfillResult.scanCount :=
       int_add (backfillResult.scanCount result) (backfillTaskContext.scanCount taskCtx);
     backfillResult.nextKey := backfillTaskContext.nextKey taskCtx;
     backfillResult.err := backfillResult.err result |}.

(** ** The batch loop of a worker *)

(** What the collaborators of [handleBackfillTask] answer during one round
    of its loop: the job-cancel check, the row processor, the clock and the
    lease update.  All four are declared outside this file. *)
Record batchRound := {
  (* d.isReorgRunnable(jobID, isDistReorg) *)
  roundRunnable : option error;
  (* bf.BackfillData(handleRange) *)
  roundBackfillData : reorgBackfillTask.t -> error + backfillTaskContext.t;
  (* time.Since(batchStartTime) < updateInstanceLease *)
  roundLeaseFresh : bool;
  (* w.updateLease(uuid, task.bfJob, result.nextKey) *)
  roundUpdateLease : kv.Key -> option error
}.

(** The [for] loop of [handleBackfillTask].  [rounds] scripts the
    collaborators round by round; the loop has no bound of its own, and a
    script that ends before the loop does gives [None].  Beside the result
    the model returns [merged], the batch contexts that were merged into the
    result, in order: these are the batches [BackfillData] committed. *)
Fixpoint handleBackfillTask_loop (rounds : list batchRound) (isDistReorg : bool)
    (handleRange : reorgBackfillTask.t) (result : backfillResult.t)
    (merged : list backfillTaskContext.t)
  : option (backfillResult.t * list backfillTaskContext.t) :=
  match rounds with
  | [] => None
  | round :: rounds' =>
      match roundRunnable round with
      | Some err => Some (backfillResult.with_err (Some err) result, merged)
      | None =>
          match roundBackfillData round handleRange with
          | inl err => Some (backfillResult.with_err (Some err) result, merged)
          | inr taskCtx =>
              let result := mergeBackfillCtxToResult taskCtx result in
              let merged := merged ++ [taskCtx] in
              let handleRange :=
                reorgBackfillTask.with_startKey
                  (backfillTaskContext.nextKey taskCtx) handleRange in
              if backfillTaskContext.done taskCtx then Some (result, merged)
              else if isDistReorg then
                if roundLeaseFresh round then
                  handleBackfillTask_loop rounds' isDistReorg handleRange result merged
                else
                  match roundUpdateLease round (backfillResult.nextKey result) with
                  | Some err =>
                      Some (backfillResult.with_err (Some err) result, merged)
                  | None =>
                      handleBackfillTask_loop rounds' isDistReorg handleRange
                        result merged
                  end
              else
                handleBackfillTask_loop rounds' isDistReorg handleRange result merged
          end
      end
  end.

(** [handleBackfillTask] backfills the range of [task]. *)
Definition handleBackfillTask (rounds : list batchRound) (task : reorgBackfillTask.t)
  : option (backfillResult.t * list backfillTaskContext.t) :=
  let handleRange := task in
  let result :=
    {| backfillResult.taskID := reorgBackfillTask.id task;
       backfillResult.err := None;
       backfillResult.addedCount := 0;
       backfillResult.scanCount := 0;
       backfillResult.nextKey := reorgBackfillTask.startKey handleRange |} in
  let isDistReorg :=
    match reorgBackfillTask.bfJob task with Some _ => true | None => false end in
  handleBackfillTask_loop rounds isDistReorg handleRange result [].

(** ** The store *)

(** Modelled from the spec: the key-value store, its snapshots and
    iterators are interfaces of package [kv], and the region cache belongs
    to the TiKV client; the spec treats them as opaque collaborators.  A
    snapshot is the list of its entries, in the order in which a forward
    iterator delivers them, together with the faults it injects: opening an
    iterator may fail, and so may [Next] when it leaves a given key. *)
Module Snapshot.
Record t := mk {
  entries : list (kv.Key * list byte);
  iterErr : option error;
  iterReverseErr : option error;
  nextErr : kv.Key -> option error
}.
End Snapshot.

(** Modelled from the spec: a [kv.Iterator] in some position.  [ItEnd] is
    an iterator that is not [Valid]; [ItAt key value err rest] is positioned
    on an entry, and [Next] returns [err] if there is one and else moves on
    to [rest]. *)
Inductive Iterator : Type :=
| ItEnd
| ItAt (key : kv.Key) (value : list byte) (err : option error) (rest : Iterator).

(** [it.Valid()] *)
Definition Valid (it : Iterator) : bool :=
  match it with ItEnd => false | ItAt _ _ _ _ => true end.

(** The iterator that delivers the given entries in order. *)
Fixpoint iteratorOf (nextErr : kv.Key -> option error)
    (entries : list (kv.Key * list byte)) : Iterator :=
  match entries with
  | [] => ItEnd
  | (key, value) :: entries' =>
      ItAt key value (nextErr key) (iteratorOf nextErr entries')
  end.

(** Modelled from the spec: [snap.Iter(k, upperBound)] iterates forward
    from [k] up to, but not including, [upperBound].  It is positioned on
    the first entry whose key is at least [k]; a [nil] upper bound is no
    bound. *)
Definition Iter (snap : Snapshot.t) (k upperBound : kv.Key) : Iterator * option error :=
  match Snapshot.iterErr snap with
  | Some err => (ItEnd, Some err)
  | None =>
      (iteratorOf (Snapshot.nextErr snap)
         (List.filter
            (fun e => (kv.Cmp k (fst e) <=? 0) &&
                      (kv.isNil upperBound || (kv.Cmp (fst e) upperBound <? 0)))
            (Snapshot.entries snap)),
       None)
  end.

(** Modelled from the spec: [snap.IterReverse(k)], the reverse snapshot
    iterator.  It is positioned on the first entry whose key is less than
    [k] and goes from greater keys to smaller ones; a [nil] key starts at
    the last entry. *)
Definition IterReverse (snap : Snapshot.t) (k : kv.Key) : Iterator * option error :=
  match Snapshot.iterReverseErr snap with
  | Some err => (ItEnd, Some err)
  | None =>
      (iteratorOf (Snapshot.nextErr snap)
         (rev (List.filter
                 (fun e => kv.isNil k || (kv.Cmp (fst e) k <? 0))
                 (Snapshot.entries snap))),
       None)
  end.

(** Modelled from the spec: the region map of a store, by what
    [rc.SplitRegionRanges(bo, ranges, limit)] returns. *)
Definition RegionCache : Type :=
  list kv.KeyRange -> Z -> list kv.KeyRange * option error.

Module Storage.
(** Modelled from the spec: a [kv.Storage].  [regionCache] is present
    exactly when the store is a [tikv.Storage] and exposes a region map;
    [snapshot ver] is [store.GetSnapshot(ver)]. *)
Record t := mk {
  regionCache : option RegionCache;
  snapshot : Z -> Snapshot.t
}.
End Storage.

(** Modelled from the spec: [kv.MaxVersion], the largest timestamp. *)
Definition MaxVersion : Z := 2 ^ 64 - 1.

(** Functions of other packages whose results this file only passes on:
    [kv.Key.PrefixNext], [tablecodec.IsRecordKey] and
    [tablecodec.DecodeRowKey].  A [kv.Handle] is an integer here. *)
Definition Handle : Type := Z.

Class Codec := {
  PrefixNext : kv.Key -> kv.Key;
  IsRecordKey : kv.Key -> bool;
  DecodeRowKey : kv.Key -> Handle * option error
}.

(** ** Splitting a table range *)

(** [splitTableRanges] uses the regions' key ranges to split the key range
    of the table.  The physical table [t] is only logged. *)
Definition splitTableRanges (store : Storage.t) (startKey endKey : kv.Key) (limit : Z)
  : list kv.KeyRange * option error :=
  let kvRange := kv.mkKeyRange startKey endKey in
  match Storage.regionCache store with
  | None =>
      (* Only support split ranges in tikv.Storage now. *)
      ([kvRange], None)
  | Some rc =>
      let '(ranges, err) := rc [kvRange] limit in
      match err with
      | Some e => ([], Trace (Some e))
      | None =>
          if Z.of_nat (length ranges) =? 0 then
            ([], Trace (Some (ErrInvalidSplitRegionRanges startKey endKey)))
          else (ranges, None)
      end
  end.

(** ** Iterating a snapshot *)

(** Modelled from the spec: [kv.NextUntil(it, fn)], declared in package
    [kv], advances until [fn] holds of the current key, the iterator is not
    valid any more, or [Next] fails. *)
Fixpoint NextUntil (it : Iterator) (fn : kv.Key -> bool) : Iterator * option error :=
  match it with
  | ItEnd => (it, None)
  | ItAt key _ err rest =>
      if fn key then (it, None)
      else
        match err with
        | Some e => (it, Trace (Some e))
        | None => NextUntil rest fn
        end
  end.

(** Modelled from the spec: [util.RowKeyPrefixFilter(rowKeyPrefix)],
    declared in package [util], holds of the keys that do not have
    [rowKeyPrefix] as a prefix, so that [NextUntil] skips what is left of
    the current row. *)
Definition RowKeyPrefixFilter (rowKeyPrefix : kv.Key) : kv.Key -> bool :=
  fun currentKey => negb (kv.HasPrefix currentKey rowKeyPrefix).

(** [ErrNotExist.Equal(err)] *)
Definition isErrNotExist (e : error) : bool :=
  match e with ErrNotExist => true | _ => false end.

(** [recordIterFunc]; a Go closure updates the variables it captures, so
    the callback passes a state of type [A] along. *)
Definition recordIterFunc (A : Type) : Type :=
  A -> option Handle -> kv.Key -> list byte -> A * (bool * option error).

Fixpoint iterator_length (it : Iterator) : nat :=
  match it with
  | ItEnd => O
  | ItAt _ _ _ rest => S (iterator_length rest)
  end.

(** The [for it.Valid()] loop of [iterateSnapshotKeys].  Every round that
    continues has advanced the iterator, so the number of entries left
    bounds the number of rounds; [iterateSnapshotKeys] supplies that much
    fuel, and [None] is the loop running out of it. *)
Fixpoint iterateSnapshotKeys_loop {A : Type} {codec : Codec} (fuel : nat)
    (isRecord : bool) (keyPrefix : kv.Key) (fn : recordIterFunc A)
    (it : Iterator) (a : A) : option (A * option error) :=
  match it with
  | ItEnd => Some (a, None)
  | ItAt key value _ _ =>
      if negb (kv.HasPrefix key keyPrefix) then Some (a, None)
      else
        let '(handle, err) :=
          if isRecord then
            let '(h, err) := DecodeRowKey key in (Some h, err)
          else (None, None) in
        match err with
        | Some e => Some (a, Trace (Some e))
        | None =>
            let '(a, (more, err)) := fn a handle key value in
            if negb more || (match err with Some _ => true | None => false end)
            then Some (a, Trace err)
            else
              let '(it, err) := NextUntil it (RowKeyPrefixFilter key) in
              match err with
              | Some e =>
                  if isErrNotExist e then Some (a, None)
                  else Some (a, Trace (Some e))
              | None =>
                  match fuel with
                  | O => None
                  | S fuel' =>
                      iterateSnapshotKeys_loop fuel' isRecord keyPrefix fn it a
                  end
              end
        end
  end.

Definition iterateSnapshotKeys {A : Type} {codec : Codec} (store : Storage.t)
    (priority : Z) (keyPrefix : kv.Key) (version : Z) (startKey endKey : kv.Key)
    (fn : recordIterFunc A) (a : A) : option (A * option error) :=
  let isRecord := IsRecordKey (kv.Next keyPrefix) in
  let firstKey := if kv.isNil startKey then keyPrefix else startKey in
  let upperBound :=
    if kv.isNil endKey then PrefixNext keyPrefix else PrefixNext endKey in
  let snap := Storage.snapshot store version in
  let '(it, err) := Iter snap firstKey upperBound in
  match err with
  | Some e => Some (a, Trace (Some e))
  | None =>
      iterateSnapshotKeys_loop (iterator_length it) isRecord keyPrefix fn it a
  end.

(** [getRangeEndKey] gets the actual end key for the range of
    [[startKey, endKey]]. *)
Definition getRangeEndKey (store : Storage.t) (priority : Z)
    (keyPrefix startKey endKey : kv.Key) : kv.Key * option error :=
  let snap := Storage.snapshot store MaxVersion in
  let '(it, err) := IterReverse snap (kv.Next endKey) in
  match err with
  | Some e => (None, Trace (Some e))
  | None =>
      match it with
      | ItEnd => (startKey, None)
      | ItAt key _ _ _ =>
          if negb (kv.HasPrefix key keyPrefix) then (startKey, None)
          else if kv.Cmp key startKey <? 0 then (startKey, None)
          else (key, None)
      end
  end.

(** ** The reorganisation context *)

Module Job.
(** Modelled from the spec: [model.Job]; only these fields are read
    here.  [reorgInfo] embeds its job, so [reorgInfo.Priority] is the
    priority of the job. *)
Record t := mk { ID : Z; Priority : Z }.
End Job.

Module table.
(** Modelled from the spec: a [table.PhysicalTable], by its id and the
    prefixes of its record and index keys. *)
Record t := mk {
  GetPhysicalID : Z;
  RecordPrefix : kv.Key;
  IndexPrefix : kv.Key
}.
End table.

Module reorgInfo.
(** Modelled from the spec: [reorgInfo] and [UpdateReorgMeta] are declared
    in another file.  The spec says that [UpdateReorgMeta(nextKey)] makes
    the resume key durable.  [persisted] records the keys the calls so
    far were made with, oldest first. *)
Record t := mk {
  Job : Job.t;
  mergingTmpIdx : bool;
  store : Storage.t;               (* reorgInfo.d.store *)
  persisted : list kv.Key
}.
End reorgInfo.

(** Modelled from the spec: [reorgInfo.UpdateReorgMeta(startKey, pool)]
    makes [startKey] the durable resume key; [result] is the error the call
    returns. *)
Definition UpdateReorgMeta (result : kv.Key -> option error) (r : reorgInfo.t)
    (startKey : kv.Key) : reorgInfo.t * option error :=
  (reorgInfo.mk (reorgInfo.Job r) (reorgInfo.mergingTmpIdx r) (reorgInfo.store r)
     (reorgInfo.persisted r ++ [startKey]),
   result startKey).

(** ** Building the tasks of a batch *)

(** The [for i, keyRange := range kvRanges] loop of [getBatchTasks];
    [total] is [len(kvRanges)]. *)
Fixpoint getBatchTasks_loop {codec : Codec} (t : table.t) (info : reorgInfo.t)
    (prefix : kv.Key) (total : Z) (batch : Z) (kvRanges : list kv.KeyRange) (i : Z)
    (batchTasks : list reorgBackfillTask.t) : list reorgBackfillTask.t :=
  match kvRanges with
  | [] => batchTasks
  | keyRange :: kvRanges' =>
      let startKey := kv.StartKey keyRange in
      let endKey := kv.EndKey keyRange in
      let '(endK, err) :=
        getRangeEndKey (reorgInfo.store info) (Job.Priority (reorgInfo.Job info))
          prefix (kv.StartKey keyRange) endKey in
      let endKey := match err with Some _ => endKey | None => endK end in
      let startKey := if kv.len startKey =? 0 then prefix else startKey in
      let endKey := if kv.len endKey =? 0 then PrefixNext prefix else endKey in
      let task :=
        {| reorgBackfillTask.bfJob := None;
           reorgBackfillTask.sqlQuery := EmptyString;
           reorgBackfillTask.id := i;
           reorgBackfillTask.jobID := Job.ID (reorgInfo.Job info);
           reorgBackfillTask.physicalTable := table.GetPhysicalID t;
           reorgBackfillTask.priority := Job.Priority (reorgInfo.Job info);
           reorgBackfillTask.startKey := startKey;
           reorgBackfillTask.endKey := endKey;
           (* If the boundaries overlap, we should ignore the preceding endKey. *)
           reorgBackfillTask.endInclude :=
             negb (kv.Cmp endK (kv.EndKey keyRange) =? 0) || (i =? total - 1) |} in
      let batchTasks := batchTasks ++ [task] in
      if Z.of_nat (length batchTasks) >=? batch then batchTasks
      else getBatchTasks_loop t info prefix total batch kvRanges' (i + 1) batchTasks
  end.

(** [make([]*reorgBackfillTask, 0, cap)] panics when the capacity is out of
    range: the runtime's [makeslice] refuses a negative capacity and one
    whose [cap] pointers, of [ptrSize] bytes each, take more than [maxAlloc]
    bytes, which is [2^48] on the 64-bit platforms.  An allocation within
    that bound is taken to succeed. *)
Definition ptrSize : Z := 8.

Definition maxAlloc : Z := 2 ^ 48.

Definition makeslice_panics (cap : Z) : bool :=
  (cap <? 0) || (maxAlloc <? cap * ptrSize).

Definition getBatchTasks {codec : Codec} (t : table.t) (info : reorgInfo.t)
    (kvRanges : list kv.KeyRange) (batch : Z)
  : outcome (list reorgBackfillTask.t) :=
  if makeslice_panics batch then Panics
  else
    let prefix :=
      if reorgInfo.mergingTmpIdx info then table.IndexPrefix t
      else table.RecordPrefix t in
    Returns
      (getBatchTasks_loop t info prefix (Z.of_nat (length kvRanges)) batch
         kvRanges 0 []).

(** ** The scheduler and the collection of results *)

(** Modelled from the spec: [backfillScheduler] and its methods
    [workerSize] and [adjustWorkerSize] are declared in another file of the
    package.  The spec says that the scheduler owns the current vector of
    workers and that [AdjustWorkerSize] re-reads the configured worker
    count and grows or shrinks that vector; the worker vector is therefore
    an abstract state [W] with these two operations. *)
Class WorkerPool (W : Type) := {
  workerSize : W -> Z;
  adjustWorkerSize : W -> W * option error
}.

(** A pool with a fixed, positive number of workers, which no adjustment
    changes. *)
Definition fixedPool : WorkerPool positive :=
  {| workerSize := fun w => Z.pos w; adjustWorkerSize := fun w => (w, None) |}.

Module backfillScheduler.
(** Modelled from the spec: the fields of [backfillScheduler] that this
    file uses.  The channels are lists.  [taskCh] holds the tasks no worker
    has picked up; [resultCh] holds the results in the order in which the
    workers deliver them.  The workers run concurrently with the driver;
    in this sequential model all they will deliver is already in
    [resultCh]. *)
Record t (W : Type) := mk {
  reorgInfo : reorgInfo.t;
  taskCh : list reorgBackfillTask.t;
  resultCh : list backfillResult.t;
  workers : W
}.
Arguments mk {W} _ _ _ _.
Arguments reorgInfo {W} _.
Arguments taskCh {W} _.
Arguments resultCh {W} _.
Arguments workers {W} _.
End backfillScheduler.

(** [drainTasks] empties the task channel and counts what it removed. *)
Fixpoint drainTasks_loop (taskCh : list reorgBackfillTask.t) (cnt : Z)
  : Z * list reorgBackfillTask.t :=
  match taskCh with
  | [] => (cnt, [])
  | _ :: taskCh' => drainTasks_loop taskCh' (int_add cnt 1)
  end.

Definition drainTasks (taskCh : list reorgBackfillTask.t)
  : Z * list reorgBackfillTask.t :=
  drainTasks_loop taskCh 0.

Module waitState.
(** The variables of [waitTaskResults] while its loop runs.  [adjusted]
    is a ghost: the loop indices at which [adjustWorkerSize] was called. *)
Record t (W : Type) := mk {
  firstErr : option error;
  addedCount : Z;
  totalAddedCount : Z;
  keeper : doneTaskKeeper.t;
  taskSize : Z;
  taskCh : list reorgBackfillTask.t;
  workers : W;
  adjusted : list Z
}.
Arguments mk {W} _ _ _ _ _ _ _ _.
Arguments firstErr {W} _.
Arguments addedCount {W} _.
Arguments totalAddedCount {W} _.
Arguments keeper {W} _.
Arguments taskSize {W} _.
Arguments taskCh {W} _.
Arguments workers {W} _.
Arguments adjusted {W} _.
End waitState.

(** The [for i := 0; i < taskSize; i++] loop of [waitTaskResults].  Each
    round receives one result; an empty result channel blocks. *)
Fixpoint waitTaskResults_loop {W : Type} {pool : WorkerPool W}
    (resultCh : list backfillResult.t) (i : Z) (st : waitState.t W) {struct resultCh}
  : outcome (waitState.t W * list backfillResult.t) :=
  if i <? waitState.taskSize st then
    match resultCh with
    | [] => Blocks
    | result :: resultCh' =>
        match backfillResult.err result with
        | Some err =>
            let firstErr :=
              match waitState.firstErr st with
              | None => Some err
              | Some e => Some e
              end in
            let '(cnt, taskCh) := drainTasks (waitState.taskCh st) in
            waitTaskResults_loop resultCh' (int_add i 1)
              (waitState.mk firstErr (waitState.addedCount st)
                 (waitState.totalAddedCount st) (waitState.keeper st)
                 (int_add (waitState.taskSize st) (- cnt)) taskCh
                 (waitState.workers st) (waitState.adjusted st))
        | None =>
            let totalAddedCount :=
              int_add (waitState.totalAddedCount st) (backfillResult.addedCount result) in
            let addedCount :=
              int_add (waitState.addedCount st) (backfillResult.addedCount result) in
            let keeper :=
              updateNextKey (waitState.keeper st) (backfillResult.taskID result)
                (backfillResult.nextKey result) in
            (* i%scheduler.workerSize()*4 == 0 *)
            match int_rem i (workerSize (waitState.workers st)) with
            | None => Panics
            | Some r =>
                if int_mul r 4 =? 0 then
                  let '(workers, _) := adjustWorkerSize (waitState.workers st) in
                  waitTaskResults_loop resultCh' (int_add i 1)
                    (waitState.mk (waitState.firstErr st) addedCount totalAddedCount
                       keeper (waitState.taskSize st) (waitState.taskCh st)
                       workers (waitState.adjusted st ++ [i]))
                else
                  waitTaskResults_loop resultCh' (int_add i 1)
                    (waitState.mk (waitState.firstErr st) addedCount totalAddedCount
                       keeper (waitState.taskSize st) (waitState.taskCh st)
                       (waitState.workers st) (waitState.adjusted st))
            end
        end
    end
  else Returns (st, resultCh).

Module waitResult.
(** What [waitTaskResults] returns, [(kv.Key, int64, error)], together
    with what it leaves behind: the counter behind [totalAddedCount], the
    scheduler, and the ghost [adjusted]. *)
Record t (W : Type) := mk {
  nextKey : kv.Key;
  addedCount : Z;
  err : option error;
  totalAddedCount : Z;
  scheduler : backfillScheduler.t W;
  adjusted : list Z
}.
Arguments mk {W} _ _ _ _ _ _.
Arguments nextKey {W} _.
Arguments addedCount {W} _.
Arguments err {W} _.
Arguments totalAddedCount {W} _.
Arguments scheduler {W} _.
Arguments adjusted {W} _.
End waitResult.

Definition waitTaskResults {W : Type} {pool : WorkerPool W}
    (scheduler : backfillScheduler.t W) (batchTasks : list reorgBackfillTask.t)
    (totalAddedCount : Z) : outcome (waitResult.t W) :=
  match batchTasks with
  | [] => Panics                       (* batchTasks[0] *)
  | task0 :: _ =>
      let keeper := newDoneTaskKeeper (reorgBackfillTask.startKey task0) in
      let taskSize := Z.of_nat (length batchTasks) in
      match
        waitTaskResults_loop (backfillScheduler.resultCh scheduler) 0
          (waitState.mk None 0 totalAddedCount keeper taskSize
             (backfillScheduler.taskCh scheduler)
             (backfillScheduler.workers scheduler) [])
      with
      | Returns (st, resultCh) =>
          Returns
            (waitResult.mk
               (doneTaskKeeper.nextKey (waitState.keeper st))
               (waitState.addedCount st)
               (Trace (waitState.firstErr st))
               (waitState.totalAddedCount st)
               (backfillScheduler.mk (backfillScheduler.reorgInfo scheduler)
                  (waitState.taskCh st) resultCh (waitState.workers st))
               (waitState.adjusted st))
      | Blocks => Blocks
      | Panics => Panics
      end
  end.

(** ** Sending a batch and persisting the progress *)

(** The collaborators of [sendTasksAndWait], all declared outside this
    file.  [envWorkers] stands for the worker goroutines: given the
    content of the task channel after the sends, the results they deliver,
    in arrival order, and the tasks they never pick up. *)
Record reorgEnv := {
  envWorkers :
    list reorgBackfillTask.t -> list backfillResult.t * list reorgBackfillTask.t;
  (* dc.isReorgRunnable(reorgInfo.Job.ID, false) *)
  envRunnable : option error;
  (* the error returned by reorgInfo.UpdateReorgMeta(nextKey, sessPool) *)
  envUpdateReorgMeta : kv.Key -> option error
}.

Module sendResult.
(** The error [sendTasksAndWait] returns, with the counter behind
    [totalAddedCount] and the scheduler, whose [reorgInfo] the call
    updates. *)
Record t (W : Type) := mk {
  err : option error;
  totalAddedCount : Z;
  scheduler : backfillScheduler.t W
}.
Arguments mk {W} _ _ _.
Arguments err {W} _.
Arguments totalAddedCount {W} _.
Arguments scheduler {W} _.
End sendResult.

(** The sends of [sendTasksAndWait],
    [for _, task := range batchTasks { scheduler.taskCh <- task }], and what
    the workers make of them while the driver waits.  A batch has at most
    as many tasks as the channel has room for, so the sends themselves do
    not block. *)
Definition sendTasks {W : Type} (env : reorgEnv) (scheduler : backfillScheduler.t W)
    (batchTasks : list reorgBackfillTask.t) : backfillScheduler.t W :=
  let sent := backfillScheduler.taskCh scheduler ++ batchTasks in
  let '(delivered, queued) := envWorkers env sent in
  backfillScheduler.mk (backfillScheduler.reorgInfo scheduler) queued
    (backfillScheduler.resultCh scheduler ++ delivered)
    (backfillScheduler.workers scheduler).

(** [sendTasksAndWait] sends the tasks to the workers and waits for the
    results of all running workers. *)
Definition sendTasksAndWait {W : Type} {pool : WorkerPool W} (env : reorgEnv)
    (scheduler : backfillScheduler.t W) (totalAddedCount : Z)
    (batchTasks : list reorgBackfillTask.t) : outcome (sendResult.t W) :=
  let reorgInfo := backfillScheduler.reorgInfo scheduler in
  let scheduler := sendTasks env scheduler batchTasks in
  match batchTasks with
  | [] => Panics                       (* batchTasks[0].startKey *)
  | _ :: _ =>
      match waitTaskResults scheduler batchTasks totalAddedCount with
      | Returns w =>
          let nextKey := waitResult.nextKey w in
          let err :=
            match waitResult.err w with
            | None => envRunnable env
            | Some e => Some e
            end in
          (* Update the reorg handle that has been processed. *)
          let '(reorgInfo, err1) :=
            UpdateReorgMeta (envUpdateReorgMeta env) reorgInfo nextKey in
          let scheduler :=
            backfillScheduler.mk reorgInfo
              (backfillScheduler.taskCh (waitResult.scheduler w))
              (backfillScheduler.resultCh (waitResult.scheduler w))
              (backfillScheduler.workers (waitResult.scheduler w)) in
          match err with
          | Some e =>
              Returns (sendResult.mk (Trace (Some e))
                         (waitResult.totalAddedCount w) scheduler)
          | None =>
              Returns (sendResult.mk None (waitResult.totalAddedCount w) scheduler)
          end
      | Blocks => Blocks
      | Panics => Panics
      end
  end.

(** ** Notions used in the statements *)

(** *** What a sequence of results reports *)

(** The ids of the results without an error, in arrival order. *)
Definition succeeded (results : list backfillResult.t) : list Z :=
  omap (fun r => match backfillResult.err r with
                 | None => Some (backfillResult.taskID r)
                 | Some _ => None
                 end) results.

(** The error of the first result that has one. *)
Definition firstFailure (results : list backfillResult.t) : option error :=
  head (omap backfillResult.err results).

(** *** What the batches committed by a task amount to *)

Definition sumZ (l : list Z) : Z := foldr Z.add 0 l.

(** The next key of the last committed batch, or [startKey] if no batch
    was committed. *)
Definition committedNextKey (startKey : kv.Key)
    (merged : list backfillTaskContext.t) : kv.Key :=
  match last merged with
  | Some taskCtx => backfillTaskContext.nextKey taskCtx
  | None => startKey
  end.

(** The result that the batches [merged] of a task leave, but for its
    error. *)
Record result_of_batches (startKey : kv.Key)
    (merged : list backfillTaskContext.t) (result : backfillResult.t) : Prop := {
  rb_nextKey : backfillResult.nextKey result = committedNextKey startKey merged;
  rb_addedCount :
    backfillResult.addedCount result =
      wrap64 (sumZ (backfillTaskContext.addedCount <$> merged));
  rb_scanCount :
    backfillResult.scanCount result =
      wrap64 (sumZ (backfillTaskContext.scanCount <$> merged))
}.

(** The first round of the loop fails before a batch is committed: the
    job is not runnable, or [BackfillData] returns an error. *)
Definition fails_at_first_round (rounds : list batchRound)
    (task : reorgBackfillTask.t) : Prop :=
  match rounds with
  | [] => False
  | round :: _ =>
      match roundRunnable round with
      | Some _ => True
      | None =>
          match roundBackfillData round task with
          | inl _ => True
          | inr _ => False
          end
      end
  end.

(** The range that is left of a task once the batches [merged] were
    committed: it starts at the next key of the last of them. *)
Definition rangeAfter (task : reorgBackfillTask.t)
    (merged : list backfillTaskContext.t) : reorgBackfillTask.t :=
  reorgBackfillTask.with_startKey
    (committedNextKey (reorgBackfillTask.startKey task) merged) task.

(** The batches [merged] are what the script commits round by round: in
    round [i] the job is runnable and [BackfillData], called on what the
    batches before left of the task, returns batch [i]. *)
Definition commits (rounds : list batchRound) (task : reorgBackfillTask.t)
    (merged : list backfillTaskContext.t) : Prop :=
  forall (i : nat) taskCtx,
    merged !! i = Some taskCtx ->
    exists round,
      rounds !! i = Some round /\
      roundRunnable round = None /\
      roundBackfillData round (rangeAfter task (take i merged)) = inr taskCtx.

(** The error [e] arises right after the batches [merged]: in the round
    that follows them the job is not runnable or [BackfillData] fails on
    what is left of the task; or, for a task of the distributed mode, the
    lease is stale after the last of them, which is not the end of the
    task, and [updateLease] fails. *)
Definition fails_after (rounds : list batchRound) (task : reorgBackfillTask.t)
    (merged : list backfillTaskContext.t) (e : error) : Prop :=
  (exists round,
     rounds !! length merged = Some round /\
     (roundRunnable round = Some e \/
      (roundRunnable round = None /\
       roundBackfillData round (rangeAfter task merged) = inl e))) \/
  (reorgBackfillTask.bfJob task <> None /\
   exists round taskCtx,
     last merged = Some taskCtx /\
     rounds !! (length merged - 1)%nat = Some round /\
     backfillTaskContext.done taskCtx = false /\
     roundLeaseFresh round = false /\
     roundUpdateLease round (backfillTaskContext.nextKey taskCtx) = Some e).

(** *** The keys of a snapshot *)

(** The entries of a snapshot are in strictly ascending key order. *)
Definition entry_lt (e1 e2 : kv.Key * list byte) : Prop :=
  kv.Cmp (fst e1) (fst e2) < 0.

Definition snapshot_sorted (snap : Snapshot.t) : Prop :=
  StronglySorted entry_lt (Snapshot.entries snap).

Definition snapshot_keys (snap : Snapshot.t) : list kv.Key :=
  fst <$> Snapshot.entries snap.

(** [m] is the largest key of the snapshot that is at most [bound]. *)
Definition largest_at_most (snap : Snapshot.t) (bound m : kv.Key) : Prop :=
  m ∈ snapshot_keys snap /\
  kv.Cmp m bound <= 0 /\
  forall k, k ∈ snapshot_keys snap -> kv.Cmp k bound <= 0 -> kv.Cmp k m <= 0.

(** [m] is the largest key of the snapshot that has the prefix [keyPrefix]
    and is at most [bound]. *)
Definition largest_with_prefix_at_most (snap : Snapshot.t)
    (keyPrefix bound m : kv.Key) : Prop :=
  m ∈ snapshot_keys snap /\
  kv.HasPrefix m keyPrefix = true /\
  kv.Cmp m bound <= 0 /\
  forall k, k ∈ snapshot_keys snap -> kv.HasPrefix k keyPrefix = true ->
            kv.Cmp k bound <= 0 -> kv.Cmp k m <= 0.

(** *** The keys a callback is given *)

(** [logged fn] behaves as [fn] and records, in order, the keys it is
    called with. *)
Definition logged {A : Type} (fn : recordIterFunc A)
  : recordIterFunc (A * list kv.Key) :=
  fun st handle key value =>
    let '(a, res) := fn (fst st) handle key value in
    ((a, snd st ++ [key]), res).

(** The keys an iterator has still to deliver. *)
Fixpoint iterator_keys (it : Iterator) : list kv.Key :=
  match it with
  | ItEnd => []
  | ItAt key _ _ rest => key :: iterator_keys rest
  end.

(** The bounds [iterateSnapshotKeys] opens its iterator with. *)
Definition firstKeyOf (keyPrefix startKey : kv.Key) : kv.Key :=
  if kv.isNil startKey then keyPrefix else startKey.

Definition upperBoundOf {codec : Codec} (keyPrefix endKey : kv.Key) : kv.Key :=
  if kv.isNil endKey then PrefixNext keyPrefix else PrefixNext endKey.

(** The keys the iterator of [iterateSnapshotKeys] delivers: the keys of
    the snapshot from the first key on and below the upper bound, in the
    order of the snapshot. *)
Definition keysInRange {codec : Codec} (snap : Snapshot.t)
    (keyPrefix startKey endKey : kv.Key) : list kv.Key :=
  iterator_keys
    (fst (Iter snap (firstKeyOf keyPrefix startKey) (upperBoundOf keyPrefix endKey))).

(** The calls [visited] take in the rows of the keys [seg], going forward:
    they are made with keys of [seg], in the order of [seg], and every key
    of [seg] is one of them or belongs to the row of one of them, which is
    to have it as a prefix. *)
Definition visits_rows (seg visited : list kv.Key) : Prop :=
  visited `sublist_of` seg /\
  forall k, k ∈ seg -> exists v, v ∈ visited /\ kv.HasPrefix k v = true.

(** ** Sample data *)

(** The key with the bytes of a string. *)
Definition keyOf (s : string) : kv.Key := Some (list_byte_of_string s).

(** A task of the local mode, as [getBatchTasks] builds them. *)
Definition sampleTask (id : Z) (startKey endKey : kv.Key) : reorgBackfillTask.t :=
  {| reorgBackfillTask.bfJob := None;
     reorgBackfillTask.physicalTable := 1;
     reorgBackfillTask.id := id;
     reorgBackfillTask.startKey := startKey;
     reorgBackfillTask.endKey := endKey;
     reorgBackfillTask.endInclude := false;
     reorgBackfillTask.jobID := 1;
     reorgBackfillTask.sqlQuery := EmptyString;
     reorgBackfillTask.priority := 0 |}.

(** Three tasks over the keys [a], [b], [c], [d]. *)
Definition sampleTasks : list reorgBackfillTask.t :=
  [ sampleTask 0 (keyOf "a") (keyOf "b");
    sampleTask 1 (keyOf "b") (keyOf "c");
    sampleTask 2 (keyOf "c") (keyOf "d") ].

(** The result of task [id]: ten rows added, its end key as next key. *)
Definition sampleResult (id : Z) : backfillResult.t :=
  {| backfillResult.taskID := id;
     backfillResult.addedCount := 10;
     backfillResult.scanCount := 10;
     backfillResult.nextKey :=
       if id =? 0 then keyOf "b" else if id =? 1 then keyOf "c" else keyOf "d";
     backfillResult.err := None |}.

(** A store without regions and with the given entries at every version. *)
Definition sampleStore (keys : list kv.Key) : Storage.t :=
  {| Storage.regionCache := None;
     Storage.snapshot := fun _ =>
       {| Snapshot.entries := (fun key => (key, [])) <$> keys;
          Snapshot.iterErr := None;
          Snapshot.iterReverseErr := None;
          Snapshot.nextErr := fun _ => None |} |}.

(** A store without regions whose iterators fail with [ErrNotExist] on
    leaving the key [t2]. *)
Definition sampleFaultyStore (keys : list kv.Key) : Storage.t :=
  {| Storage.regionCache := None;
     Storage.snapshot := fun _ =>
       {| Snapshot.entries := (fun key => (key, [])) <$> keys;
          Snapshot.iterErr := None;
          Snapshot.iterReverseErr := None;
          Snapshot.nextErr := fun key =>
            if kv.Cmp key (keyOf "t2") =? 0 then Some ErrNotExist else None |} |}.

Definition sampleReorgInfo (store : Storage.t) : reorgInfo.t :=
  {| reorgInfo.Job := Job.mk 1 0;
     reorgInfo.mergingTmpIdx := false;
     reorgInfo.store := store;
     reorgInfo.persisted := [] |}.

(** A scheduler with two workers whose result channel holds [results]. *)
Definition sampleScheduler (results : list backfillResult.t)
  : backfillScheduler.t positive :=
  backfillScheduler.mk (sampleReorgInfo (sampleStore [])) [] results 2%positive.

(** The results of the sample tasks when task [1] fails. *)
Definition sampleFailure (id : Z) : backfillResult.t :=
  if id =? 1 then backfillResult.with_err (Some ErrReorgCancelled) (sampleResult id)
  else sampleResult id.

(** Workers that pick up every task and deliver the results in the order
    2, 0, 1, the job being cancelled meanwhile. *)
Definition sampleEnv (res : Z -> backfillResult.t) : reorgEnv :=
  {| envWorkers := fun _ => ([res 2; res 0; res 1], []);
     envRunnable := Some ErrReorgCancelled;
     envUpdateReorgMeta := fun _ => None |}.

(** Two rounds of a worker: a batch of three rows up to key [a5] is
    committed, then the job is found cancelled. *)
Definition sampleRounds : list batchRound :=
  [ {| roundRunnable := None;
       roundBackfillData := fun _ =>
         inr (backfillTaskContext.mk (keyOf "a5") false 3 4);
       roundLeaseFresh := true;
       roundUpdateLease := fun _ => None |};
    {| roundRunnable := Some ErrReorgCancelled;
       roundBackfillData := fun _ => inl ErrReorgPanic;
       roundLeaseFresh := true;
       roundUpdateLease := fun _ => None |} ].

(** Three rounds of a worker: a batch of three rows up to key [a5] and a
    batch of two rows up to key [a9] are committed, then the job is found
    cancelled. *)
Definition sampleThreeRounds : list batchRound :=
  [ {| roundRunnable := None;
       roundBackfillData := fun _ =>
         inr (backfillTaskContext.mk (keyOf "a5") false 3 4);
       roundLeaseFresh := true;
       roundUpdateLease := fun _ => None |};
    {| roundRunnable := None;
       roundBackfillData := fun r =>
         if kv.Cmp (reorgBackfillTask.startKey r) (keyOf "a5") =? 0
         then inr (backfillTaskContext.mk (keyOf "a9") false 2 2)
         else inl ErrReorgPanic;
       roundLeaseFresh := true;
       roundUpdateLease := fun _ => None |};
    {| roundRunnable := Some ErrReorgCancelled;
       roundBackfillData := fun _ => inl ErrReorgPanic;
       roundLeaseFresh := true;
       roundUpdateLease := fun _ => None |} ].

(** A codec for the examples.  [PrefixNext] adds one to the last byte that
    is not [0xff] and clears the bytes after it; a key of [0xff] bytes only
    gets a zero byte appended.  No key is a record key, so no handle is
    decoded. *)
Fixpoint incrementBytes (reversed : list byte) : option (list byte) :=
  match reversed with
  | [] => None
  | b :: reversed' =>
      match Byte.of_N (N.succ (Byte.to_N b)) with
      | Some b' => Some (b' :: reversed')
      | None => cons x00 <$> incrementBytes reversed'
      end
  end.

Definition samplePrefixNext (k : kv.Key) : kv.Key :=
  match incrementBytes (rev (kv.bytes k)) with
  | Some reversed => Some (rev reversed)
  | None => Some (kv.bytes k ++ [x00])
  end.

Definition sampleCodec : Codec :=
  {| PrefixNext := samplePrefixNext;
     IsRecordKey := fun _ => false;
     DecodeRowKey := fun _ => (0, None) |}.

(** A table whose record keys start with [t] and index keys with [i]. *)
Definition sampleTable : table.t :=
  {| table.GetPhysicalID := 1;
     table.RecordPrefix := keyOf "t";
     table.IndexPrefix := keyOf "i" |}.

(** A callback that visits every key and collects the keys it is given. *)
Definition collectKeys : recordIterFunc (list kv.Key) :=
  fun keys _ key _ => (keys ++ [key], (true, None)).

(** ** Notions used in the further properties *)

(** *** The done-task keeper *)

(** While ids are reported at most once, everything stashed lies above
    [current]. *)
Definition stash_above (st : doneTaskKeeper.t) : Prop :=
  forall i v, doneTaskKeeper.doneTaskNextKey st !! i = Some v ->
              doneTaskKeeper.current st < i.


(** *** Sample data *)

(** Two rounds in which the job is runnable; the second batch ends the
    task.  Each batch starts at the start key of the range it is given. *)
Definition sampleTwoBatches : list batchRound :=
  [ {| roundRunnable := None;
       roundBackfillData := fun r =>
         inr (backfillTaskContext.mk
                (kv.Next (reorgBackfillTask.startKey r)) false 3 4);
       roundLeaseFresh := true;
       roundUpdateLease := fun _ => None |};
    {| roundRunnable := None;
       roundBackfillData := fun r =>
         inr (backfillTaskContext.mk
                (kv.Next (reorgBackfillTask.startKey r)) true 2 2);
       roundLeaseFresh := true;
       roundUpdateLease := fun _ => None |} ].


(** *** What the results of a batch report *)

(** The calls of [updateNextKey] that a sequence of results gives rise to:
    one for each result without an error, in arrival order. *)
Definition reported (results : list backfillResult.t) : list (Z * kv.Key) :=
  omap (fun r => match backfillResult.err r with
                 | None => Some (backfillResult.taskID r, backfillResult.nextKey r)
                 | Some _ => None
                 end) results.

(** The row counts of the results without an error. *)
Definition addedBy (results : list backfillResult.t) : list Z :=
  omap (fun r => match backfillResult.err r with
                 | None => Some (backfillResult.addedCount r)
                 | Some _ => None
                 end) results.


(** ** Handling the ranges of a round *)

Module rangeResult.
(** What [handleRangeTasks] returns, [([]kv.KeyRange, error)], with the
    counter behind [totalAddedCount] and the scheduler.  The [nil] slice is
    the empty list: the caller only takes its length. *)
Record t (W : Type) := mk {
  remains : list kv.KeyRange;
  err : option error;
  totalAddedCount : Z;
  scheduler : backfillScheduler.t W
}.
Arguments mk {W} _ _ _ _.
Arguments remains {W} _.
Arguments err {W} _.
Arguments totalAddedCount {W} _.
Arguments scheduler {W} _.
End rangeResult.

(** [handleRangeTasks] sends tasks to workers, and returns remaining
    kvRanges that is not handled.  [backfillTaskChanSize] is the value of
    the package variable of that name, 1024 unless a test sets it. *)
Definition handleRangeTasks {W : Type} {pool : WorkerPool W} {codec : Codec}
    (env : reorgEnv) (backfillTaskChanSize : Z) (scheduler : backfillScheduler.t W)
    (t : table.t) (totalAddedCount : Z) (kvRanges : list kv.KeyRange)
  : outcome (rangeResult.t W) :=
  match
    getBatchTasks t (backfillScheduler.reorgInfo scheduler) kvRanges backfillTaskChanSize
  with
  | Returns batchTasks =>
      if Z.of_nat (length batchTasks) =? 0 then
        Returns (rangeResult.mk [] None totalAddedCount scheduler)
      else
        (* Wait tasks finish. *)
        match sendTasksAndWait env scheduler totalAddedCount batchTasks with
        | Returns r =>
            match sendResult.err r with
            | Some e =>
                Returns (rangeResult.mk [] (Trace (Some e))
                           (sendResult.totalAddedCount r) (sendResult.scheduler r))
            | None =>
                if Z.of_nat (length batchTasks) <? Z.of_nat (length kvRanges) then
                  (* There are kvRanges not handled. *)
                  let remains := drop (length batchTasks) kvRanges in
                  Returns (rangeResult.mk remains None
                             (sendResult.totalAddedCount r) (sendResult.scheduler r))
                else
                  Returns (rangeResult.mk [] None
                             (sendResult.totalAddedCount r) (sendResult.scheduler r))
            end
        | Blocks => Blocks
        | Panics => Panics
        end
  | Blocks => Blocks
  | Panics => Panics
  end.


(** ** The loop of a worker *)

(** What handling one task comes to inside a worker.  [Handles rounds]: the
    collaborators of [handleBackfillTask] answer as [rounds] says.
    [PanicsAfter rounds]: they answer as [rounds] says and in the round
    after the last of these one of them panics. *)
Inductive taskScript : Type :=
| Handles (rounds : list batchRound)
| PanicsAfter (rounds : list batchRound).

(** [w.handleBackfillTask(d, task, bf)] under a script: its result, or a
    panic when the loop gets to the round that panics.  A script that ends
    too early without a panic gives [None], as for [handleBackfillTask]. *)
Definition handleBackfillTask_call (script : taskScript) (task : reorgBackfillTask.t)
  : option (outcome backfillResult.t) :=
  match script with
  | Handles rounds =>
      match handleBackfillTask rounds task with
      | Some (result, _) => Some (Returns result)
      | None => None
      end
  | PanicsAfter rounds =>
      match handleBackfillTask rounds task with
      | Some (result, _) => Some (Returns result)
      | None => Some Panics
      end
  end.

(** The result that the deferred [util.Recover] of [run] sends when the
    handling of the task with id [curTaskID] panicked:
    [&backfillResult{taskID: curTaskID, err: dbterror.ErrReorgPanic}]. *)
Definition recoveredResult (curTaskID : Z) : backfillResult.t :=
  {| backfillResult.taskID := curTaskID;
     backfillResult.addedCount := 0;
     backfillResult.scanCount := 0;
     backfillResult.nextKey := None;
     backfillResult.err := Some ErrReorgPanic |}.

(** [backfillWorker.run] takes tasks off the task channel until its context
    is cancelled, the channel is closed and empty, a task fails, or the
    handling of a task panics; in the last case the deferred [util.Recover]
    sends [recoveredResult] for the current task and the worker exits.
    [cancelled i] is [util.HasCancelled(w.ctx)] in round [i] of the loop,
    [script task] says what handling [task] comes to, and [closed] tells
    whether the task channel was closed; taking from an open empty channel
    blocks.  The result channel has room for the results.  The model
    returns the content of the two channels. *)
Fixpoint run (cancelled : nat -> bool) (script : reorgBackfillTask.t -> taskScript)
    (closed : bool) (taskCh : list reorgBackfillTask.t) (i : nat)
    (resultCh : list backfillResult.t)
  : option (outcome (list backfillResult.t * list reorgBackfillTask.t)) :=
  if cancelled i then Some (Returns (resultCh, taskCh))
  else
    match taskCh with
    | [] => if closed then Some (Returns (resultCh, [])) else Some Blocks
    | task :: taskCh' =>
        let curTaskID := reorgBackfillTask.id task in
        match handleBackfillTask_call (script task) task with
        | None => None
        | Some Panics =>
            Some (Returns (resultCh ++ [recoveredResult curTaskID], taskCh'))
        | Some Blocks => Some Blocks
        | Some (Returns result) =>
            let resultCh := resultCh ++ [result] in
            match backfillResult.err result with
            | Some _ => Some (Returns (resultCh, taskCh'))
            | None => run cancelled script closed taskCh' (S i) resultCh
            end
        end
    end.


(** ** Merging the warnings of a batch *)

Section warnings.
(** Modelled from the spec: [errors.ErrorID] and [terror.Error] are
    declared in other packages.  Of an id only its use as a map key
    matters here, and of a warning only its [ID()]; a warning is a
    [*terror.Error] that is not [nil]. *)
Context {ErrorID : Type} `{Countable ErrorID} {Warn : Type}.
Variable ID : Warn -> ErrorID.

(** A Go map that is written to can be [nil], which is [None]: reading a
    [nil] map finds nothing, writing to it panics. *)
Definition mapaccess {V : Type} (m : option (gmap ErrorID V)) (key : ErrorID)
  : option V :=
  m ≫= (.!! key).

Definition mapassign {V : Type} (m : option (gmap ErrorID V)) (key : ErrorID)
    (value : V) : outcome (option (gmap ErrorID V)) :=
  match m with
  | Some entries => Returns (Some (<[key := value]> entries))
  | None => Panics
  end.

(** The body of the loop of [mergeWarningsAndWarningsCount].  The maps that
    are only read are finite maps, the [nil] map being the empty one; the
    count of an id that is not in [partWarningsCount] is zero. *)
Definition mergeWarning (partWarningsCount : gmap ErrorID Z)
    (totals : outcome (option (gmap ErrorID Warn) * option (gmap ErrorID Z)))
    (warn : Warn)
  : outcome (option (gmap ErrorID Warn) * option (gmap ErrorID Z)) :=
  match totals with
  | Returns (totalWarnings, totalWarningsCount) =>
      let partCount := default 0 (partWarningsCount !! ID warn) in
      match mapaccess totalWarningsCount (ID warn) with
      | Some count =>
          match mapassign totalWarningsCount (ID warn) (int_add count partCount) with
          | Returns totalWarningsCount => Returns (totalWarnings, totalWarningsCount)
          | _ => Panics
          end
      | None =>
          match mapassign totalWarningsCount (ID warn) partCount with
          | Returns totalWarningsCount =>
              match mapassign totalWarnings (ID warn) warn with
              | Returns totalWarnings => Returns (totalWarnings, totalWarningsCount)
              | _ => Panics
              end
          | _ => Panics
          end
      end
  | Blocks => Blocks
  | Panics => Panics
  end.

(** The loop [for _, warn := range partWarnings], over the warnings in the
    order in which the range statement yields them. *)
Definition mergeWarningsAndWarningsCount_range (warns : list Warn)
    (totalWarnings : option (gmap ErrorID Warn))
    (partWarningsCount : gmap ErrorID Z)
    (totalWarningsCount : option (gmap ErrorID Z))
  : outcome (option (gmap ErrorID Warn) * option (gmap ErrorID Z)) :=
  foldl (mergeWarning partWarningsCount)
    (Returns (totalWarnings, totalWarningsCount)) warns.

(** [mergeWarningsAndWarningsCount].  Go leaves the order of a range over a
    map open; here it is that of [map_to_list]. *)
Definition mergeWarningsAndWarningsCount (partWarnings : gmap ErrorID Warn)
    (totalWarnings : option (gmap ErrorID Warn))
    (partWarningsCount : gmap ErrorID Z)
    (totalWarningsCount : option (gmap ErrorID Z))
  : outcome (option (gmap ErrorID Warn) * option (gmap ErrorID Z)) :=
  mergeWarningsAndWarningsCount_range (map_to_list partWarnings).*2
    totalWarnings partWarningsCount totalWarningsCount.

End warnings.


(** *** Sample warnings *)

(** A warning, by its id and its message. *)
Definition sampleWarning : Type := string * string.

Definition samplePartWarnings : gmap string sampleWarning :=
  <["dup" := ("dup", "duplicate entry")]> {["trunc" := ("trunc", "data truncated")]}.

Definition samplePartWarningsCount : gmap string Z :=
  <["dup" := 3]> {["trunc" := 1]}.


(** *** The calls a callback gets *)

(** [traced fn] behaves as [fn] and records, in order, the calls made to
    it: the key it was called with and what it answered. *)
Definition traced {A : Type} (fn : recordIterFunc A)
  : recordIterFunc (A * list (kv.Key * (bool * option error))) :=
  fun st handle key value =>
    let '(a, res) := fn (fst st) handle key value in
    ((a, snd st ++ [(key, res)]), res).


(** A callback that collects the keys it is given and asks for no more at
    the key [stop]. *)
Definition collectUntil (stop : kv.Key) : recordIterFunc (list kv.Key) :=
  fun keys _ key _ => (keys ++ [key], (negb (kv.Cmp key stop =? 0), None)).

(** * Properties *)

(** ** Machine integers *)

Lemma wrap64_small z : int_min <= z <= int_max -> wrap64 z = z.
Proof.
  unfold wrap64, int_min, int_max. intros H.
  rewrite Z.mod_small by lia. lia.
Qed.

Lemma wrap64_add_l a b : wrap64 (wrap64 a + b) = wrap64 (a + b).
Proof.
  unfold wrap64.
  replace ((a + 2 ^ 63) mod 2 ^ 64 - 2 ^ 63 + b + 2 ^ 63)
    with ((a + 2 ^ 63) mod 2 ^ 64 + b) by lia.
  rewrite Z.add_mod_idemp_l by lia.
  f_equal. f_equal. lia.
Qed.

(** ** The done-task keeper *)

(** The loop of [updateNextKey] ends: given the size of the map as fuel it
    stops at an id whose entry is absent, as the [for] loop does. *)
Lemma updateNextKey_loop_exits fuel : forall n,
  (size (doneTaskKeeper.doneTaskNextKey n) <= fuel)%nat ->
  doneTaskKeeper.doneTaskNextKey (updateNextKey_loop fuel n)
    !! doneTaskKeeper.current (updateNextKey_loop fuel n) = None.
Proof.
  induction fuel as [|fuel IH]; intros n Hsz; simpl.
  - assert (doneTaskKeeper.doneTaskNextKey n = ∅) as ->
      by (apply map_size_empty_iff; lia).
    apply lookup_empty.
  - destruct (doneTaskKeeper.doneTaskNextKey n !! doneTaskKeeper.current n)
      as [nKey|] eqn:Hl; [|done].
    apply IH. simpl.
    pose proof (map_size_delete_Some (doneTaskKeeper.current n)
                  (doneTaskKeeper.doneTaskNextKey n) ltac:(eauto)).
    lia.
Qed.

Section keeper.
(** The batch starts at key [S]; task [i] carries next key [k i]; the
    batch has [n] tasks, a slice length, so [n] fits an [int]. *)
Variable S0 : kv.Key.
Variable k : Z -> kv.Key.
Variable n : Z.
Hypothesis n_int : 0 <= n <= int_max.

Abbreviation keeper_draining := (keeper_draining S0 k n).
Abbreviation keeper_inv := (keeper_inv S0 k n).
Abbreviation calls_of := (calls_of k).

Lemma keeper_inv_current_unseen seen st :
  keeper_inv seen st -> doneTaskKeeper.current st ∉ seen.
Proof.
  intros [Hd Hnone] Hin.
  pose proof (kd_pending Hd _ Hin ltac:(lia)) as Hp.
  congruence.
Qed.

Lemma updateNextKey_loop_inv seen fuel st :
  (forall i, i ∈ seen -> 0 <= i < n) ->
  (size (doneTaskKeeper.doneTaskNextKey st) <= fuel)%nat ->
  keeper_draining seen st ->
  keeper_inv seen (updateNextKey_loop fuel st).
Proof using n_int.
  intros Hseen. revert st.
  induction fuel as [|fuel IH]; intros st Hsz Hd; simpl.
  - split; [done|].
    assert (doneTaskKeeper.doneTaskNextKey st = ∅) as ->
      by (apply map_size_empty_iff; lia).
    apply lookup_empty.
  - destruct (doneTaskKeeper.doneTaskNextKey st !! doneTaskKeeper.current st)
      as [nKey|] eqn:Hl; [|by split].
    destruct (kd_stash Hd _ _ Hl) as [Hin ->].
    pose proof (Hseen _ Hin) as Hlt.
    pose proof (kd_range Hd) as Hr.
    assert (int_add (doneTaskKeeper.current st) 1 = doneTaskKeeper.current st + 1)
      as Hinc by (apply wrap64_small; unfold int_min, int_max in *; lia).
    apply IH; simpl.
    + pose proof (map_size_delete_Some (doneTaskKeeper.current st)
                    (doneTaskKeeper.doneTaskNextKey st) ltac:(eauto)).
      lia.
    + rewrite Hinc. constructor; simpl.
      * lia.
      * intros i Hi.
        destruct (decide (i = doneTaskKeeper.current st)) as [->|]; [done|].
        apply (kd_below Hd); lia.
      * replace (doneTaskKeeper.current st + 1 =? 0) with false by lia.
        f_equal; lia.
      * intros i v Hiv. apply lookup_delete_Some in Hiv as [_ Hiv].
        by apply (kd_stash Hd).
      * intros i Hi Hle. rewrite lookup_delete_ne by lia.
        apply (kd_pending Hd); [done|lia].
Qed.

Lemma newDoneTaskKeeper_inv : keeper_inv [] (newDoneTaskKeeper S0).
Proof using n_int.
  split; [|done]. unfold newDoneTaskKeeper.
  constructor;
    cbn [doneTaskKeeper.doneTaskNextKey doneTaskKeeper.current
         doneTaskKeeper.nextKey].
  - lia.
  - lia.
  - done.
  - intros i v Hiv. by rewrite lookup_empty in Hiv.
  - intros i Hi. by apply elem_of_nil in Hi.
Qed.

Lemma updateNextKey_inv seen st id :
  (forall i, i ∈ seen -> 0 <= i < n) -> 0 <= id < n ->
  keeper_inv seen st ->
  keeper_inv (seen ++ [id]) (updateNextKey st id (k id)).
Proof using n_int.
  intros Hseen Hid Hinv.
  pose proof (keeper_inv_current_unseen _ _ Hinv) as Hcur.
  destruct Hinv as [Hd Hnone].
  pose proof (kd_range Hd) as Hr.
  unfold updateNextKey.
  destruct (id =? doneTaskKeeper.current st) eqn:Heq.
  - apply Z.eqb_eq in Heq. subst id.
    assert (int_add (doneTaskKeeper.current st) 1 = doneTaskKeeper.current st + 1)
      as Hinc by (apply wrap64_small; unfold int_min, int_max in *; lia).
    apply updateNextKey_loop_inv; simpl; [|lia|].
    + intros i Hi. apply elem_of_app in Hi as [Hi|Hi]; [by apply Hseen|].
      apply list_elem_of_singleton in Hi. by subst.
    + rewrite Hinc. constructor; simpl.
      * lia.
      * intros i Hi. apply elem_of_app.
        destruct (decide (i = doneTaskKeeper.current st)) as [->|].
        -- right. by apply list_elem_of_singleton.
        -- left. apply (kd_below Hd); lia.
      * replace (doneTaskKeeper.current st + 1 =? 0) with false by lia.
        f_equal; lia.
      * intros i v Hiv. destruct (kd_stash Hd _ _ Hiv) as [Hi ->].
        split; [|done]. apply elem_of_app; by left.
      * intros i Hi Hle. apply elem_of_app in Hi as [Hi|Hi].
        -- apply (kd_pending Hd); [done|lia].
        -- apply list_elem_of_singleton in Hi. lia.
  - apply Z.eqb_neq in Heq. split; simpl.
    + constructor; simpl.
      * done.
      * intros i Hi. apply elem_of_app; left. by apply (kd_below Hd).
      * apply (kd_key Hd).
      * intros i v Hiv. apply lookup_insert_Some in Hiv as [[<- <-]|[Hne Hiv]].
        -- split; [|done]. apply elem_of_app; right.
           by apply list_elem_of_singleton.
        -- destruct (kd_stash Hd _ _ Hiv) as [Hi ->].
           split; [|done]. apply elem_of_app; by left.
      * intros i Hi Hle. destruct (decide (id = i)) as [->|Hne].
        -- apply lookup_insert_eq.
        -- rewrite lookup_insert_ne by done.
           apply elem_of_app in Hi as [Hi|Hi].
           ++ by apply (kd_pending Hd).
           ++ apply list_elem_of_singleton in Hi. congruence.
    + by rewrite lookup_insert_ne.
Qed.

Lemma updateNextKeys_inv ids seen st :
  (forall i, i ∈ seen ++ ids -> 0 <= i < n) ->
  keeper_inv seen st ->
  keeper_inv (seen ++ ids) (updateNextKeys st (calls_of ids)).
Proof using n_int.
  revert seen st. induction ids as [|id ids IH]; intros seen st Hall Hinv.
  - by rewrite app_nil_r.
  - simpl. replace (seen ++ id :: ids) with ((seen ++ [id]) ++ ids)
      by (by rewrite <- app_assoc).
    apply IH.
    + intros i Hi. apply Hall. by rewrite <- app_assoc in Hi.
    + apply updateNextKey_inv; [| |done].
      * intros i Hi. apply Hall. apply elem_of_app; by left.
      * apply Hall. apply elem_of_app; right. by left.
Qed.

(** The keeper's [current] is the least id not yet reported. *)
Lemma keeper_inv_current seen st j :
  keeper_inv seen st -> 0 <= j ->
  (forall i, 0 <= i < j -> i ∈ seen) -> j ∉ seen ->
  doneTaskKeeper.current st = j.
Proof.
  intros Hinv Hj Hbelow Hnot.
  pose proof (keeper_inv_current_unseen _ _ Hinv) as Hcur.
  destruct Hinv as [Hd _].
  pose proof (kd_range Hd) as Hr.
  destruct (Z.lt_trichotomy (doneTaskKeeper.current st) j) as [Hlt|[Heq|Hgt]].
  - exfalso. apply Hcur, Hbelow. lia.
  - done.
  - exfalso. apply Hnot, (kd_below Hd). lia.
Qed.

(** C1 (in-order next key).  Let the ids reported to a keeper created
    with start key [S0] be a permutation of [0 .. n-1], id [i] carrying
    key [k i].  After all calls [nextKey] is [k (n-1)].  After any prefix
    of the calls [nextKey] is [k j] for the largest [j] such that all of
    [0 .. j] were reported, and it is still [S0] if id [0] was not. *)
Theorem doneTaskKeeper_in_order_nextKey (ids : list Z) :
  ids ≡ₚ seqZ 0 n ->
  (0 < n ->
   doneTaskKeeper.nextKey
     (updateNextKeys (newDoneTaskKeeper S0) (calls_of ids)) = k (n - 1)) /\
  (forall pre post, ids = pre ++ post ->
     let st := updateNextKeys (newDoneTaskKeeper S0) (calls_of pre) in
     (0 ∉ pre -> doneTaskKeeper.nextKey st = S0) /\
     (forall j, 0 <= j -> (forall i, 0 <= i <= j -> i ∈ pre) ->
                j + 1 ∉ pre -> doneTaskKeeper.nextKey st = k j)).
Proof using n_int.
  intros Hperm.
  assert (forall i, i ∈ ids -> 0 <= i < n) as Hids.
  { intros i Hi. rewrite Hperm in Hi. apply elem_of_seqZ in Hi. lia. }
  assert (forall pre, (forall i, i ∈ pre -> i ∈ ids) ->
            keeper_inv pre (updateNextKeys (newDoneTaskKeeper S0) (calls_of pre)))
    as Hrun.
  { intros pre Hsub.
    apply (updateNextKeys_inv pre [] (newDoneTaskKeeper S0)).
    - intros i Hi. by apply Hids, Hsub.
    - apply newDoneTaskKeeper_inv. }
  split.
  - intros Hn. pose proof (Hrun ids (fun _ H => H)) as Hinv.
    assert (doneTaskKeeper.current
              (updateNextKeys (newDoneTaskKeeper S0) (calls_of ids)) = n) as Hc.
    { apply (keeper_inv_current ids); [done|lia| |].
      - intros i Hi. rewrite Hperm. apply elem_of_seqZ. lia.
      - intros Hin. apply Hids in Hin. lia. }
    destruct Hinv as [Hd _]. rewrite (kd_key Hd), Hc.
    by replace (n =? 0) with false by lia.
  - intros pre post ->. cbn zeta.
    assert (keeper_inv pre (updateNextKeys (newDoneTaskKeeper S0) (calls_of pre)))
      as Hinv.
    { apply Hrun. intros i Hi. apply elem_of_app. by left. }
    split.
    + intros H0.
      assert (doneTaskKeeper.current
                (updateNextKeys (newDoneTaskKeeper S0) (calls_of pre)) = 0) as Hc.
      { apply (keeper_inv_current pre); [done|lia| |done]. intros; lia. }
      destruct Hinv as [Hd _]. by rewrite (kd_key Hd), Hc.
    + intros j Hj Hall Hnext.
      assert (doneTaskKeeper.current
                (updateNextKeys (newDoneTaskKeeper S0) (calls_of pre)) = j + 1) as Hc.
      { apply (keeper_inv_current pre); [done|lia| |done].
        intros i Hi. apply Hall. lia. }
      destruct Hinv as [Hd _]. rewrite (kd_key Hd), Hc.
      replace (j + 1 =? 0) with false by lia. f_equal. lia.
Qed.

End keeper.

(** ** Keys *)

Module kv_facts.

Lemma to_N_inj (x y : byte) : Byte.to_N x = Byte.to_N y -> x = y.
Proof.
  intros H. pose proof (Byte.of_to_N x) as Hx. rewrite H, Byte.of_to_N in Hx.
  congruence.
Qed.

Lemma bytes_compare_refl a : kv.bytes_compare a a = Eq.
Proof. induction a as [|x a IH]; simpl; [done|]. by rewrite N.compare_refl. Qed.

Lemma bytes_compare_eq a b : kv.bytes_compare a b = Eq -> a = b.
Proof.
  revert b. induction a as [|x a IH]; intros [|y b]; simpl; try done.
  destruct (N.compare (Byte.to_N x) (Byte.to_N y)) eqn:Hc; try done.
  intros H. apply N.compare_eq in Hc. apply to_N_inj in Hc.
  f_equal; [done|by apply IH].
Qed.

Lemma bytes_compare_antisym a b :
  kv.bytes_compare b a = CompOpp (kv.bytes_compare a b).
Proof.
  revert b. induction a as [|x a IH]; intros [|y b]; simpl; try done.
  rewrite (N.compare_antisym (Byte.to_N x) (Byte.to_N y)).
  destruct (N.compare (Byte.to_N x) (Byte.to_N y)); simpl; [apply IH|done|done].
Qed.

(** Appending a byte gives a greater string. *)
Lemma bytes_compare_app_gt a x : kv.bytes_compare (a ++ [x]) a = Gt.
Proof. induction a as [|y a IH]; simpl; [done|]. by rewrite N.compare_refl. Qed.

(** Nothing lies strictly between a string and the string followed by a
    zero byte. *)
Lemma bytes_compare_next a b :
  kv.bytes_compare a (b ++ [x00]) = Lt <-> kv.bytes_compare a b <> Gt.
Proof.
  revert b. induction a as [|x a IH]; intros [|y b]; simpl; try done.
  - destruct (N.compare (Byte.to_N x) 0) eqn:Hc.
    + destruct a; simpl; split; try done.
    + by destruct (Byte.to_N x).
    + split; done.
  - destruct (N.compare (Byte.to_N x) (Byte.to_N y)); [apply IH|done|done].
Qed.

Lemma Cmp_refl k : kv.Cmp k k = 0.
Proof. unfold kv.Cmp. by rewrite bytes_compare_refl. Qed.

Lemma Cmp_antisym k1 k2 : kv.Cmp k2 k1 = - kv.Cmp k1 k2.
Proof.
  unfold kv.Cmp. rewrite (bytes_compare_antisym (kv.bytes k1) (kv.bytes k2)).
  by destruct (kv.bytes_compare (kv.bytes k1) (kv.bytes k2)).
Qed.

(** Keys that compare equal hold the same bytes. *)
Lemma Cmp_eq k1 k2 : kv.Cmp k1 k2 = 0 <-> kv.bytes k1 = kv.bytes k2.
Proof.
  unfold kv.Cmp. split.
  - destruct (kv.bytes_compare (kv.bytes k1) (kv.bytes k2)) eqn:Hc; try done.
    intros _. by apply bytes_compare_eq.
  - intros ->. by rewrite bytes_compare_refl.
Qed.

(** [Next] is strictly greater ... *)
Lemma Cmp_Next_gt k : kv.Cmp (kv.Next k) k = 1.
Proof. unfold kv.Cmp, kv.Next. simpl. by rewrite bytes_compare_app_gt. Qed.

(** ... and the smallest such key: what is below [Next k] is at most [k]. *)
Lemma Cmp_Next_lt k k' : kv.Cmp k' (kv.Next k) < 0 <-> kv.Cmp k' k <= 0.
Proof.
  unfold kv.Cmp, kv.Next. simpl.
  pose proof (bytes_compare_next (kv.bytes k') (kv.bytes k)) as H.
  destruct (kv.bytes_compare (kv.bytes k') (kv.bytes k ++ [x00]));
    destruct (kv.bytes_compare (kv.bytes k') (kv.bytes k));
    split; intros; try lia; exfalso; intuition congruence.
Qed.

End kv_facts.

(** ** The excluded end of a task *)

(** C9.  [excludedEndKey] is [endKey.Next()] when [endInclude] is set and
    [endKey] otherwise; hence the excluded end is strictly greater than
    [endKey] exactly when the end is marked inclusive. *)
Theorem excludedEndKey_spec (r : reorgBackfillTask.t) :
  excludedEndKey r =
    (if reorgBackfillTask.endInclude r then kv.Next (reorgBackfillTask.endKey r)
     else reorgBackfillTask.endKey r) /\
  (kv.Cmp (excludedEndKey r) (reorgBackfillTask.endKey r) > 0 <->
   reorgBackfillTask.endInclude r = true).
Proof.
  split; [done|]. unfold excludedEndKey.
  destruct (reorgBackfillTask.endInclude r).
  - rewrite kv_facts.Cmp_Next_gt. split; [done|lia].
  - rewrite kv_facts.Cmp_refl. split; [lia|done].
Qed.

(** ** Splitting a table range *)

(** C6.  [splitTableRanges] returns the single input range and no error
    when the store is not a [tikv.Storage]; when the store has a region
    cache and the split by regions gives an empty list and no error, it
    returns [ErrInvalidSplitRegionRanges] and no ranges. *)
Theorem splitTableRanges_spec (store : Storage.t) (startKey endKey : kv.Key)
    (limit : Z) :
  (Storage.regionCache store = None ->
   splitTableRanges store startKey endKey limit =
     ([kv.mkKeyRange startKey endKey], None)) /\
  (forall rc ranges,
     Storage.regionCache store = Some rc ->
     rc [kv.mkKeyRange startKey endKey] limit = (ranges, None) ->
     length ranges = 0%nat ->
     splitTableRanges store startKey endKey limit =
       ([], Some (ErrInvalidSplitRegionRanges startKey endKey))).
Proof.
  unfold splitTableRanges. split.
  - by intros ->.
  - intros rc ranges -> -> Hlen. by rewrite Hlen.
Qed.

(** ** The batch loop of a worker *)

Lemma sumZ_snoc l x : sumZ (l ++ [x]) = sumZ l + x.
Proof. unfold sumZ. induction l as [|y l IH]; simpl; lia. Qed.

Lemma result_of_batches_merge startKey merged result taskCtx :
  result_of_batches startKey merged result ->
  result_of_batches startKey (merged ++ [taskCtx])
    (mergeBackfillCtxToResult taskCtx result).
Proof.
  intros [Hk Ha Hs].
  constructor;
    cbn [mergeBackfillCtxToResult backfillResult.nextKey
         backfillResult.addedCount backfillResult.scanCount].
  - unfold committedNextKey. by rewrite last_snoc.
  - rewrite Ha, fmap_app. cbn [fmap list_fmap]. rewrite sumZ_snoc.
    apply wrap64_add_l.
  - rewrite Hs, fmap_app. cbn [fmap list_fmap]. rewrite sumZ_snoc.
    apply wrap64_add_l.
Qed.

Lemma result_of_batches_with_err startKey merged result e :
  result_of_batches startKey merged result ->
  result_of_batches startKey merged (backfillResult.with_err e result).
Proof. by intros [Hk Ha Hs]. Qed.

(** The loop keeps [result] in step with [merged], and only adds to
    [merged]. *)
Lemma handleBackfillTask_loop_spec startKey rounds isDistReorg handleRange
    result merged result' merged' :
  result_of_batches startKey merged result ->
  handleBackfillTask_loop rounds isDistReorg handleRange result merged
    = Some (result', merged') ->
  result_of_batches startKey merged' result' /\
  (length merged <= length merged')%nat.
Proof.
  revert handleRange result merged result' merged'.
  induction rounds as [|round rounds IH];
    intros handleRange result merged result' merged' Hinv; simpl; [done|].
  destruct (roundRunnable round) as [e|].
  { intros [= <- <-]. split; [by apply result_of_batches_with_err|lia]. }
  destruct (roundBackfillData round handleRange) as [e|taskCtx].
  { intros [= <- <-]. split; [by apply result_of_batches_with_err|lia]. }
  pose proof (result_of_batches_merge _ _ _ taskCtx Hinv) as Hinv'.
  assert (length merged <= length (merged ++ [taskCtx]))%nat as Hlen
    by (rewrite length_app; lia).
  destruct (backfillTaskContext.done taskCtx).
  { by intros [= <- <-]. }
  assert (forall r m,
    handleBackfillTask_loop rounds isDistReorg
      (reorgBackfillTask.with_startKey (backfillTaskContext.nextKey taskCtx)
         handleRange)
      (mergeBackfillCtxToResult taskCtx result) (merged ++ [taskCtx]) = Some (r, m) ->
    result_of_batches startKey m r /\ (length merged <= length m)%nat) as Hrec.
  { intros r m Hrun. destruct (IH _ _ _ _ _ Hinv' Hrun). split; [done|lia]. }
  destruct isDistReorg; [|by apply Hrec].
  destruct (roundLeaseFresh round); [by apply Hrec|].
  destruct (roundUpdateLease round _) as [e|]; [|by apply Hrec].
  intros [= <- <-]. split; [by apply result_of_batches_with_err|done].
Qed.

Lemma handleBackfillTask_loop_extends rounds : forall isDistReorg handleRange
    result merged result' merged',
  handleBackfillTask_loop rounds isDistReorg handleRange result merged
    = Some (result', merged') ->
  exists new, merged' = merged ++ new.
Proof.
  induction rounds as [|round rounds IH];
    intros isDistReorg handleRange result merged result' merged'; simpl; [done|].
  destruct (roundRunnable round).
  { intros [= <- <-]. exists []. by rewrite app_nil_r. }
  destruct (roundBackfillData round handleRange) as [e|taskCtx].
  { intros [= <- <-]. exists []. by rewrite app_nil_r. }
  assert (forall r m,
    handleBackfillTask_loop rounds isDistReorg
      (reorgBackfillTask.with_startKey (backfillTaskContext.nextKey taskCtx) handleRange)
      (mergeBackfillCtxToResult taskCtx result) (merged ++ [taskCtx]) = Some (r, m) ->
    exists new, m = merged ++ new) as Hrec.
  { intros r m Hrun. destruct (IH _ _ _ _ _ _ Hrun) as [new ->].
    exists (taskCtx :: new). by rewrite <- app_assoc. }
  destruct (backfillTaskContext.done taskCtx).
  { intros [= <- <-]. by exists [taskCtx]. }
  destruct isDistReorg; [|by apply Hrec].
  destruct (roundLeaseFresh round); [by apply Hrec|].
  destruct (roundUpdateLease round _); [|by apply Hrec].
  intros [= <- <-]. by exists [taskCtx].
Qed.

Lemma handleBackfillTask_loop_chain task rounds : forall isDistReorg result merged
    result' merged',
  handleBackfillTask_loop rounds isDistReorg
    (reorgBackfillTask.with_startKey
       (committedNextKey (reorgBackfillTask.startKey task) merged) task)
    result merged = Some (result', merged') ->
  forall (j : nat) ctx,
    merged' !! (length merged + j)%nat = Some ctx ->
    exists round,
      rounds !! j = Some round /\
      roundRunnable round = None /\
      roundBackfillData round
        (reorgBackfillTask.with_startKey
           (committedNextKey (reorgBackfillTask.startKey task)
              (take (length merged + j) merged')) task) = inr ctx.
Proof.
  induction rounds as [|round rounds IH];
    intros isDistReorg result merged result' merged'; simpl; [done|].
  destruct (roundRunnable round) eqn:Hrunnable.
  { intros [= <- <-] j ctx Hl. apply lookup_lt_Some in Hl. lia. }
  destruct (roundBackfillData round _) as [e|taskCtx] eqn:Hdata.
  { intros [= <- <-] j ctx Hl. apply lookup_lt_Some in Hl. lia. }
  assert (forall m, (exists new, m = (merged ++ [taskCtx]) ++ new) ->
            forall ctx, m !! (length merged + 0)%nat = Some ctx ->
            exists round0,
              (round :: rounds) !! 0%nat = Some round0 /\
              roundRunnable round0 = None /\
              roundBackfillData round0
                (reorgBackfillTask.with_startKey
                   (committedNextKey (reorgBackfillTask.startKey task)
                      (take (length merged + 0) m)) task) = inr ctx) as Hhere.
  { intros m [new ->] ctx Hl. rewrite Nat.add_0_r in *.
    rewrite <- app_assoc in Hl |- *.
    change ([taskCtx] ++ new) with (taskCtx :: new) in Hl |- *.
    rewrite list_lookup_middle in Hl by done.
    inversion Hl. subst ctx. exists round. split; [done|]. split; [done|].
    by rewrite take_app_length. }
  assert (forall r m,
    handleBackfillTask_loop rounds isDistReorg
      (reorgBackfillTask.with_startKey (backfillTaskContext.nextKey taskCtx)
         (reorgBackfillTask.with_startKey
            (committedNextKey (reorgBackfillTask.startKey task) merged) task))
      (mergeBackfillCtxToResult taskCtx result) (merged ++ [taskCtx]) = Some (r, m) ->
    forall (j : nat) ctx,
      m !! (length merged + j)%nat = Some ctx ->
      exists round0,
        (round :: rounds) !! j = Some round0 /\
        roundRunnable round0 = None /\
        roundBackfillData round0
          (reorgBackfillTask.with_startKey
             (committedNextKey (reorgBackfillTask.startKey task)
                (take (length merged + j) m)) task) = inr ctx) as Hrec.
  { intros r m Hrun j ctx Hl. destruct j as [|j].
    - apply Hhere; [|done]. by apply handleBackfillTask_loop_extends in Hrun.
    - replace (length merged + S j)%nat with (length (merged ++ [taskCtx]) + j)%nat
        in * by (rewrite length_app; simpl; lia).
      apply (IH isDistReorg (mergeBackfillCtxToResult taskCtx result)
               (merged ++ [taskCtx]) r m); [|done].
      rewrite <- Hrun. f_equal. unfold committedNextKey. by rewrite last_snoc. }
  destruct (backfillTaskContext.done taskCtx).
  { intros [= <- <-] j ctx Hl. destruct j as [|j].
    - apply Hhere; [|done]. exists []. by rewrite app_nil_r.
    - apply lookup_lt_Some in Hl. rewrite length_app in Hl. simpl in Hl. lia. }
  destruct isDistReorg; [|by apply Hrec].
  destruct (roundLeaseFresh round); [by apply Hrec|].
  destruct (roundUpdateLease round _); [|by apply Hrec].
  intros [= <- <-] j ctx Hl. destruct j as [|j].
  - apply Hhere; [|done]. exists []. by rewrite app_nil_r.
  - apply lookup_lt_Some in Hl. rewrite length_app in Hl. simpl in Hl. lia.
Qed.

(** An error ends the loop right after the batches it has committed. *)
Lemma handleBackfillTask_loop_fails task rounds : forall isDistReorg result merged
    result' merged' e,
  handleBackfillTask_loop rounds isDistReorg (rangeAfter task merged) result merged
    = Some (result', merged') ->
  backfillResult.err result = None ->
  backfillResult.err result' = Some e ->
  exists new,
    merged' = merged ++ new /\
    ((exists round,
        rounds !! length new = Some round /\
        (roundRunnable round = Some e \/
         (roundRunnable round = None /\
          roundBackfillData round (rangeAfter task merged') = inl e))) \/
     (isDistReorg = true /\
      exists round taskCtx,
        last new = Some taskCtx /\
        rounds !! (length new - 1)%nat = Some round /\
        backfillTaskContext.done taskCtx = false /\
        roundLeaseFresh round = false /\
        roundUpdateLease round (backfillTaskContext.nextKey taskCtx) = Some e)).
Proof.
  induction rounds as [|round rounds IH];
    intros isDistReorg result merged result' merged' e; simpl; [done|].
  destruct (roundRunnable round) as [e0|] eqn:Hrunnable.
  { intros [= <- <-] _ [= ->]. exists []. rewrite app_nil_r. split; [done|].
    left. exists round. split; [done|]. by left. }
  destruct (roundBackfillData round (rangeAfter task merged)) as [e0|taskCtx] eqn:Hdata.
  { intros [= <- <-] _ [= ->]. exists []. rewrite app_nil_r. split; [done|].
    left. exists round. split; [done|]. by right. }
  assert (reorgBackfillTask.with_startKey (backfillTaskContext.nextKey taskCtx)
            (rangeAfter task merged) = rangeAfter task (merged ++ [taskCtx])) as ->.
  { unfold rangeAfter, committedNextKey. by rewrite last_snoc. }
  assert (forall r m,
    handleBackfillTask_loop rounds isDistReorg (rangeAfter task (merged ++ [taskCtx]))
      (mergeBackfillCtxToResult taskCtx result) (merged ++ [taskCtx]) = Some (r, m) ->
    backfillResult.err result = None ->
    backfillResult.err r = Some e ->
    exists new,
      m = merged ++ new /\
      ((exists round0,
          (round :: rounds) !! length new = Some round0 /\
          (roundRunnable round0 = Some e \/
           (roundRunnable round0 = None /\
            roundBackfillData round0 (rangeAfter task m) = inl e))) \/
       (isDistReorg = true /\
        exists round0 taskCtx0,
          last new = Some taskCtx0 /\
          (round :: rounds) !! (length new - 1)%nat = Some round0 /\
          backfillTaskContext.done taskCtx0 = false /\
          roundLeaseFresh round0 = false /\
          roundUpdateLease round0 (backfillTaskContext.nextKey taskCtx0) = Some e)))
    as Hrec.
  { intros r m Hrun Hok Herr.
    destruct (IH _ _ _ _ _ _ Hrun Hok Herr) as (new & -> & Hend).
    exists (taskCtx :: new). split; [by rewrite <- app_assoc|].
    destruct Hend as [(round0 & Hl & Hfail)|(Hdist & round0 & taskCtx0 & Hlast & Hl & Hrest)].
    - left. by exists round0.
    - right. split; [done|]. exists round0, taskCtx0.
      destruct new as [|taskCtx1 new]; [done|].
      split; [by rewrite last_cons, Hlast|]. split; [|done].
      cbn [length] in Hl |- *. rewrite Nat.sub_succ, Nat.sub_0_r in Hl |- *.
      exact Hl. }
  destruct (backfillTaskContext.done taskCtx) eqn:Hdone.
  { intros [= <- <-] Hok Herr. cbn in Herr. congruence. }
  destruct isDistReorg; [|by apply Hrec].
  destruct (roundLeaseFresh round) eqn:Hfresh; [by apply Hrec|].
  destruct (roundUpdateLease round _) as [e0|] eqn:Hlease; [|by apply Hrec].
  intros [= <- <-] _ [= ->]. exists [taskCtx]. split; [done|].
  right. split; [done|]. by exists round, taskCtx.
Qed.

(** C10.  When [handleBackfillTask] returns a result with an error, the
    result's [nextKey] is the task's [startKey] if no batch was committed
    before the error, which is the case exactly when the first runnability
    check or the first [BackfillData] call failed, and else the [nextKey]
    of the last committed batch; [addedCount] and [scanCount] are the
    (64-bit) sums over the committed batches only.  The committed batches
    [merged] are the batches that [BackfillData] returned round by round,
    each on what the batches before it left of the task, up to the round in
    which the error arose: there the job was not runnable or [BackfillData]
    failed, or the lease update failed after the last batch. *)
Theorem handleBackfillTask_error_result (rounds : list batchRound)
    (task : reorgBackfillTask.t) (result : backfillResult.t)
    (merged : list backfillTaskContext.t) :
  handleBackfillTask rounds task = Some (result, merged) ->
  backfillResult.err result <> None ->
  backfillResult.nextKey result =
    committedNextKey (reorgBackfillTask.startKey task) merged /\
  backfillResult.addedCount result =
    wrap64 (sumZ (backfillTaskContext.addedCount <$> merged)) /\
  backfillResult.scanCount result =
    wrap64 (sumZ (backfillTaskContext.scanCount <$> merged)) /\
  (merged = [] <-> fails_at_first_round rounds task) /\
  (merged = [] ->
   backfillResult.nextKey result = reorgBackfillTask.startKey task) /\
  commits rounds task merged /\
  (forall e, backfillResult.err result = Some e -> fails_after rounds task merged e).
Proof.
  unfold handleBackfillTask. intros Hrun Herr.
  set (result0 := backfillResult.mk _ _ _ _ _) in Hrun.
  assert (result_of_batches (reorgBackfillTask.startKey task) [] result0) as Hinv0
    by (by constructor).
  assert (task = rangeAfter task []) as Htask by (by destruct task).
  destruct (handleBackfillTask_loop_spec _ _ _ _ _ _ _ _ Hinv0 Hrun) as [[Hk Ha Hs] _].
  repeat split; try done.
  - intros ->. destruct rounds as [|round rounds]; [done|]. simpl in *.
    destruct (roundRunnable round); [done|].
    destruct (roundBackfillData round task) as [e|taskCtx]; [done|].
    exfalso.
    assert (forall r m,
      handleBackfillTask_loop rounds
        (match reorgBackfillTask.bfJob task with Some _ => true | None => false end)
        (reorgBackfillTask.with_startKey (backfillTaskContext.nextKey taskCtx) task)
        (mergeBackfillCtxToResult taskCtx result0) ([] ++ [taskCtx]) = Some (r, m) ->
      m <> []) as Hrec.
    { intros r m Hrun' ->.
      pose proof (result_of_batches_merge _ _ _ taskCtx Hinv0) as Hinv'.
      destruct (handleBackfillTask_loop_spec _ _ _ _ _ _ _ _ Hinv' Hrun') as [_ Hlen].
      simpl in Hlen. lia. }
    destruct (backfillTaskContext.done taskCtx); [by inversion Hrun|].
    destruct (match reorgBackfillTask.bfJob task with Some _ => true | None => false end);
      [|by eapply Hrec].
    destruct (roundLeaseFresh round); [by eapply Hrec|].
    destruct (roundUpdateLease round _); [by inversion Hrun|by eapply Hrec].
  - destruct rounds as [|round rounds]; [done|]. simpl in *.
    destruct (roundRunnable round); [by inversion Hrun|].
    destruct (roundBackfillData round task); [by inversion Hrun|done].
  - intros ->. by rewrite Hk.
  - intros i taskCtx Hl. unfold rangeAfter.
    eapply (handleBackfillTask_loop_chain task rounds _ _ [] result merged); [|done].
    rewrite <- Hrun. f_equal. by destruct task.
  - intros e He. rewrite Htask in Hrun at 2.
    destruct (handleBackfillTask_loop_fails _ _ _ _ _ _ _ _ Hrun eq_refl He)
      as (new & Hnew & Hend).
    cbn [app] in Hnew. subst new.
    destruct Hend as [Hfail|(Hdist & Hlease)]; [by left|]. right. split; [|done].
    by destruct (reorgBackfillTask.bfJob task).
Qed.

(** ** Collecting the results of a batch *)

Section wait_facts.
Context {W : Type} {pool : WorkerPool W}.
(** The batch starts at [S0] and has [n] tasks; the result of a task [i]
    that succeeds carries next key [key i]. *)
Variable S0 : kv.Key.
Variable key : Z -> kv.Key.
Variable n : Z.
Hypothesis n_int : 0 <= n <= int_max.
(** The pool is never without a worker. *)
Hypothesis pool_nonempty : forall w : W, workerSize w <> 0.

Lemma drainTasks_nil : drainTasks [] = (0, []).
Proof. done. Qed.

(** With nothing left in the task channel, the loop receives one result per
    round until [taskSize] results were received; the keeper has then seen
    the successful ones. *)
Lemma waitTaskResults_loop_spec results :
  forall (i : Z) (st : waitState.t W) (seen : list Z),
    0 <= i ->
    i + Z.of_nat (length results) = waitState.taskSize st ->
    waitState.taskSize st <= int_max ->
    waitState.taskCh st = [] ->
    (forall r, r ∈ results -> backfillResult.err r = None ->
               0 <= backfillResult.taskID r < n /\
               backfillResult.nextKey r = key (backfillResult.taskID r)) ->
    (forall x, x ∈ seen -> 0 <= x < n) ->
    keeper_inv S0 key n seen (waitState.keeper st) ->
    exists st',
      waitTaskResults_loop results i st = Returns (st', []) /\
      keeper_inv S0 key n (seen ++ succeeded results) (waitState.keeper st') /\
      waitState.firstErr st' =
        match waitState.firstErr st with
        | Some e => Some e
        | None => firstFailure results
        end.
Proof using n_int pool_nonempty.
  induction results as [|r results IH]; intros i st seen Hi Hsz Hmax Hch Hres Hseen Hinv.
  - simpl in *. replace (i <? waitState.taskSize st) with false by lia.
    exists st. rewrite app_nil_r. split; [done|]. split; [done|].
    by destruct (waitState.firstErr st).
  - cbn [waitTaskResults_loop]. rewrite length_cons in Hsz.
    replace (i <? waitState.taskSize st) with true by lia.
    assert (int_add i 1 = i + 1) as Hinc
      by (apply wrap64_small; unfold int_min, int_max in *; lia).
    rewrite Hinc.
    destruct (backfillResult.err r) as [e|] eqn:Herr.
    + rewrite Hch, drainTasks_nil.
      assert (int_add (waitState.taskSize st) (- 0) = waitState.taskSize st) as ->
        by (unfold int_add; change (- 0) with 0; rewrite Z.add_0_r;
            apply wrap64_small; unfold int_min, int_max in *; lia).
      edestruct (IH (i + 1)) as (st' & Hrun & Hk & He);
        [ | | | | | exact Hseen | | ]; cycle -1.
      * exists st'. split; [exact Hrun|]. split.
        -- unfold succeeded in *. cbn [omap list_omap]. by rewrite Herr.
        -- rewrite He. cbn [waitState.firstErr].
           unfold firstFailure. cbn [omap list_omap]. rewrite Herr.
           by destruct (waitState.firstErr st).
      * lia.
      * cbn [waitState.taskSize]. lia.
      * done.
      * done.
      * intros r' Hr'. apply Hres. by right.
      * done.
    + destruct (Hres r ltac:(by left) Herr) as [Hid Hkey].
      pose proof (updateNextKey_inv S0 key n n_int seen (waitState.keeper st)
                    (backfillResult.taskID r) Hseen Hid Hinv) as Hinv'.
      rewrite <- Hkey in Hinv'.
      assert (forall x, x ∈ seen ++ [backfillResult.taskID r] -> 0 <= x < n) as Hseen'.
      { intros x Hx. apply elem_of_app in Hx as [Hx|Hx]; [by apply Hseen|].
        apply list_elem_of_singleton in Hx. by subst. }
      assert (forall st1,
        waitState.taskSize st1 = waitState.taskSize st ->
        waitState.taskCh st1 = [] ->
        waitState.firstErr st1 = waitState.firstErr st ->
        waitState.keeper st1 =
          updateNextKey (waitState.keeper st) (backfillResult.taskID r)
            (backfillResult.nextKey r) ->
        exists st',
          waitTaskResults_loop results (i + 1) st1 = Returns (st', []) /\
          keeper_inv S0 key n (seen ++ succeeded (r :: results)) (waitState.keeper st') /\
          waitState.firstErr st' =
            match waitState.firstErr st with
            | Some e => Some e
            | None => firstFailure (r :: results)
            end) as Hnext.
      { intros st1 Hts Htc Hfe Hke.
        destruct (IH (i + 1) st1 (seen ++ [backfillResult.taskID r]))
          as (st' & Hrun & Hk & He); try done; try lia.
        - intros r' Hr'. apply Hres. by right.
        - by rewrite Hke.
        - exists st'. split; [done|]. split.
          + unfold succeeded in *. cbn [omap list_omap]. rewrite Herr.
            by rewrite <- app_assoc in Hk.
          + rewrite He, Hfe. unfold firstFailure. cbn [omap list_omap].
            by rewrite Herr. }
      unfold int_rem. destruct (workerSize (waitState.workers st) =? 0) eqn:Hws.
      { apply Z.eqb_eq in Hws. by apply pool_nonempty in Hws. }
      destruct (int_mul _ 4 =? 0).
      * destruct (adjustWorkerSize (waitState.workers st)) as [workers' err'].
        by apply Hnext.
      * by apply Hnext.
Qed.

End wait_facts.

Lemma elem_of_succeeded results i :
  i ∈ succeeded results <->
  exists r, r ∈ results /\ backfillResult.err r = None /\ backfillResult.taskID r = i.
Proof.
  unfold succeeded. rewrite list_elem_of_omap. split.
  - intros (r & Hr & Hi). exists r. destruct (backfillResult.err r); [done|].
    split; [done|]. split; [done|]. congruence.
  - intros (r & Hr & He & Hi). exists r. split; [done|]. rewrite He. congruence.
Qed.

(** C2 (failure truncation).  A batch of [n] tasks with ids [0 .. n-1]
    delivers one result per task, [res i] for task [i], in any order; the
    result of task [failed] carries an error and all others succeed.  Then
    [waitTaskResults] returns the next key of task [failed - 1], or the
    start key of the first task of the batch if [failed = 0], and
    [sendTasksAndWait] persists that key. *)
Theorem waitTaskResults_failure_truncation {W : Type} {pool : WorkerPool W}
    (scheduler : backfillScheduler.t W) (task0 : reorgBackfillTask.t)
    (rest : list reorgBackfillTask.t) (totalAddedCount : Z)
    (res : Z -> backfillResult.t) (failed : Z) (e : error) :
  let batchTasks := task0 :: rest in
  let n := Z.of_nat (length batchTasks) in
  let expected :=
    if failed =? 0 then reorgBackfillTask.startKey task0
    else backfillResult.nextKey (res (failed - 1)) in
  n <= int_max ->
  (forall w : W, workerSize w <> 0) ->
  0 <= failed < n ->
  (forall i, 0 <= i < n -> backfillResult.taskID (res i) = i) ->
  backfillResult.err (res failed) = Some e ->
  (forall i, 0 <= i < n -> i <> failed -> backfillResult.err (res i) = None) ->
  backfillScheduler.resultCh scheduler ≡ₚ res <$> seqZ 0 n ->
  backfillScheduler.taskCh scheduler = [] ->
  (exists w,
     waitTaskResults scheduler batchTasks totalAddedCount = Returns w /\
     waitResult.nextKey w = expected /\
     waitResult.err w = Some e) /\
  (forall env scheduler0,
     sendTasks env scheduler0 batchTasks = scheduler ->
     exists r,
       sendTasksAndWait env scheduler0 totalAddedCount batchTasks = Returns r /\
       sendResult.err r = Some e /\
       reorgInfo.persisted (backfillScheduler.reorgInfo (sendResult.scheduler r)) =
         reorgInfo.persisted (backfillScheduler.reorgInfo scheduler0) ++ [expected]).
Proof.
  intros batchTasks n expected Hn Hpool Hfailed Hid Herr Hok Hperm Hch.
  set (key := fun i => backfillResult.nextKey (res i)).
  set (S0 := reorgBackfillTask.startKey task0).
  assert (0 <= n <= int_max) as Hn' by (unfold n; lia).
  assert (forall r, r ∈ backfillScheduler.resultCh scheduler <->
                    exists i, 0 <= i < n /\ r = res i) as Hmem.
  { intros r. rewrite Hperm, list_elem_of_fmap. split.
    - intros (i & -> & Hi). apply elem_of_seqZ in Hi. exists i. split; [lia|done].
    - intros (i & Hi & ->). exists i. split; [done|]. apply elem_of_seqZ. lia. }
  assert (exists w,
     waitTaskResults scheduler batchTasks totalAddedCount = Returns w /\
     waitResult.nextKey w = expected /\
     waitResult.err w = Some e /\
     backfillScheduler.reorgInfo (waitResult.scheduler w) =
       backfillScheduler.reorgInfo scheduler) as Hwait.
  { unfold waitTaskResults, batchTasks. fold batchTasks. fold n. fold S0.
    set (st0 := waitState.mk _ _ _ _ _ _ _ _).
    destruct (waitTaskResults_loop_spec S0 key n Hn' Hpool
                (backfillScheduler.resultCh scheduler) 0 st0 [])
      as (st' & Hrun & Hinv & Hfirst).
    - lia.
    - simpl. rewrite Hperm, length_fmap, length_seqZ. lia.
    - simpl. lia.
    - done.
    - intros r Hr Hnone. apply Hmem in Hr as (i & Hi & ->).
      rewrite (Hid i Hi). done.
    - intros x Hx. by apply elem_of_nil in Hx.
    - apply newDoneTaskKeeper_inv. done.
    - rewrite Hrun. eexists. split; [done|]. cbn [waitResult.nextKey waitResult.err
        waitResult.scheduler backfillScheduler.reorgInfo].
      split; [|split; [|done]].
      + simpl in Hinv.
        assert (doneTaskKeeper.current (waitState.keeper st') = failed) as Hcur.
        { apply (keeper_inv_current S0 key n _ _ _ Hinv); [lia| |].
          - intros i Hi. apply elem_of_succeeded. exists (res i).
            split; [apply Hmem; exists i; split; [lia|done]|].
            split; [apply Hok; lia|apply Hid; lia].
          - intros Hin. apply elem_of_succeeded in Hin as (r & Hr & Hnone & Hri).
            apply Hmem in Hr as (i & Hi & ->). rewrite (Hid i Hi) in Hri. subst i.
            congruence. }
        destruct Hinv as [Hd _]. rewrite (kd_key Hd), Hcur. done.
      + unfold Trace. rewrite Hfirst. simpl.
        unfold firstFailure.
        destruct (omap backfillResult.err (backfillScheduler.resultCh scheduler))
          as [|e' l] eqn:Hom.
        * exfalso.
          assert (e ∈ omap backfillResult.err (backfillScheduler.resultCh scheduler))
            as Hin.
          { apply list_elem_of_omap. exists (res failed). split; [|done].
            apply Hmem. by exists failed. }
          rewrite Hom in Hin. by apply elem_of_nil in Hin.
        * simpl. f_equal.
          assert (e' ∈ omap backfillResult.err (backfillScheduler.resultCh scheduler))
            as Hin by (rewrite Hom; by left).
          apply list_elem_of_omap in Hin as (r & Hr & He').
          apply Hmem in Hr as (i & Hi & ->).
          destruct (decide (i = failed)) as [->|Hne]; [congruence|].
          rewrite (Hok i Hi Hne) in He'. done. }
  split.
  - destruct Hwait as (w & Hrun & Hk & He & _). by exists w.
  - intros env scheduler0 Hsend. unfold sendTasksAndWait. rewrite Hsend.
    unfold batchTasks in *.
    destruct Hwait as (w & -> & Hk & He & Hinfo).
    rewrite He. unfold UpdateReorgMeta. eexists. split; [done|].
    cbn [sendResult.err sendResult.scheduler backfillScheduler.reorgInfo
         reorgInfo.persisted].
    split; [done|]. by rewrite Hk.
Qed.

(** ** Persisting the progress of a batch *)

(** C3.  Whenever [sendTasksAndWait] returns, be it that [waitTaskResults]
    succeeded, that it returned an error, or that the job is not runnable
    any more after the wait, [UpdateReorgMeta] was called exactly once, with
    the next key that [waitTaskResults] returned. *)
Theorem sendTasksAndWait_updates_reorg_meta {W : Type} {pool : WorkerPool W}
    (env : reorgEnv) (scheduler : backfillScheduler.t W) (totalAddedCount : Z)
    (batchTasks : list reorgBackfillTask.t) (r : sendResult.t W) :
  sendTasksAndWait env scheduler totalAddedCount batchTasks = Returns r ->
  exists w,
    waitTaskResults (sendTasks env scheduler batchTasks) batchTasks totalAddedCount
      = Returns w /\
    reorgInfo.persisted (backfillScheduler.reorgInfo (sendResult.scheduler r)) =
      reorgInfo.persisted (backfillScheduler.reorgInfo scheduler)
        ++ [waitResult.nextKey w] /\
    sendResult.err r =
      match waitResult.err w with
      | Some e => Some e
      | None => envRunnable env
      end.
Proof.
  unfold sendTasksAndWait. destruct batchTasks as [|task0 rest]; [done|].
  destruct (waitTaskResults _ _ _) as [w| |]; [|done|done].
  intros Hret. exists w. split; [done|].
  unfold UpdateReorgMeta in Hret.
  destruct (waitResult.err w) as [e|]; [|destruct (envRunnable env) as [e|]];
    by inversion Hret.
Qed.

(** ** Adjusting the worker pool while waiting *)

(** C5, at a concrete run.  With two workers and three successful results,
    [adjustWorkerSize] is called at the loop indices 0 and 2, although 2 is
    not a multiple of [workerSize * 4 = 8]: the condition
    [i%scheduler.workerSize()*4 == 0] is [(i % workerSize) * 4 == 0]. *)
Theorem waitTaskResults_adjusts_at_index_2 :
  waitResult.adjusted <$>
    (match
       waitTaskResults (pool := fixedPool)
         (sampleScheduler [sampleResult 0; sampleResult 1; sampleResult 2])
         sampleTasks 0
     with
     | Returns w => Some w
     | _ => None
     end) = Some [0; 2] /\
  Z.rem 2 (2 * 4) <> 0.
Proof. split; [by vm_compute|by vm_compute]. Qed.

(** What the code does in place of C5: with a fixed number [w] of workers
    and results that all succeed, [adjustWorkerSize] is called at the loop
    indices that are multiples of [w], the factor 4 having no effect. *)
Lemma waitTaskResults_loop_adjusted (w : positive) results :
  forall (i : Z) (st : waitState.t positive),
    Z.pos w < 2 ^ 61 ->
    0 <= i ->
    i + Z.of_nat (length results) = waitState.taskSize st ->
    waitState.taskSize st <= int_max ->
    waitState.workers st = w ->
    Forall (fun r => backfillResult.err r = None) results ->
    exists st',
      waitTaskResults_loop (pool := fixedPool) results i st = Returns (st', []) /\
      waitState.adjusted st' =
        waitState.adjusted st ++
        List.filter (fun j => Z.rem j (Z.pos w) =? 0) (seqZ i (Z.of_nat (length results))).
Proof.
  induction results as [|r results IH]; intros i st Hw Hi Hsz Hmax Hws Hok.
  - simpl in *. replace (i <? waitState.taskSize st) with false by lia.
    exists st. by rewrite app_nil_r.
  - cbn [waitTaskResults_loop]. rewrite length_cons in Hsz.
    replace (i <? waitState.taskSize st) with true by lia.
    apply Forall_cons in Hok as [Hr Hok]. rewrite Hr.
    assert (int_add i 1 = i + 1) as ->
      by (apply wrap64_small; unfold int_min, int_max in *; lia).
    rewrite Hws. cbn [workerSize adjustWorkerSize fixedPool]. unfold int_rem.
    replace (Z.pos w =? 0) with false by lia.
    pose proof (Z.rem_bound_pos i (Z.pos w) Hi ltac:(lia)) as Hrem.
    assert (int_mul (Z.rem i (Z.pos w)) 4 = Z.rem i (Z.pos w) * 4) as ->
      by (apply wrap64_small; unfold int_min, int_max; lia).
    rewrite length_cons, Nat2Z.inj_succ, seqZ_cons by lia.
    rewrite Z.pred_succ. cbn [List.filter].
    destruct (Z.rem i (Z.pos w) =? 0) eqn:Hz.
    + replace (Z.rem i (Z.pos w) * 4 =? 0) with true by lia.
      edestruct (IH (i + 1)) as (st' & Hrun & Hadj); cycle -1.
      * exists st'. split; [exact Hrun|]. rewrite Hadj. cbn [waitState.adjusted].
        by rewrite <- app_assoc.
      * done.
      * lia.
      * cbn [waitState.taskSize]. lia.
      * done.
      * done.
      * done.
    + replace (Z.rem i (Z.pos w) * 4 =? 0) with false by lia.
      edestruct (IH (i + 1)) as (st' & Hrun & Hadj); cycle -1.
      * exists st'. split; [exact Hrun|]. by rewrite Hadj.
      * done.
      * lia.
      * cbn [waitState.taskSize]. lia.
      * done.
      * done.
      * done.
Qed.

(** ** The end key of a range *)

(** The keys between two keys with a common prefix have that prefix. *)
Lemma bytes_has_prefix_between p : forall a b c,
  kv.bytes_has_prefix a p = true -> kv.bytes_has_prefix c p = true ->
  kv.bytes_compare a b <> Gt -> kv.bytes_compare b c <> Gt ->
  kv.bytes_has_prefix b p = true.
Proof.
  induction p as [|y p IH]; intros a b c Ha Hc Hab Hbc; [by destruct b|].
  destruct a as [|x a]; [done|]. destruct c as [|z c]; [done|].
  simpl in Ha, Hc.
  apply andb_true_iff in Ha as [Hx Ha]. apply andb_true_iff in Hc as [Hz Hc].
  apply Byte.byte_dec_bl in Hx, Hz. subst x z.
  destruct b as [|w b]; [done|]. simpl in *.
  destruct (N.compare (Byte.to_N y) (Byte.to_N w)) eqn:Hyw;
    destruct (N.compare (Byte.to_N w) (Byte.to_N y)) eqn:Hwy; try done.
  - apply N.compare_eq in Hyw. apply kv_facts.to_N_inj in Hyw. subst w.
    rewrite Byte.byte_dec_lb by done. simpl. by apply (IH a b c).
  - apply N.compare_eq in Hyw. rewrite Hyw, N.compare_refl in Hwy. done.
  - apply N.compare_eq in Hwy. rewrite Hwy, N.compare_refl in Hyw. done.
  - rewrite N.compare_antisym, Hwy in Hyw. done.
Qed.

Lemma HasPrefix_between keyPrefix a b c :
  kv.HasPrefix a keyPrefix = true -> kv.HasPrefix c keyPrefix = true ->
  kv.Cmp a b <= 0 -> kv.Cmp b c <= 0 -> kv.HasPrefix b keyPrefix = true.
Proof.
  unfold kv.HasPrefix, kv.Cmp. intros Ha Hc Hab Hbc.
  apply (bytes_has_prefix_between _ (kv.bytes a) _ (kv.bytes c)); try done.
  - by destruct (kv.bytes_compare (kv.bytes a) (kv.bytes b)).
  - by destruct (kv.bytes_compare (kv.bytes b) (kv.bytes c)).
Qed.

(** In a sorted list the last element that passes a filter is above all
    others that pass it. *)
Lemma last_filter_sorted {A : Type} (R : A -> A -> Prop) (p : A -> bool) l m :
  StronglySorted R l ->
  last (List.filter p l) = Some m ->
  m ∈ l /\ p m = true /\ forall x, x ∈ l -> p x = true -> x = m \/ R x m.
Proof.
  intros Hs. induction Hs as [|x l Hs IH Hall]; simpl; [done|].
  destruct (p x) eqn:Hpx.
  - destruct (List.filter p l) as [|y l'] eqn:Hf.
    + intros [= <-]. split; [by left|]. split; [done|].
      intros z Hz Hpz. apply elem_of_cons in Hz as [->|Hz]; [by left|].
      exfalso. assert (In z (List.filter p l)) as Hin
        by (apply filter_In; split; [by apply list_elem_of_In|done]).
      by rewrite Hf in Hin.
    + intros Hl. change (last (x :: y :: l')) with (last (y :: l')) in Hl.
      destruct (IH Hl) as (Hm & Hpm & Hmax).
      split; [by right|]. split; [done|].
      intros z Hz Hpz. apply elem_of_cons in Hz as [->|Hz]; [|by apply Hmax].
      right. rewrite Forall_forall in Hall. by apply Hall.
  - intros Hl. destruct (IH Hl) as (Hm & Hpm & Hmax).
    split; [by right|]. split; [done|].
    intros z Hz Hpz. apply elem_of_cons in Hz as [->|Hz]; [congruence|].
    by apply Hmax.
Qed.

Lemma last_filter_None {A : Type} (p : A -> bool) l x :
  last (List.filter p l) = None -> x ∈ l -> p x = false.
Proof.
  intros Hl Hx. apply last_None in Hl.
  destruct (p x) eqn:Hpx; [|done]. exfalso.
  assert (In x (List.filter p l)) as Hin
    by (apply filter_In; split; [by apply list_elem_of_In|done]).
  by rewrite Hl in Hin.
Qed.

(** Two entries of a sorted snapshot whose keys compare equal are the same
    entry. *)
Lemma sorted_entries_unique l e1 e2 :
  StronglySorted entry_lt l -> e1 ∈ l -> e2 ∈ l ->
  kv.Cmp (fst e1) (fst e2) = 0 -> e1 = e2.
Proof.
  intros Hs. induction Hs as [|x l Hs IH Hall]; intros H1 H2 Hc.
  - by apply elem_of_nil in H1.
  - rewrite Forall_forall in Hall.
    apply elem_of_cons in H1 as [->|H1]; apply elem_of_cons in H2 as [->|H2].
    + done.
    + apply Hall in H2. unfold entry_lt in H2. lia.
    + apply Hall in H1. unfold entry_lt in H1.
      rewrite kv_facts.Cmp_antisym in Hc. lia.
    + by apply IH.
Qed.

(** A reverse iterator stands on the last entry below its key. *)
Lemma iteratorOf_rev nextErr l :
  iteratorOf nextErr (rev l) =
    match last l with
    | None => ItEnd
    | Some (key, value) =>
        ItAt key value (nextErr key)
          (iteratorOf nextErr (rev (take (length l - 1) l)))
    end.
Proof.
  destruct (last l) as [[key value]|] eqn:Hl.
  - apply last_Some in Hl as [l' ->].
    rewrite rev_unit. simpl. do 2 f_equal.
    rewrite length_app. simpl.
    replace (length l' + 1 - 1)%nat with (length l') by lia.
    by rewrite take_app_length.
  - apply last_None in Hl. by subst.
Qed.

(** What [getRangeEndKey] computes, in terms of the entries at most
    [endKey]. *)
Lemma getRangeEndKey_unfold store priority keyPrefix startKey endKey :
  Snapshot.iterReverseErr (Storage.snapshot store MaxVersion) = None ->
  getRangeEndKey store priority keyPrefix startKey endKey =
    match last (List.filter (fun e => kv.Cmp (fst e) endKey <=? 0)
                  (Snapshot.entries (Storage.snapshot store MaxVersion))) with
    | None => (startKey, None)
    | Some (key, _) =>
        if negb (kv.HasPrefix key keyPrefix) then (startKey, None)
        else if kv.Cmp key startKey <? 0 then (startKey, None)
        else (key, None)
    end.
Proof.
  intros Herr. unfold getRangeEndKey, IterReverse. rewrite Herr.
  rewrite iteratorOf_rev.
  assert (forall l,
    List.filter (fun e : kv.Key * list byte =>
                   kv.isNil (kv.Next endKey) || (kv.Cmp (fst e) (kv.Next endKey) <? 0)) l =
    List.filter (fun e => kv.Cmp (fst e) endKey <=? 0) l) as ->.
  { intros l. apply filter_ext. intros e. simpl.
    pose proof (kv_facts.Cmp_Next_lt endKey (fst e)).
    destruct (kv.Cmp (fst e) (kv.Next endKey) <? 0) eqn:H1;
      destruct (kv.Cmp (fst e) endKey <=? 0) eqn:H2; try done; lia. }
  by destruct (last _) as [[key value]|].
Qed.

Lemma elem_of_snapshot_keys snap k :
  k ∈ snapshot_keys snap <-> exists v, (k, v) ∈ Snapshot.entries snap.
Proof.
  unfold snapshot_keys. rewrite list_elem_of_fmap. split.
  - intros ([k' v] & -> & Hin). by exists v.
  - intros [v Hin]. by exists (k, v).
Qed.

(** The entry a reverse iterator from [endKey.Next()] stands on holds the
    largest key that is at most [endKey]. *)
Lemma last_at_most_is_largest snap endKey key value :
  snapshot_sorted snap ->
  last (List.filter (fun e => kv.Cmp (fst e) endKey <=? 0) (Snapshot.entries snap))
    = Some (key, value) ->
  largest_at_most snap endKey key.
Proof.
  intros Hs Hl.
  destruct (last_filter_sorted _ _ _ _ Hs Hl) as (Hin & Hp & Hmax). simpl in Hp.
  split; [apply elem_of_snapshot_keys; by exists value|]. split; [lia|].
  intros k Hk Hle. apply elem_of_snapshot_keys in Hk as [v Hk].
  destruct (Hmax (k, v) Hk) as [Heq|Hlt]; [simpl; lia| |].
  - inversion Heq. subst. rewrite kv_facts.Cmp_refl. lia.
  - unfold entry_lt in Hlt. simpl in Hlt. lia.
Qed.

Lemma largest_at_most_is_last snap endKey m :
  snapshot_sorted snap -> largest_at_most snap endKey m ->
  exists value,
    last (List.filter (fun e => kv.Cmp (fst e) endKey <=? 0) (Snapshot.entries snap))
      = Some (m, value).
Proof.
  intros Hs (Hin & Hle & Hmax). apply elem_of_snapshot_keys in Hin as [v Hin].
  destruct (last _) as [[key value]|] eqn:Hl.
  - destruct (last_filter_sorted _ _ _ _ Hs Hl) as (Hkin & Hp & Hlast).
    simpl in Hp.
    assert (kv.Cmp key m <= 0) as Hkm.
    { apply Hmax; [|lia]. apply elem_of_snapshot_keys. by exists value. }
    assert (kv.Cmp m key <= 0) as Hmk.
    { destruct (Hlast (m, v) Hin) as [Heq|Hlt]; [simpl; lia| |].
      - inversion Heq. subst. rewrite kv_facts.Cmp_refl. lia.
      - unfold entry_lt in Hlt. simpl in Hlt. lia. }
    assert ((m, v) = (key, value)) as Heq.
    { apply (sorted_entries_unique _ _ _ Hs Hin Hkin). simpl.
      rewrite kv_facts.Cmp_antisym in Hkm. lia. }
    inversion Heq. subst. by exists value.
  - apply (last_filter_None _ _ (m, v)) in Hl; [|done]. simpl in Hl. lia.
Qed.

(** C8, as the code has it.  On a snapshot whose reverse iterator opens,
    [getRangeEndKey] returns the largest existing key that is at most
    [endKey], provided that this key has [keyPrefix] as a prefix and is at
    least [startKey]; when [endKey] itself has the prefix this is the
    largest existing key with the prefix that is at most [endKey].  In all
    other cases, that is if no key is at most [endKey] or the largest one
    lacks the prefix or is below [startKey], it returns [startKey]. *)
Theorem getRangeEndKey_spec (store : Storage.t) (priority : Z)
    (keyPrefix startKey endKey : kv.Key) :
  let snap := Storage.snapshot store MaxVersion in
  Snapshot.iterReverseErr snap = None ->
  snapshot_sorted snap ->
  (forall m, largest_at_most snap endKey m ->
             kv.HasPrefix m keyPrefix = true -> kv.Cmp m startKey >= 0 ->
             getRangeEndKey store priority keyPrefix startKey endKey = (m, None)) /\
  (forall m, kv.HasPrefix endKey keyPrefix = true ->
             largest_with_prefix_at_most snap keyPrefix endKey m ->
             kv.Cmp m startKey >= 0 ->
             getRangeEndKey store priority keyPrefix startKey endKey = (m, None)) /\
  (forall m, largest_at_most snap endKey m ->
             kv.HasPrefix m keyPrefix = false \/ kv.Cmp m startKey < 0 ->
             getRangeEndKey store priority keyPrefix startKey endKey = (startKey, None)) /\
  ((forall k, k ∈ snapshot_keys snap -> kv.Cmp k endKey > 0) ->
   getRangeEndKey store priority keyPrefix startKey endKey = (startKey, None)).
Proof.
  intros snap Herr Hs.
  assert (forall m, largest_at_most snap endKey m ->
            kv.HasPrefix m keyPrefix = true -> kv.Cmp m startKey >= 0 ->
            getRangeEndKey store priority keyPrefix startKey endKey = (m, None)) as Hfound.
  { intros m Hm Hp Hge. rewrite getRangeEndKey_unfold by done. fold snap.
    destruct (largest_at_most_is_last _ _ _ Hs Hm) as [value ->].
    rewrite Hp. simpl. by replace (kv.Cmp m startKey <? 0) with false by lia. }
  split; [exact Hfound|]. split; [|split].
  - intros m Hend (Hin & Hp & Hle & Hmax) Hge.
    apply Hfound; [|done|done].
    pose proof Hin as Hin'. apply elem_of_snapshot_keys in Hin' as [v Hin'].
    destruct (last (List.filter (fun e => kv.Cmp (fst e) endKey <=? 0)
                      (Snapshot.entries snap))) as [[key value]|] eqn:Hl.
    + pose proof (last_at_most_is_largest _ _ _ _ Hs Hl) as (Hkin & Hkle & Hkmax).
      assert (kv.Cmp m key <= 0) as Hmk by (by apply Hkmax).
      assert (kv.HasPrefix key keyPrefix = true) as Hkp
        by (by apply (HasPrefix_between keyPrefix m key endKey)).
      assert (kv.Cmp key m <= 0) as Hkm by (by apply Hmax).
      destruct (last_filter_sorted _ _ _ _ Hs Hl) as (Hkin' & _ & _).
      assert ((m, v) = (key, value)) as Heq.
      { apply (sorted_entries_unique _ _ _ Hs Hin' Hkin'). simpl.
        rewrite kv_facts.Cmp_antisym in Hkm. lia. }
      inversion Heq. subst. by split.
    + apply (last_filter_None _ _ (m, v)) in Hl; [|done]. simpl in Hl. lia.
  - intros m Hm Hor. rewrite getRangeEndKey_unfold by done. fold snap.
    destruct (largest_at_most_is_last _ _ _ Hs Hm) as [value ->].
    destruct Hor as [Hp|Hlt].
    + by rewrite Hp.
    + destruct (negb (kv.HasPrefix m keyPrefix)); [done|].
      by replace (kv.Cmp m startKey <? 0) with true by lia.
  - intros Hnone. rewrite getRangeEndKey_unfold by done. fold snap.
    destruct (last _) as [[key value]|] eqn:Hl; [|done]. exfalso.
    pose proof (last_at_most_is_largest _ _ _ _ Hs Hl) as (Hkin & Hkle & _).
    apply Hnone in Hkin. lia.
Qed.

(** C8 as stated fails on two counts.  With the keys [t1] and [t5] and the
    range [[t2, t4]] no key of the range exists, and the value returned is
    the start key [t2], not the end key [t4].  With the keys [t1] and [u0],
    the prefix [t] and the range [[t0, u5]], the largest existing key with
    the prefix that is at most [u5] is [t1], which is not below the start
    key, and yet the start key [t0] is returned. *)
Lemma getRangeEndKey_counterexample :
  getRangeEndKey (sampleStore [keyOf "t1"; keyOf "t5"]) 0
    (keyOf "t") (keyOf "t2") (keyOf "t4") = (keyOf "t2", None) /\
  keyOf "t2" <> keyOf "t4" /\
  largest_with_prefix_at_most
    (Storage.snapshot (sampleStore [keyOf "t1"; keyOf "u0"]) MaxVersion)
    (keyOf "t") (keyOf "u5") (keyOf "t1") /\
  kv.Cmp (keyOf "t1") (keyOf "t0") >= 0 /\
  getRangeEndKey (sampleStore [keyOf "t1"; keyOf "u0"]) 0
    (keyOf "t") (keyOf "t0") (keyOf "u5") = (keyOf "t0", None) /\
  keyOf "t0" <> keyOf "t1".
Proof.
  split; [by vm_compute|]. split; [done|]. split; [|by vm_compute].
  split; [|split; [by vm_compute|]; split; [by vm_compute|]].
  - apply elem_of_snapshot_keys. exists []. by left.
  - intros k Hk Hp _. apply elem_of_snapshot_keys in Hk as [v Hk]. simpl in Hk.
    apply elem_of_cons in Hk as [Hk|Hk]; [by inversion Hk|].
    apply list_elem_of_singleton in Hk. inversion Hk. subst. by vm_compute in Hp.
Qed.

(** ** Building the tasks of a batch *)

(** The loop only appends to the tasks built so far. *)
Lemma getBatchTasks_loop_app {codec : Codec} t info prefix total batch kvRanges :
  forall i batchTasks,
    exists new,
      getBatchTasks_loop t info prefix total batch kvRanges i batchTasks
        = batchTasks ++ new.
Proof.
  induction kvRanges as [|keyRange kvRanges IH]; intros i batchTasks; simpl.
  - exists []. by rewrite app_nil_r.
  - destruct (getRangeEndKey _ _ _ _ _) as [endK err].
    destruct (_ >=? batch).
    + by eexists.
    + edestruct IH as [new ->]. rewrite <- app_assoc. by eexists.
Qed.

Lemma getBatchTasks_loop_spec {codec : Codec} t info prefix total batch kvRanges :
  forall i batchTasks (j : nat) task,
    getBatchTasks_loop t info prefix total batch kvRanges i batchTasks
      !! (length batchTasks + j)%nat = Some task ->
    exists keyRange,
      kvRanges !! j = Some keyRange /\
      reorgBackfillTask.id task = i + Z.of_nat j /\
      reorgBackfillTask.endInclude task =
        negb (kv.Cmp
                (fst (getRangeEndKey (reorgInfo.store info)
                        (Job.Priority (reorgInfo.Job info)) prefix
                        (kv.StartKey keyRange) (kv.EndKey keyRange)))
                (kv.EndKey keyRange) =? 0)
        || (i + Z.of_nat j =? total - 1).
Proof.
  induction kvRanges as [|keyRange kvRanges IH]; intros i batchTasks j task; simpl.
  - intros Hl. apply lookup_lt_Some in Hl. lia.
  - destruct (getRangeEndKey _ _ _ _ _) as [endK err] eqn:Hend.
    set (task0 := reorgBackfillTask.mk _ _ _ _ _ _ _ _ _).
    assert (j = 0%nat ->
            (batchTasks ++ [task0]) !! (length batchTasks + j)%nat = Some task ->
            exists keyRange0,
              (keyRange :: kvRanges) !! j = Some keyRange0 /\
              reorgBackfillTask.id task = i + Z.of_nat j /\
              reorgBackfillTask.endInclude task =
                negb (kv.Cmp
                        (fst (getRangeEndKey (reorgInfo.store info)
                                (Job.Priority (reorgInfo.Job info)) prefix
                                (kv.StartKey keyRange0) (kv.EndKey keyRange0)))
                        (kv.EndKey keyRange0) =? 0)
                || (i + Z.of_nat j =? total - 1)) as Hhere.
    { intros -> Hl. rewrite Nat.add_0_r, list_lookup_middle in Hl by done.
      inversion Hl. subst task. exists keyRange. split; [done|].
      rewrite Hend. simpl. split; [lia|]. by rewrite Z.add_0_r. }
    destruct (_ >=? batch).
    + intros Hl. destruct j as [|j]; [by apply Hhere|].
      apply lookup_lt_Some in Hl. rewrite length_app in Hl. simpl in Hl. lia.
    + intros Hl. destruct j as [|j].
      * apply Hhere; [done|].
        destruct (getBatchTasks_loop_app t info prefix total batch kvRanges
                    (i + 1) (batchTasks ++ [task0])) as [new Hnew].
        rewrite Hnew in Hl. rewrite lookup_app_l in Hl; [done|].
        rewrite length_app. simpl. lia.
      * replace (length batchTasks + S j)%nat
          with (length (batchTasks ++ [task0]) + j)%nat in Hl
          by (rewrite length_app; simpl; lia).
        destruct (IH _ _ _ _ Hl) as (keyRange0 & Hk & Hid & Hinc).
        exists keyRange0. split; [done|]. split; [lia|].
        rewrite Hinc. do 2 f_equal. lia.
Qed.

(** C4, as the code has it.  The task that [getBatchTasks] builds for the
    range at index [i] has [endInclude = true] exactly when the tightened
    end that [getRangeEndKey] returns for it differs from the declared
    [EndKey] of the range, or the range is the final one; so
    [endInclude = false] exactly when the tightened end equals the declared
    end and the range is not the final one. *)
Theorem getBatchTasks_endInclude {codec : Codec} (t : table.t) (info : reorgInfo.t)
    (kvRanges : list kv.KeyRange) (batch : Z) (i : nat)
    (batchTasks : list reorgBackfillTask.t) (task : reorgBackfillTask.t) :
  getBatchTasks t info kvRanges batch = Returns batchTasks ->
  batchTasks !! i = Some task ->
  exists keyRange,
    kvRanges !! i = Some keyRange /\
    reorgBackfillTask.id task = Z.of_nat i /\
    let prefix :=
      if reorgInfo.mergingTmpIdx info then table.IndexPrefix t
      else table.RecordPrefix t in
    let endK :=
      fst (getRangeEndKey (reorgInfo.store info) (Job.Priority (reorgInfo.Job info))
             prefix (kv.StartKey keyRange) (kv.EndKey keyRange)) in
    (reorgBackfillTask.endInclude task = true <->
       kv.Cmp endK (kv.EndKey keyRange) <> 0 \/
       Z.of_nat i = Z.of_nat (length kvRanges) - 1) /\
    (reorgBackfillTask.endInclude task = false <->
       kv.Cmp endK (kv.EndKey keyRange) = 0 /\
       Z.of_nat i <> Z.of_nat (length kvRanges) - 1).
Proof.
  unfold getBatchTasks. destruct (makeslice_panics batch); [done|]. intros [= <-] Hl.
  destruct (getBatchTasks_loop_spec _ _ _ _ _ _ 0 [] i task Hl)
    as (keyRange & Hk & Hid & Hinc).
  exists keyRange. split; [done|]. split; [lia|]. cbn zeta.
  rewrite Hinc, Z.add_0_l.
  destruct (kv.Cmp _ (kv.EndKey keyRange) =? 0) eqn:Hc;
    destruct (Z.of_nat i =? Z.of_nat (length kvRanges) - 1) eqn:Hi; simpl;
    split; split; intros; try done; try lia.
Qed.

(** C4 as stated fails.  The keys [t1] and [t5] exist.  For the range
    [[t0, t3)] the tightened end is [t1], which differs from the declared
    end, and the task has [endInclude = true]; for the range [[t3, t5)],
    which is not the final one, the tightened end is the declared end [t5],
    and the task has [endInclude = false]. *)
Lemma getBatchTasks_endInclude_counterexample :
  let store := sampleStore [keyOf "t1"; keyOf "t5"] in
  fst (getRangeEndKey store 0 (keyOf "t") (keyOf "t0") (keyOf "t3")) = keyOf "t1" /\
  kv.Cmp (keyOf "t1") (keyOf "t3") <> 0 /\
  fst (getRangeEndKey store 0 (keyOf "t") (keyOf "t3") (keyOf "t5")) = keyOf "t5" /\
  exists batchTasks,
    getBatchTasks (codec := sampleCodec) sampleTable (sampleReorgInfo store)
      [ kv.mkKeyRange (keyOf "t0") (keyOf "t3");
        kv.mkKeyRange (keyOf "t3") (keyOf "t5");
        kv.mkKeyRange (keyOf "t5") (keyOf "t9") ] 1024 = Returns batchTasks /\
    reorgBackfillTask.endInclude <$> batchTasks = [true; false; true].
Proof.
  cbn zeta. split; [by vm_compute|]. split; [by vm_compute|].
  split; [by vm_compute|]. eexists. split; [vm_compute; reflexivity|done].
Qed.

(** ** Iterating a snapshot *)

Lemma bytes_has_prefix_refl a : kv.bytes_has_prefix a a = true.
Proof.
  induction a as [|x a IH]; simpl; [done|].
  by rewrite Byte.byte_dec_lb.
Qed.

Lemma RowKeyPrefixFilter_self key : RowKeyPrefixFilter key key = false.
Proof.
  unfold RowKeyPrefixFilter, kv.HasPrefix. by rewrite bytes_has_prefix_refl.
Qed.

Lemma NextUntil_length it fn :
  (iterator_length (fst (NextUntil it fn)) <= iterator_length it)%nat.
Proof.
  induction it as [|key value err rest IH]; simpl; [done|].
  destruct (fn key); simpl; [done|].
  destruct err; simpl; [done|]. lia.
Qed.

Lemma NextUntil_keys it fn k :
  k ∈ iterator_keys (fst (NextUntil it fn)) -> k ∈ iterator_keys it.
Proof.
  induction it as [|key value err rest IH]; simpl; [done|].
  destruct (fn key); simpl; [done|].
  destruct err; simpl; [done|]. intros Hk. right. by apply IH.
Qed.

(** Leaving an entry takes at least one step, unless [Next] fails. *)
Lemma NextUntil_advances key value err rest it' :
  NextUntil (ItAt key value err rest) (RowKeyPrefixFilter key) = (it', None) ->
  (iterator_length it' <= iterator_length rest)%nat /\
  (forall k, k ∈ iterator_keys it' -> k ∈ iterator_keys rest).
Proof.
  simpl. rewrite RowKeyPrefixFilter_self. destruct err; [done|].
  intros Hn. split.
  - pose proof (NextUntil_length rest (RowKeyPrefixFilter key)) as Hlen.
    by rewrite Hn in Hlen.
  - intros k Hk. apply (NextUntil_keys rest (RowKeyPrefixFilter key)).
    by rewrite Hn.
Qed.

(** The loop of [iterateSnapshotKeys] ends within as many rounds as the
    iterator has entries. *)
Lemma iterateSnapshotKeys_loop_total {A : Type} {codec : Codec} isRecord keyPrefix
    (fn : recordIterFunc A) fuel :
  forall it a,
    (iterator_length it <= fuel)%nat ->
    exists res, iterateSnapshotKeys_loop fuel isRecord keyPrefix fn it a = Some res.
Proof.
  induction fuel as [|fuel IH]; intros it a Hlen.
  - destruct it; [by eexists|simpl in Hlen; lia].
  - destruct it as [|key value err rest]; [by eexists|].
    cbn [iterateSnapshotKeys_loop].
    destruct (negb (kv.HasPrefix key keyPrefix)); [by eexists|].
    destruct (if isRecord then _ else _) as [handle derr].
    destruct derr; [by eexists|].
    destruct (fn a handle key value) as [a' [more ferr]].
    destruct (negb more || _); [by eexists|].
    destruct (NextUntil _ _) as [it' nerr] eqn:Hn.
    destruct nerr as [e|]; [destruct (isErrNotExist e); by eexists|].
    apply NextUntil_advances in Hn as [Hle _].
    apply IH. simpl in Hlen. lia.
Qed.

(** One round of the loop, whatever the fuel. *)
Lemma iterateSnapshotKeys_loop_ItAt {A : Type} {codec : Codec} fuel isRecord
    keyPrefix (fn : recordIterFunc A) key value nerr rest a :
  iterateSnapshotKeys_loop fuel isRecord keyPrefix fn (ItAt key value nerr rest) a =
    if negb (kv.HasPrefix key keyPrefix) then Some (a, None)
    else
      let '(handle, err) :=
        if isRecord then
          let '(h, err) := DecodeRowKey key in (Some h, err)
        else (None, None) in
      match err with
      | Some e => Some (a, Trace (Some e))
      | None =>
          let '(a, (more, err)) := fn a handle key value in
          if negb more || (match err with Some _ => true | None => false end)
          then Some (a, Trace err)
          else
            let '(it, err) :=
              NextUntil (ItAt key value nerr rest) (RowKeyPrefixFilter key) in
            match err with
            | Some e =>
                if isErrNotExist e then Some (a, None)
                else Some (a, Trace (Some e))
            | None =>
                match fuel with
                | O => None
                | S fuel' =>
                    iterateSnapshotKeys_loop fuel' isRecord keyPrefix fn it a
                end
            end
      end.
Proof. by destruct fuel. Qed.

Lemma visits_nothing (P : kv.Key -> Prop) (keys : list kv.Key) :
  exists new, keys = keys ++ new /\ forall k, k ∈ new -> P k.
Proof.
  exists []. rewrite app_nil_r. split; [done|].
  intros k Hk. by apply elem_of_nil in Hk.
Qed.

Lemma visits_one (P : kv.Key -> Prop) (keys : list kv.Key) key :
  P key ->
  exists new, keys ++ [key] = keys ++ new /\ forall k, k ∈ new -> P k.
Proof.
  intros HP. exists [key]. split; [done|].
  intros k Hk. apply list_elem_of_singleton in Hk. by subst.
Qed.

(** The callback is only given keys that the iterator holds and that have
    the prefix. *)
Lemma iterateSnapshotKeys_loop_visits {A : Type} {codec : Codec} isRecord keyPrefix
    (fn : recordIterFunc A) fuel :
  forall it a keys a' keys' err,
    iterateSnapshotKeys_loop fuel isRecord keyPrefix (logged fn) it (a, keys)
      = Some ((a', keys'), err) ->
    exists new,
      keys' = keys ++ new /\
      forall k, k ∈ new -> k ∈ iterator_keys it /\ kv.HasPrefix k keyPrefix = true.
Proof.
  induction fuel as [fuel IH] using lt_wf_ind.
  intros it a keys a' keys' err.
  destruct it as [|key value nerr rest].
  { destruct fuel; intros [= <- <- <-];
      apply (visits_nothing (fun k => k ∈ [] /\ kv.HasPrefix k keyPrefix = true)). }
  set (P := fun k => k ∈ iterator_keys (ItAt key value nerr rest) /\
                     kv.HasPrefix k keyPrefix = true).
  rewrite iterateSnapshotKeys_loop_ItAt.
  destruct (kv.HasPrefix key keyPrefix) eqn:Hp; simpl negb; cbv iota;
    [|intros [= <- <- <-]; apply (visits_nothing P)].
  assert (P key) as Hkey by (split; [by left|done]).
  destruct (if isRecord then _ else _) as [handle [e|]];
    [intros [= <- <- <-]; apply (visits_nothing P)|].
  unfold logged at 1. cbn [fst snd].
  destruct (fn a handle key value) as [a1 [more ferr]].
  destruct (negb more || _);
    [intros [= <- <- <-]; by apply (visits_one P)|].
  destruct (NextUntil _ _) as [it' [e|]] eqn:Hn;
    [destruct (isErrNotExist e); intros [= <- <- <-]; by apply (visits_one P)|].
  destruct fuel as [|fuel]; [done|].
  intros Hrun. apply NextUntil_advances in Hn as [_ Hsub].
  destruct (IH fuel ltac:(lia) _ _ _ _ _ _ Hrun) as (new & -> & Hnew).
  exists (key :: new). split; [by rewrite <- app_assoc|].
  intros k Hk. apply elem_of_cons in Hk as [->|Hk]; [done|].
  destruct (Hnew k Hk) as [Hin Hpk]. split; [|done]. right. by apply Hsub.
Qed.

Lemma iterator_keys_iteratorOf nextErr entries :
  iterator_keys (iteratorOf nextErr entries) = fst <$> entries.
Proof.
  induction entries as [|[key value] entries IH]; simpl; [done|]. by rewrite IH.
Qed.

Lemma iterator_length_iteratorOf nextErr entries :
  iterator_length (iteratorOf nextErr entries) = length entries.
Proof.
  induction entries as [|[key value] entries IH]; simpl; [done|]. by rewrite IH.
Qed.

Lemma bytes_has_prefix_trans c : forall a b,
  kv.bytes_has_prefix a b = true -> kv.bytes_has_prefix b c = true ->
  kv.bytes_has_prefix a c = true.
Proof.
  induction c as [|z c IH]; intros a b Hab Hbc; [by destruct a|].
  destruct b as [|y b]; [done|]. destruct a as [|x a]; [done|]. simpl in *.
  apply andb_true_iff in Hab as [Hxy Hab]. apply andb_true_iff in Hbc as [Hyz Hbc].
  apply Byte.byte_dec_bl in Hxy, Hyz. subst x y.
  rewrite Byte.byte_dec_lb by done. simpl. by apply (IH a b).
Qed.

Lemma HasPrefix_trans k row keyPrefix :
  kv.HasPrefix k row = true -> kv.HasPrefix row keyPrefix = true ->
  kv.HasPrefix k keyPrefix = true.
Proof. unfold kv.HasPrefix. apply bytes_has_prefix_trans. Qed.

Lemma NextUntil_sublist it cond :
  iterator_keys (fst (NextUntil it cond)) `sublist_of` iterator_keys it.
Proof.
  induction it as [|key value err rest IH]; simpl; [done|].
  destruct (cond key); simpl; [done|].
  destruct err; simpl; [done|]. by apply sublist_cons.
Qed.

(** The calls go forward through the iterator, and the first of them is for
    the key the iterator is positioned on, if that key has the prefix and
    decodes. *)
Lemma iterateSnapshotKeys_loop_forward {A : Type} {codec : Codec} isRecord keyPrefix
    (fn : recordIterFunc A) fuel :
  forall it a keys a' keys' err,
    iterateSnapshotKeys_loop fuel isRecord keyPrefix (logged fn) it (a, keys)
      = Some ((a', keys'), err) ->
    exists new,
      keys' = keys ++ new /\
      new `sublist_of` iterator_keys it /\
      forall key value nerr rest,
        it = ItAt key value nerr rest ->
        kv.HasPrefix key keyPrefix = true ->
        (isRecord = true -> snd (DecodeRowKey key) = None) ->
        exists new', new = key :: new'.
Proof.
  induction fuel as [fuel IH] using lt_wf_ind.
  intros it a keys a' keys' err.
  destruct it as [|key value nerr rest].
  { destruct fuel; intros [= <- <- <-]; exists []; rewrite app_nil_r;
      (split; [done|]); (split; [done|]); by intros. }
  rewrite iterateSnapshotKeys_loop_ItAt.
  destruct (kv.HasPrefix key keyPrefix) eqn:Hp; simpl negb; cbv iota.
  2:{ intros [= <- <- <-]. exists []. rewrite app_nil_r. split; [done|].
      split; [apply sublist_nil_l|]. intros ? ? ? ? [= <- <- <- <-]. congruence. }
  destruct (if isRecord then _ else _) as [handle [e|]] eqn:Hdec.
  { intros [= <- <- <-]. exists []. rewrite app_nil_r. split; [done|].
    split; [apply sublist_nil_l|]. intros ? ? ? ? [= <- <- <- <-] _ Hok.
    destruct isRecord; [|done]. specialize (Hok eq_refl).
    destruct (DecodeRowKey key) as [h derr]. simpl in Hok. congruence. }
  unfold logged at 1. cbn [fst snd].
  destruct (fn a handle key value) as [a1 [more ferr]].
  assert (exists new,
    keys ++ [key] = keys ++ new /\
    new `sublist_of` iterator_keys (ItAt key value nerr rest) /\
    forall key0 value0 nerr0 rest0,
      ItAt key value nerr rest = ItAt key0 value0 nerr0 rest0 ->
      kv.HasPrefix key0 keyPrefix = true ->
      (isRecord = true -> snd (DecodeRowKey key0) = None) ->
      exists new', new = key0 :: new') as Hone.
  { exists [key]. split; [done|]. split.
    - simpl. apply sublist_skip, sublist_nil_l.
    - intros ? ? ? ? [= <- <- <- <-] _ _. by exists []. }
  destruct (negb more || _); [intros [= <- <- <-]; apply Hone|].
  destruct (NextUntil _ _) as [it' [e|]] eqn:Hn;
    [destruct (isErrNotExist e); intros [= <- <- <-]; apply Hone|].
  destruct fuel as [|fuel]; [done|].
  intros Hrun.
  destruct (IH fuel ltac:(lia) _ _ _ _ _ _ Hrun) as (new & -> & Hsub & _).
  exists (key :: new). split; [by rewrite <- app_assoc|]. split.
  - simpl. apply sublist_skip. etrans; [exact Hsub|].
    simpl in Hn. rewrite RowKeyPrefixFilter_self in Hn. destruct nerr; [done|].
    pose proof (NextUntil_sublist rest (RowKeyPrefixFilter key)) as Hs.
    by rewrite Hn in Hs.
  - intros ? ? ? ? [= <- <- <- <-] _ _. by exists new.
Qed.

Section rows.
Context {A : Type} {codec : Codec}.
Variable nextErr : kv.Key -> option error.
Variable isRecord : bool.
Hypothesis decode_ok : isRecord = true -> forall key, snd (DecodeRowKey key) = None.
Variable fn : recordIterFunc A.
Hypothesis fn_more : forall a handle key value, snd (fn a handle key value) = (true, None).
Variable keyPrefix : kv.Key.

(** [NextUntil] passes the entries that do not satisfy the condition as
    long as [Next] does not fail. *)
Lemma NextUntil_skips cond seg tail :
  Forall (fun e => nextErr (fst e) = None) seg ->
  exists skipped rest,
    seg = skipped ++ rest /\
    Forall (fun e => cond (fst e) = false) skipped /\
    NextUntil (iteratorOf nextErr (seg ++ tail)) cond =
      NextUntil (iteratorOf nextErr (rest ++ tail)) cond /\
    match rest with
    | [] => True
    | e :: _ => cond (fst e) = true
    end.
Proof using Type.
  induction seg as [|[key value] seg IH]; intros Hall.
  - by exists [], [].
  - apply Forall_cons in Hall as [Hk Hall]. simpl in Hk.
    destruct (cond key) eqn:Hc.
    + by exists [], ((key, value) :: seg).
    + destruct (IH Hall) as (skipped & rest & -> & Hsk & Hn & Hrest).
      exists ((key, value) :: skipped), rest. split; [done|].
      split; [by constructor|]. split; [|done].
      cbn [app iteratorOf NextUntil]. by rewrite Hc, Hk.
Qed.

(** One round of the loop for a key that has the prefix. *)
Lemma iterateSnapshotKeys_loop_visit fuel key value nerr rest a keys :
  kv.HasPrefix key keyPrefix = true ->
  exists a1,
    iterateSnapshotKeys_loop fuel isRecord keyPrefix (logged fn)
      (ItAt key value nerr rest) (a, keys) =
    match NextUntil (ItAt key value nerr rest) (RowKeyPrefixFilter key) with
    | (_, Some e) =>
        if isErrNotExist e then Some ((a1, keys ++ [key]), None)
        else Some ((a1, keys ++ [key]), Trace (Some e))
    | (it, None) =>
        match fuel with
        | O => None
        | S fuel' =>
            iterateSnapshotKeys_loop fuel' isRecord keyPrefix (logged fn) it
              (a1, keys ++ [key])
        end
    end.
Proof using decode_ok fn_more.
  intros Hp. rewrite iterateSnapshotKeys_loop_ItAt, Hp. simpl negb. cbv iota.
  assert ((if isRecord
           then let '(h, err) := DecodeRowKey key in (Some h, err)
           else (None, None)) =
          (if isRecord then Some (fst (DecodeRowKey key)) else None, None)) as ->.
  { destruct isRecord; [|done]. pose proof (decode_ok eq_refl key) as Hd.
    destruct (DecodeRowKey key) as [h derr]. simpl in *. by subst. }
  unfold logged at 1. cbn [fst snd].
  pose proof (fn_more a (if isRecord then Some (fst (DecodeRowKey key)) else None)
                key value) as Hfn.
  destruct (fn a _ key value) as [a1 res]. simpl in Hfn. subst res.
  cbn [negb orb]. exists a1. by destruct (NextUntil _ _) as [it' [e|]].
Qed.

(** The rows of a stretch of entries that have the prefix and that [Next]
    leaves without an error, up to the end of the iterator or a key without
    the prefix. *)
Lemma iterateSnapshotKeys_loop_rows_end fuel :
  forall seg tail a keys,
    (length (seg ++ tail) <= fuel)%nat ->
    Forall (fun e => kv.HasPrefix (fst e) keyPrefix = true) seg ->
    Forall (fun e => nextErr (fst e) = None) seg ->
    match tail with
    | [] => True
    | e :: _ => kv.HasPrefix (fst e) keyPrefix = false
    end ->
    exists a' new,
      iterateSnapshotKeys_loop fuel isRecord keyPrefix (logged fn)
        (iteratorOf nextErr (seg ++ tail)) (a, keys) = Some ((a', keys ++ new), None) /\
      visits_rows (fst <$> seg) new.
Proof using decode_ok fn_more.
  induction fuel as [fuel IH] using lt_wf_ind.
  intros seg tail a keys Hlen Hpre Hnext Htail.
  destruct seg as [|[key value] seg].
  { exists a, []. rewrite app_nil_r. split.
    - cbn [app]. destruct tail as [|[k v] tail]; [by destruct fuel|].
      simpl in Htail. cbn [iteratorOf]. rewrite iterateSnapshotKeys_loop_ItAt.
      by rewrite Htail.
    - split; [done|]. intros k Hk. by apply elem_of_nil in Hk. }
  apply Forall_cons in Hpre as [Hp Hpre]. apply Forall_cons in Hnext as [Hk Hnext].
  simpl in Hp, Hk. cbn [app iteratorOf].
  destruct (iterateSnapshotKeys_loop_visit fuel key value (nextErr key)
              (iteratorOf nextErr (seg ++ tail)) a keys Hp) as [a1 ->].
  cbn [NextUntil]. rewrite RowKeyPrefixFilter_self, Hk.
  destruct (NextUntil_skips (RowKeyPrefixFilter key) seg tail Hnext)
    as (skipped & rest & -> & Hskipped & -> & Hrest).
  apply Forall_app in Hpre as [_ Hpre]. apply Forall_app in Hnext as [_ Hnext].
  assert (NextUntil (iteratorOf nextErr (rest ++ tail)) (RowKeyPrefixFilter key) =
            (iteratorOf nextErr (rest ++ tail), None)) as ->.
  { destruct rest as [|[k v] rest].
    - cbn [app]. destruct tail as [|[k v] tail]; [done|]. simpl in Htail.
      cbn [iteratorOf NextUntil]. unfold RowKeyPrefixFilter at 1.
      destruct (kv.HasPrefix k key) eqn:Hkk; [|done].
      by rewrite (HasPrefix_trans _ _ _ Hkk Hp) in Htail.
    - simpl in Hrest. cbn [app iteratorOf NextUntil]. by rewrite Hrest. }
  cbn [app length] in Hlen. rewrite !length_app in Hlen.
  destruct fuel as [|fuel]; [lia|].
  destruct (IH fuel ltac:(lia) rest tail a1 (keys ++ [key])) as (a' & new & -> & Hsub & Hcov);
    [rewrite length_app; lia|done|done|done|].
  exists a', (key :: new). split; [by rewrite <- app_assoc|]. split.
  - cbn [fmap list_fmap fst]. apply sublist_skip. rewrite fmap_app.
    by apply sublist_inserts_l.
  - intros k Hin. cbn [fmap list_fmap fst] in Hin. rewrite fmap_app in Hin.
    apply elem_of_cons in Hin as [->|Hin].
    { exists key. split; [by left|]. apply bytes_has_prefix_refl. }
    apply elem_of_app in Hin as [Hin|Hin].
    + exists key. split; [by left|].
      apply list_elem_of_fmap in Hin as (e & -> & He).
      rewrite Forall_forall in Hskipped. apply Hskipped in He.
      unfold RowKeyPrefixFilter in He. by apply negb_false_iff in He.
    + destruct (Hcov k Hin) as (v & Hv & Hkv). exists v. split; [by right|done].
Qed.

(** The rows of a stretch of entries that have the prefix, when [Next]
    fails on leaving the last of them. *)
Lemma iterateSnapshotKeys_loop_rows_fail fuel :
  forall seg k v tail a keys e,
    (length (seg ++ (k, v) :: tail) <= fuel)%nat ->
    Forall (fun e => kv.HasPrefix (fst e) keyPrefix = true) (seg ++ [(k, v)]) ->
    Forall (fun e => nextErr (fst e) = None) seg ->
    nextErr k = Some e ->
    exists a' new,
      iterateSnapshotKeys_loop fuel isRecord keyPrefix (logged fn)
        (iteratorOf nextErr (seg ++ (k, v) :: tail)) (a, keys) =
        Some ((a', keys ++ new), if isErrNotExist e then None else Some e) /\
      visits_rows (fst <$> seg ++ [(k, v)]) new.
Proof using decode_ok fn_more.
  induction fuel as [fuel IH] using lt_wf_ind.
  intros seg k v tail a keys e Hlen Hpre Hnext Hfail.
  destruct seg as [|[key value] seg].
  { apply Forall_cons in Hpre as [Hp _]. simpl in Hp. cbn [app iteratorOf].
    destruct (iterateSnapshotKeys_loop_visit fuel k v (nextErr k)
                (iteratorOf nextErr tail) a keys Hp) as [a1 ->].
    cbn [NextUntil]. rewrite RowKeyPrefixFilter_self, Hfail. unfold Trace.
    exists a1, [k]. split; [by destruct (isErrNotExist e)|]. split; [done|].
    intros k' Hin. apply list_elem_of_singleton in Hin as ->.
    exists k. split; [by left|]. apply bytes_has_prefix_refl. }
  cbn [app] in Hpre. apply Forall_cons in Hpre as [Hp Hpre].
  apply Forall_cons in Hnext as [Hk Hnext]. simpl in Hp, Hk. cbn [app iteratorOf].
  destruct (iterateSnapshotKeys_loop_visit fuel key value (nextErr key)
              (iteratorOf nextErr (seg ++ (k, v) :: tail)) a keys Hp) as [a1 ->].
  cbn [NextUntil]. rewrite RowKeyPrefixFilter_self, Hk.
  destruct (NextUntil_skips (RowKeyPrefixFilter key) seg ((k, v) :: tail) Hnext)
    as (skipped & rest & -> & Hskipped & -> & Hrest).
  rewrite <- app_assoc in Hpre.
  apply Forall_app in Hpre as [_ Hpre]. apply Forall_app in Hnext as [_ Hnext].
  cbn [app length] in Hlen. rewrite !length_app in Hlen. cbn [length] in Hlen.
  assert (forall k', k' ∈ key :: (fst <$> skipped) ->
            exists v', v' ∈ [key] /\ kv.HasPrefix k' v' = true) as Hrow.
  { intros k' Hin. exists key. split; [by left|].
    apply elem_of_cons in Hin as [->|Hin]; [apply bytes_has_prefix_refl|].
    apply list_elem_of_fmap in Hin as (e' & -> & He').
    rewrite Forall_forall in Hskipped. apply Hskipped in He'.
    unfold RowKeyPrefixFilter in He'. by apply negb_false_iff in He'. }
  assert (RowKeyPrefixFilter key k = false /\ rest = [] \/
          NextUntil (iteratorOf nextErr (rest ++ (k, v) :: tail))
            (RowKeyPrefixFilter key) =
            (iteratorOf nextErr (rest ++ (k, v) :: tail), None)) as [[Hkrow ->]|Hn].
  { destruct rest as [|[k' v'] rest].
    - destruct (RowKeyPrefixFilter key k) eqn:Hkrow; [right|by left].
      cbn [app iteratorOf NextUntil]. by rewrite Hkrow.
    - right. simpl in Hrest. cbn [app iteratorOf NextUntil]. by rewrite Hrest. }
  - cbn [app iteratorOf NextUntil]. rewrite Hkrow, Hfail. unfold Trace.
    exists a1, [key]. split; [by destruct (isErrNotExist e)|].
    rewrite app_nil_r. split.
    + cbn [fmap list_fmap fst]. apply sublist_skip, sublist_nil_l.
    + intros k' Hin. cbn [fmap list_fmap fst] in Hin. rewrite fmap_app in Hin.
      cbn [fmap list_fmap fst] in Hin.
      rewrite app_comm_cons in Hin. apply elem_of_app in Hin as [Hin|Hin];
        [by apply Hrow|].
      apply list_elem_of_singleton in Hin as ->. exists key. split; [by left|].
      unfold RowKeyPrefixFilter in Hkrow. by apply negb_false_iff in Hkrow.
  - rewrite Hn. destruct fuel as [|fuel]; [lia|].
    destruct (IH fuel ltac:(lia) rest k v tail a1 (keys ++ [key]) e)
      as (a' & new & -> & Hsub & Hcov);
      [rewrite length_app; cbn [length]; lia|done|done|done|].
    exists a', (key :: new). split; [by rewrite <- app_assoc|]. split.
    + cbn [fmap list_fmap fst]. apply sublist_skip.
      rewrite <- app_assoc, fmap_app. by apply sublist_inserts_l.
    + intros k' Hin. cbn [fmap list_fmap fst] in Hin.
      rewrite <- app_assoc, fmap_app, app_comm_cons in Hin.
      apply elem_of_app in Hin as [Hin|Hin].
      * destruct (Hrow k' Hin) as (v' & Hv' & Hkv). exists v'. split; [|done].
        apply list_elem_of_singleton in Hv' as ->. by left.
      * destruct (Hcov k' Hin) as (v' & Hv' & Hkv). exists v'. split; [by right|done].
Qed.

End rows.

(** C7, as the code has it.  [iterateSnapshotKeys] always returns.  It
    iterates forward from [startKey], or from [keyPrefix] when [startKey] is
    [nil], below the upper bound [endKey.PrefixNext()], or
    [keyPrefix.PrefixNext()] when [endKey] is [nil]: a [nil] start or end
    key gives what [keyPrefix] gives in its place, and the callback is only
    given keys of the snapshot within these bounds that have [keyPrefix] as
    a prefix.  The loop returns [nil] as soon as the current key does not
    have [keyPrefix] as a prefix, and also when advancing past the current
    row fails with [ErrNotExist].

    The calls are made in the order of the keys in range, and the first
    call is for the first key in range, if it has the prefix and decodes.
    With a callback that always asks for more and keys that decode, the
    calls take in every row up to the end of the range or the first key
    without the prefix, with [nil] returned and no call for a key from
    there on; and when [Next] fails on leaving a key, they take in the rows
    up to that key, and what is returned is [nil] for [ErrNotExist] and the
    error for any other. *)
Theorem iterateSnapshotKeys_spec {A : Type} {codec : Codec} (store : Storage.t)
    (priority : Z) (keyPrefix : kv.Key) (version : Z) (startKey endKey : kv.Key)
    (fn : recordIterFunc A) (a : A) :
  (exists res,
     iterateSnapshotKeys store priority keyPrefix version startKey endKey fn a
       = Some res) /\
  (kv.isNil startKey = true ->
   iterateSnapshotKeys store priority keyPrefix version startKey endKey fn a =
   iterateSnapshotKeys store priority keyPrefix version keyPrefix endKey fn a) /\
  (kv.isNil endKey = true ->
   iterateSnapshotKeys store priority keyPrefix version startKey endKey fn a =
   iterateSnapshotKeys store priority keyPrefix version startKey keyPrefix fn a) /\
  (forall a' keys err,
     iterateSnapshotKeys store priority keyPrefix version startKey endKey
       (logged fn) (a, []) = Some ((a', keys), err) ->
     forall k, k ∈ keys ->
       k ∈ snapshot_keys (Storage.snapshot store version) /\
       kv.Cmp (firstKeyOf keyPrefix startKey) k <= 0 /\
       (kv.isNil (upperBoundOf keyPrefix endKey) = false ->
        kv.Cmp k (upperBoundOf keyPrefix endKey) < 0) /\
       kv.HasPrefix k keyPrefix = true) /\
  (forall fuel isRecord key value err rest,
     kv.HasPrefix key keyPrefix = false ->
     iterateSnapshotKeys_loop fuel isRecord keyPrefix fn (ItAt key value err rest) a
       = Some (a, None)) /\
  (forall fuel isRecord key value err rest a' it',
     kv.HasPrefix key keyPrefix = true ->
     (isRecord = true -> snd (DecodeRowKey key) = None) ->
     fn a (if isRecord then Some (fst (DecodeRowKey key)) else None) key value
       = (a', (true, None)) ->
     NextUntil (ItAt key value err rest) (RowKeyPrefixFilter key)
       = (it', Some ErrNotExist) ->
     iterateSnapshotKeys_loop fuel isRecord keyPrefix fn (ItAt key value err rest) a
       = Some (a', None)) /\
  (forall a' keys err,
     iterateSnapshotKeys store priority keyPrefix version startKey endKey
       (logged fn) (a, []) = Some ((a', keys), err) ->
     keys `sublist_of`
       keysInRange (Storage.snapshot store version) keyPrefix startKey endKey /\
     forall k rest,
       keysInRange (Storage.snapshot store version) keyPrefix startKey endKey
         = k :: rest ->
       kv.HasPrefix k keyPrefix = true ->
       (IsRecordKey (kv.Next keyPrefix) = true -> snd (DecodeRowKey k) = None) ->
       exists keys', keys = k :: keys') /\
  ((IsRecordKey (kv.Next keyPrefix) = true ->
    forall key, snd (DecodeRowKey key) = None) ->
   (forall a0 handle key value, snd (fn a0 handle key value) = (true, None)) ->
   Snapshot.iterErr (Storage.snapshot store version) = None ->
   (forall seg tail,
      keysInRange (Storage.snapshot store version) keyPrefix startKey endKey
        = seg ++ tail ->
      Forall (fun k => kv.HasPrefix k keyPrefix = true) seg ->
      Forall (fun k => Snapshot.nextErr (Storage.snapshot store version) k = None) seg ->
      match tail with
      | [] => True
      | k :: _ => kv.HasPrefix k keyPrefix = false
      end ->
      exists a' keys,
        iterateSnapshotKeys store priority keyPrefix version startKey endKey
          (logged fn) (a, []) = Some ((a', keys), None) /\
        visits_rows seg keys) /\
   (forall seg k tail e,
      keysInRange (Storage.snapshot store version) keyPrefix startKey endKey
        = seg ++ k :: tail ->
      Forall (fun k0 => kv.HasPrefix k0 keyPrefix = true) (seg ++ [k]) ->
      Forall (fun k0 => Snapshot.nextErr (Storage.snapshot store version) k0 = None) seg ->
      Snapshot.nextErr (Storage.snapshot store version) k = Some e ->
      exists a' keys,
        iterateSnapshotKeys store priority keyPrefix version startKey endKey
          (logged fn) (a, []) =
          Some ((a', keys), if isErrNotExist e then None else Some e) /\
        visits_rows (seg ++ [k]) keys)).
Proof.
  split; [|split; [|split; [|split; [|split; [|split; [|split]]]]]].
  - unfold iterateSnapshotKeys. destruct (Iter _ _ _) as [it err].
    destruct err; [by eexists|]. by apply iterateSnapshotKeys_loop_total.
  - unfold iterateSnapshotKeys. intros ->. by destruct (kv.isNil keyPrefix).
  - unfold iterateSnapshotKeys. intros ->. by destruct (kv.isNil keyPrefix).
  - unfold iterateSnapshotKeys.
    fold (firstKeyOf keyPrefix startKey). fold (upperBoundOf keyPrefix endKey).
    unfold Iter. intros a' keys err.
    destruct (Snapshot.iterErr _).
    { intros [= <- <- <-] k Hk. by apply elem_of_nil in Hk. }
    intros Hrun k Hk.
    apply iterateSnapshotKeys_loop_visits in Hrun as (new & -> & Hnew).
    destruct (Hnew k Hk) as [Hin Hp].
    rewrite iterator_keys_iteratorOf in Hin.
    apply list_elem_of_fmap in Hin as ([k' v] & -> & Hin). simpl.
    apply list_elem_of_In, filter_In in Hin as [Hin Hrange]. simpl in Hrange.
    apply andb_true_iff in Hrange as [Hlo Hhi].
    split; [apply elem_of_snapshot_keys; exists v; by apply list_elem_of_In|].
    split; [lia|]. split; [|done].
    intros Hnil. rewrite Hnil in Hhi. simpl in Hhi. lia.
  - intros fuel isRecord key value err rest Hp.
    destruct fuel; simpl; by rewrite Hp.
  - intros fuel isRecord key value err rest a' it' Hp Hdec Hfn Hnext.
    rewrite iterateSnapshotKeys_loop_ItAt, Hp. simpl negb. cbv iota.
    assert ((if isRecord
             then let '(h, derr) := DecodeRowKey key in (Some h, derr)
             else (None, None)) =
            (if isRecord then Some (fst (DecodeRowKey key)) else None, None)) as ->.
    { destruct isRecord; [|done].
      destruct (DecodeRowKey key) as [h derr]. simpl in *. by rewrite (Hdec eq_refl). }
    rewrite Hfn. simpl negb. simpl orb. cbv iota. by rewrite Hnext.
- unfold iterateSnapshotKeys, keysInRange.
    fold (firstKeyOf keyPrefix startKey). fold (upperBoundOf keyPrefix endKey).
    unfold Iter. intros a' keys err.
    destruct (Snapshot.iterErr _).
    { intros [= <- <- <-]. split; [apply sublist_nil_l|done]. }
    cbn [fst]. intros Hrun.
    apply iterateSnapshotKeys_loop_forward in Hrun as (new & -> & Hsub & Hfirst).
    split; [done|]. intros k rest Hkeys Hp Hdec.
    destruct (List.filter _ _) as [|[k0 v0] entries]; [done|].
    cbn [iteratorOf iterator_keys] in Hkeys. injection Hkeys as -> _.
    by apply (Hfirst k v0 _ _ eq_refl).
  - intros Hdec Hfn Hiter. unfold iterateSnapshotKeys, keysInRange.
    fold (firstKeyOf keyPrefix startKey). fold (upperBoundOf keyPrefix endKey).
    unfold Iter. rewrite Hiter. cbn [fst].
    set (entries := List.filter _ _).
    rewrite iterator_length_iteratorOf, iterator_keys_iteratorOf.
    split.
    + intros seg tail Hkeys Hpre Hnext Htail.
      apply fmap_app_inv in Hkeys as (segE & tailE & -> & -> & Hent).
      rewrite Hent.
      apply (iterateSnapshotKeys_loop_rows_end _ _ Hdec _ Hfn keyPrefix
               (length (segE ++ tailE)) segE tailE a []); [done| | |].
      * by apply Forall_fmap in Hpre.
      * by apply Forall_fmap in Hnext.
      * by destruct tailE.
    + intros seg k tail e Hkeys Hpre Hnext Hfail.
      apply fmap_app_inv in Hkeys as (segE & tailE & -> & Htl & Hent).
      destruct tailE as [|[k0 v0] tailE]; [done|]. injection Htl as -> ->.
      rewrite Hent.
      replace ((fst <$> segE) ++ [k0]) with (fst <$> segE ++ [(k0, v0)])
        in * by (by rewrite fmap_app).
      apply (iterateSnapshotKeys_loop_rows_fail _ _ Hdec _ Hfn keyPrefix
               (length (segE ++ (k0, v0) :: tailE)) segE k0 v0 tailE a [] e);
        [done| | |done].
      * by apply Forall_fmap in Hpre.
      * by apply Forall_fmap in Hnext.
Qed.

(** C7 as stated fails for a start or end key that is empty without being
    [nil]: the code tests [startKey == nil] and [endKey == nil].  The
    snapshot holds the keys [a1], [t1], [t2] and [u1] and the prefix is
    [t].  From the empty start key the iteration begins at [a1], which
    lacks the prefix, and visits nothing, whereas from the prefix it visits
    [t1] and [t2]; with the empty end key the upper bound is the
    [PrefixNext] of the empty key, and nothing is visited either. *)
Lemma iterateSnapshotKeys_counterexample :
  let store := sampleStore [keyOf "a1"; keyOf "t1"; keyOf "t2"; keyOf "u1"] in
  kv.len (Some []) = 0 /\
  iterateSnapshotKeys (codec := sampleCodec) store 0 (keyOf "t") 7
    (Some []) None collectKeys [] = Some ([], None) /\
  iterateSnapshotKeys (codec := sampleCodec) store 0 (keyOf "t") 7
    (keyOf "t") None collectKeys [] = Some ([keyOf "t1"; keyOf "t2"], None) /\
  iterateSnapshotKeys (codec := sampleCodec) store 0 (keyOf "t") 7
    (keyOf "t") (Some []) collectKeys [] = Some ([], None).
Proof. by vm_compute. Qed.

(** ** The properties at sample inputs *)

(** C1 at the order 2, 0, 1 of three tasks: the next key is the start key
    after id 2, the key of task 0 after id 0, and the key of task 2 at the
    end. *)
Lemma doneTaskKeeper_in_order_nextKey_witness :
  let k := fun i => backfillResult.nextKey (sampleResult i) in
  let keeper := newDoneTaskKeeper (keyOf "a") in
  doneTaskKeeper.nextKey (updateNextKeys keeper (calls_of k [2; 0; 1])) = keyOf "d" /\
  doneTaskKeeper.nextKey (updateNextKeys keeper (calls_of k [2])) = keyOf "a" /\
  doneTaskKeeper.nextKey (updateNextKeys keeper (calls_of k [2; 0])) = keyOf "b".
Proof.
  cbn zeta.
  assert (0 <= 3 <= int_max) as Hn by (unfold int_max; lia).
  assert ([2; 0; 1] ≡ₚ seqZ 0 3) as Hperm.
  { change (seqZ 0 3) with [0; 1; 2].
    etrans; [apply perm_swap|]. apply perm_skip, perm_swap. }
  destruct (doneTaskKeeper_in_order_nextKey (keyOf "a")
              (fun i => backfillResult.nextKey (sampleResult i)) 3 Hn [2; 0; 1] Hperm)
    as [Hall Hpre].
  split; [apply Hall; lia|]. split.
  - apply (Hpre [2] [0; 1] eq_refl).
    intros Hin. apply list_elem_of_singleton in Hin. lia.
  - destruct (Hpre [2; 0] [1] eq_refl) as [_ Hj].
    apply (Hj 0); [lia| |].
    + intros i Hi. assert (i = 0) as -> by lia. right. by left.
    + intros Hin. apply elem_of_cons in Hin as [Hin|Hin]; [lia|].
      apply list_elem_of_singleton in Hin. lia.
Defined.

(** C2 for three tasks of which task 1 fails, with the results arriving in
    the order 2, 0, 1: the key returned and persisted is the next key [b] of
    task 0. *)
Lemma waitTaskResults_failure_truncation_witness :
  (exists w,
     waitTaskResults (pool := fixedPool)
       (sampleScheduler [sampleFailure 2; sampleFailure 0; sampleFailure 1])
       sampleTasks 0 = Returns w /\
     waitResult.nextKey w = keyOf "b" /\
     waitResult.err w = Some ErrReorgCancelled) /\
  (exists r,
     sendTasksAndWait (pool := fixedPool) (sampleEnv sampleFailure)
       (sampleScheduler []) 0 sampleTasks = Returns r /\
     sendResult.err r = Some ErrReorgCancelled /\
     reorgInfo.persisted (backfillScheduler.reorgInfo (sendResult.scheduler r))
       = [keyOf "b"]).
Proof.
  destruct (waitTaskResults_failure_truncation (pool := fixedPool)
              (sampleScheduler [sampleFailure 2; sampleFailure 0; sampleFailure 1])
              (sampleTask 0 (keyOf "a") (keyOf "b"))
              [sampleTask 1 (keyOf "b") (keyOf "c");
               sampleTask 2 (keyOf "c") (keyOf "d")]
              0 sampleFailure 1 ErrReorgCancelled) as [Hwait Hsend].
  - by vm_compute.
  - intros w. simpl. lia.
  - simpl. lia.
  - intros i Hi. simpl in Hi.
    assert (i = 0 \/ i = 1 \/ i = 2) as [->|[->| ->]] by lia; reflexivity.
  - reflexivity.
  - intros i Hi Hne. simpl in Hi.
    assert (i = 0 \/ i = 2) as [->| ->] by lia; reflexivity.
  - change ([sampleFailure 2; sampleFailure 0; sampleFailure 1]
              ≡ₚ [sampleFailure 0; sampleFailure 1; sampleFailure 2]).
    etrans; [apply perm_swap|]. apply perm_skip, perm_swap.
  - reflexivity.
  - split; [exact Hwait|].
    exact (Hsend (sampleEnv sampleFailure) (sampleScheduler []) eq_refl).
Defined.

(** C3 at the same batch: the call returns with the error of the failed
    task, and the one key it persisted is the key [waitTaskResults]
    returned. *)
Lemma sendTasksAndWait_updates_reorg_meta_witness :
  exists r w,
    sendTasksAndWait (pool := fixedPool) (sampleEnv sampleFailure)
      (sampleScheduler []) 0 sampleTasks = Returns r /\
    waitTaskResults (pool := fixedPool)
      (sendTasks (sampleEnv sampleFailure) (sampleScheduler []) sampleTasks)
      sampleTasks 0 = Returns w /\
    reorgInfo.persisted (backfillScheduler.reorgInfo (sendResult.scheduler r))
      = [] ++ [waitResult.nextKey w].
Proof.
  eexists.
  assert (forall r : sendResult.t positive,
    sendTasksAndWait (pool := fixedPool) (sampleEnv sampleFailure)
      (sampleScheduler []) 0 sampleTasks = Returns r ->
    exists w,
      sendTasksAndWait (pool := fixedPool) (sampleEnv sampleFailure)
        (sampleScheduler []) 0 sampleTasks = Returns r /\
      waitTaskResults (pool := fixedPool)
        (sendTasks (sampleEnv sampleFailure) (sampleScheduler []) sampleTasks)
        sampleTasks 0 = Returns w /\
      reorgInfo.persisted (backfillScheduler.reorgInfo (sendResult.scheduler r))
        = [] ++ [waitResult.nextKey w]) as Happly.
  { intros r Hr.
    destruct (sendTasksAndWait_updates_reorg_meta _ _ _ _ _ Hr) as (w & Hw & Hp & _).
    exists w. split; [exact Hr|]. split; [exact Hw|exact Hp]. }
  apply Happly. vm_compute. reflexivity.
Defined.

(** C10 at a task of which two batches are committed and whose third round
    finds the job cancelled: the result carries the next key of the second
    batch and the counts of both. *)
Lemma handleBackfillTask_error_result_witness :
  exists result merged,
    handleBackfillTask sampleThreeRounds (sampleTask 0 (keyOf "a") (keyOf "b"))
      = Some (result, merged) /\
    length merged = 2%nat /\
    backfillResult.err result = Some ErrReorgCancelled /\
    backfillResult.nextKey result = keyOf "a9" /\
    backfillResult.addedCount result = 5 /\
    backfillResult.scanCount result = 6 /\
    commits sampleThreeRounds (sampleTask 0 (keyOf "a") (keyOf "b")) merged /\
    fails_after sampleThreeRounds (sampleTask 0 (keyOf "a") (keyOf "b")) merged
      ErrReorgCancelled.
Proof.
  eexists. eexists. split; [vm_compute; reflexivity|]. split; [reflexivity|].
  split; [reflexivity|].
  destruct (handleBackfillTask_error_result sampleThreeRounds
              (sampleTask 0 (keyOf "a") (keyOf "b")) _ _ eq_refl)
    as (Hk & Ha & Hs & _ & _ & Hcommits & Hfails).
  - discriminate.
  - split; [exact Hk|]. split; [exact Ha|]. split; [exact Hs|].
    split; [exact Hcommits|]. exact (Hfails ErrReorgCancelled eq_refl).
Defined.

(** C6 at a store without regions, and at a store whose region cache finds
    no region in the range. *)
Lemma splitTableRanges_spec_witness :
  splitTableRanges (sampleStore []) (keyOf "a") (keyOf "d") 1024 =
    ([kv.mkKeyRange (keyOf "a") (keyOf "d")], None) /\
  splitTableRanges
    (Storage.mk (Some (fun _ _ => ([], None))) (Storage.snapshot (sampleStore [])))
    (keyOf "a") (keyOf "d") 1024 =
    ([], Some (ErrInvalidSplitRegionRanges (keyOf "a") (keyOf "d"))).
Proof.
  split.
  - exact (proj1 (splitTableRanges_spec (sampleStore []) (keyOf "a") (keyOf "d") 1024)
             eq_refl).
  - exact (proj2 (splitTableRanges_spec
                    (Storage.mk (Some (fun _ _ => ([], None)))
                       (Storage.snapshot (sampleStore [])))
                    (keyOf "a") (keyOf "d") 1024)
             (fun _ _ => ([], None)) [] eq_refl eq_refl eq_refl).
Defined.

(** C4 at three ranges over the keys [t1] and [t5]: the task of the middle
    range [[t3, t5)], whose tightened end is its declared end, has
    [endInclude = false]. *)
Lemma getBatchTasks_endInclude_witness :
  exists batchTasks task,
    getBatchTasks (codec := sampleCodec) sampleTable
      (sampleReorgInfo (sampleStore [keyOf "t1"; keyOf "t5"]))
      [ kv.mkKeyRange (keyOf "t0") (keyOf "t3");
        kv.mkKeyRange (keyOf "t3") (keyOf "t5");
        kv.mkKeyRange (keyOf "t5") (keyOf "t9") ] 1024 = Returns batchTasks /\
    batchTasks !! 1%nat = Some task /\
    reorgBackfillTask.id task = 1 /\
    reorgBackfillTask.endInclude task = false.
Proof.
  eexists. eexists. split; [vm_compute; reflexivity|]. split; [reflexivity|].
  destruct (getBatchTasks_endInclude (codec := sampleCodec) sampleTable
              (sampleReorgInfo (sampleStore [keyOf "t1"; keyOf "t5"]))
              [ kv.mkKeyRange (keyOf "t0") (keyOf "t3");
                kv.mkKeyRange (keyOf "t3") (keyOf "t5");
                kv.mkKeyRange (keyOf "t5") (keyOf "t9") ] 1024 1%nat _ _
              eq_refl eq_refl)
    as (keyRange & Hk & Hid & _ & Hfalse).
  split; [exact Hid|].
  apply Hfalse. inversion Hk. subst keyRange. by vm_compute.
Defined.

(** C8 over the keys [t1] and [t5]: for the range [[t0, t7]] the end key
    is the largest existing key [t5]; for the range [[t2, t4]], where no
    key exists, it is the start key [t2]. *)
Lemma getRangeEndKey_spec_witness :
  getRangeEndKey (sampleStore [keyOf "t1"; keyOf "t5"]) 0
    (keyOf "t") (keyOf "t0") (keyOf "t7") = (keyOf "t5", None) /\
  getRangeEndKey (sampleStore [keyOf "t1"; keyOf "t5"]) 0
    (keyOf "t") (keyOf "t2") (keyOf "t4") = (keyOf "t2", None).
Proof.
  assert (snapshot_sorted
            (Storage.snapshot (sampleStore [keyOf "t1"; keyOf "t5"]) MaxVersion))
    as Hsorted.
  { unfold snapshot_sorted. simpl. repeat constructor. }
  assert (forall (P : kv.Key -> Prop),
            P (keyOf "t1") -> P (keyOf "t5") ->
            forall k,
              k ∈ snapshot_keys
                    (Storage.snapshot (sampleStore [keyOf "t1"; keyOf "t5"]) MaxVersion) ->
              P k) as Hkeys.
  { intros P H1 H5 k Hk. simpl in Hk.
    apply elem_of_cons in Hk as [->|Hk]; [exact H1|].
    apply list_elem_of_singleton in Hk. by subst. }
  split.
  - destruct (getRangeEndKey_spec (sampleStore [keyOf "t1"; keyOf "t5"]) 0
                (keyOf "t") (keyOf "t0") (keyOf "t7") eq_refl Hsorted)
      as (Hfound & _).
    apply Hfound; [|reflexivity|by vm_compute].
    split; [right; left|]. split; [by vm_compute|].
    apply (Hkeys (fun k => kv.Cmp k (keyOf "t7") <= 0 -> kv.Cmp k (keyOf "t5") <= 0));
      intros _; by vm_compute.
  - destruct (getRangeEndKey_spec (sampleStore [keyOf "t1"; keyOf "t5"]) 0
                (keyOf "t") (keyOf "t2") (keyOf "t4") eq_refl Hsorted)
      as (_ & _ & Hfallback & _).
    apply (Hfallback (keyOf "t1")); [|right; by vm_compute].
    split; [left|]. split; [by vm_compute|].
    apply (Hkeys (fun k => kv.Cmp k (keyOf "t4") <= 0 -> kv.Cmp k (keyOf "t1") <= 0)).
    + intros _. by vm_compute.
    + intros Hle. by vm_compute in Hle.
Defined.

(** C7 over the keys [a1], [t1], [t1a], [t2] and [u1] with the prefix [t]:
    a [nil] start key gives what the prefix gives; up to the end key [u5]
    the calls take in the rows of [t1], [t1a] and [t2] and end with [nil] at
    [u1], which lacks the prefix; and over the keys [t1], [t1a], [t2] and
    [t3], where [Next] fails with [ErrNotExist] on leaving [t2], they take
    in the same rows and end with [nil]. *)
Lemma iterateSnapshotKeys_spec_witness :
  let store := sampleStore [keyOf "a1"; keyOf "t1"; keyOf "t1a"; keyOf "t2"; keyOf "u1"] in
  let faulty := sampleFaultyStore [keyOf "t1"; keyOf "t1a"; keyOf "t2"; keyOf "t3"] in
  iterateSnapshotKeys (codec := sampleCodec) store 0 (keyOf "t") 7
    None None collectKeys [] =
  iterateSnapshotKeys (codec := sampleCodec) store 0 (keyOf "t") 7
    (keyOf "t") None collectKeys [] /\
  (exists a' keys,
     iterateSnapshotKeys (codec := sampleCodec) store 0 (keyOf "t") 7
       None (keyOf "u5") (logged collectKeys) ([], []) = Some ((a', keys), None) /\
     visits_rows [keyOf "t1"; keyOf "t1a"; keyOf "t2"] keys) /\
  (exists a' keys,
     iterateSnapshotKeys (codec := sampleCodec) faulty 0 (keyOf "t") 7
       None None (logged collectKeys) ([], []) = Some ((a', keys), None) /\
     visits_rows ([keyOf "t1"; keyOf "t1a"] ++ [keyOf "t2"]) keys).
Proof.
  cbn zeta. split; [|split].
  - destruct (iterateSnapshotKeys_spec (codec := sampleCodec)
                (sampleStore [keyOf "a1"; keyOf "t1"; keyOf "t1a"; keyOf "t2"; keyOf "u1"])
                0 (keyOf "t") 7 None None collectKeys [])
      as (_ & Hstart & _).
    exact (Hstart eq_refl).
  - destruct (iterateSnapshotKeys_spec (codec := sampleCodec)
                (sampleStore [keyOf "a1"; keyOf "t1"; keyOf "t1a"; keyOf "t2"; keyOf "u1"])
                0 (keyOf "t") 7 None (keyOf "u5") collectKeys [])
      as (_ & _ & _ & _ & _ & _ & _ & Hrows).
    destruct Hrows as [Hend _]; [done|done|done|].
    apply (Hend [keyOf "t1"; keyOf "t1a"; keyOf "t2"] [keyOf "u1"]);
      [reflexivity|repeat constructor|repeat constructor|reflexivity].
  - destruct (iterateSnapshotKeys_spec (codec := sampleCodec)
                (sampleFaultyStore [keyOf "t1"; keyOf "t1a"; keyOf "t2"; keyOf "t3"])
                0 (keyOf "t") 7 None None collectKeys [])
      as (_ & _ & _ & _ & _ & _ & _ & Hrows).
    destruct Hrows as [_ Hfail]; [done|done|done|].
    apply (Hfail [keyOf "t1"; keyOf "t1a"] (keyOf "t2") [keyOf "t3"] ErrNotExist);
      [reflexivity|repeat constructor|repeat constructor|reflexivity].
Defined.


(** * Further properties of the code *)

(** ** The done-task keeper *)

(** X1.  Whatever is reported to a keeper, and in whatever order, the keeper
    never holds a stashed key for its [current] id: each call drains all it
    can. *)
Theorem updateNextKeys_current_absent (start : kv.Key) (calls : list (Z * kv.Key)) :
  doneTaskKeeper.doneTaskNextKey (updateNextKeys (newDoneTaskKeeper start) calls)
    !! doneTaskKeeper.current (updateNextKeys (newDoneTaskKeeper start) calls)
  = None.
Proof.
  assert (forall st,
    doneTaskKeeper.doneTaskNextKey st !! doneTaskKeeper.current st = None ->
    doneTaskKeeper.doneTaskNextKey (updateNextKeys st calls)
      !! doneTaskKeeper.current (updateNextKeys st calls) = None) as Hgen.
  { induction calls as [|[id next] calls IH]; intros st Hst; [done|].
    simpl. apply IH. unfold updateNextKey. simpl.
    destruct (id =? doneTaskKeeper.current st) eqn:Heq.
    - by apply updateNextKey_loop_exits.
    - apply Z.eqb_neq in Heq. simpl. by rewrite lookup_insert_ne. }
  by apply Hgen.
Qed.

Section keeper_drained.
Variable S0 : kv.Key.
Variable k : Z -> kv.Key.
Variable n : Z.
Hypothesis n_int : 0 <= n <= int_max.

Lemma updateNextKey_loop_above seen fuel : forall st,
  (forall i, i ∈ seen -> 0 <= i < n) ->
  keeper_draining S0 k n seen st ->
  (forall i v, doneTaskKeeper.doneTaskNextKey st !! i = Some v ->
               doneTaskKeeper.current st <= i) ->
  (size (doneTaskKeeper.doneTaskNextKey st) <= fuel)%nat ->
  stash_above (updateNextKey_loop fuel st).
Proof using n_int.
  induction fuel as [|fuel IH]; intros st Hseen Hd Hge Hsz; simpl.
  - assert (doneTaskKeeper.doneTaskNextKey st = ∅) as Hempty
      by (apply map_size_empty_iff; lia).
    intros i v Hiv. by rewrite Hempty, lookup_empty in Hiv.
  - destruct (doneTaskKeeper.doneTaskNextKey st !! doneTaskKeeper.current st)
      as [nKey|] eqn:Hl.
    + destruct (kd_stash Hd _ _ Hl) as [Hin ->].
      pose proof (Hseen _ Hin) as Hlt.
      assert (int_add (doneTaskKeeper.current st) 1 = doneTaskKeeper.current st + 1)
        as Hinc by (apply wrap64_small; unfold int_min, int_max in *; lia).
      apply IH; simpl; [done| | |].
      * rewrite Hinc. constructor; simpl.
        -- lia.
        -- intros i Hi.
           destruct (decide (i = doneTaskKeeper.current st)) as [->|]; [done|].
           apply (kd_below Hd); lia.
        -- replace (doneTaskKeeper.current st + 1 =? 0) with false
             by (pose proof (kd_range Hd); lia).
           f_equal; lia.
        -- intros i v Hiv. apply lookup_delete_Some in Hiv as [_ Hiv].
           by apply (kd_stash Hd).
        -- intros i Hi Hle. rewrite lookup_delete_ne by lia.
           apply (kd_pending Hd); [done|lia].
      * rewrite Hinc. intros i v Hiv. apply lookup_delete_Some in Hiv as [Hne Hiv].
        apply Hge in Hiv. lia.
      * pose proof (map_size_delete_Some (doneTaskKeeper.current st)
                      (doneTaskKeeper.doneTaskNextKey st) ltac:(eauto)).
        lia.
    + intros i v Hiv. pose proof (Hge _ _ Hiv).
      destruct (decide (i = doneTaskKeeper.current st)) as [->|]; [congruence|lia].
Qed.

Lemma updateNextKey_above seen st id :
  (forall i, i ∈ seen -> 0 <= i < n) -> 0 <= id < n -> id ∉ seen ->
  keeper_inv S0 k n seen st -> stash_above st ->
  stash_above (updateNextKey st id (k id)).
Proof using n_int.
  intros Hseen Hid Hnew Hinv Habove.
  destruct Hinv as [Hd Hnone]. pose proof (kd_range Hd) as Hr.
  unfold updateNextKey. destruct (id =? doneTaskKeeper.current st) eqn:Heq.
  - apply Z.eqb_eq in Heq. subst id.
    assert (int_add (doneTaskKeeper.current st) 1 = doneTaskKeeper.current st + 1)
      as Hinc by (apply wrap64_small; unfold int_min, int_max in *; lia).
    apply (updateNextKey_loop_above (seen ++ [doneTaskKeeper.current st]));
      simpl; [| | |lia].
    + intros i Hi. apply elem_of_app in Hi as [Hi|Hi]; [by apply Hseen|].
      apply list_elem_of_singleton in Hi. by subst.
    + rewrite Hinc. constructor; simpl.
      * lia.
      * intros i Hi. apply elem_of_app.
        destruct (decide (i = doneTaskKeeper.current st)) as [->|].
        -- right. by apply list_elem_of_singleton.
        -- left. apply (kd_below Hd); lia.
      * replace (doneTaskKeeper.current st + 1 =? 0) with false by lia.
        f_equal; lia.
      * intros i v Hiv. destruct (kd_stash Hd _ _ Hiv) as [Hi ->].
        split; [|done]. apply elem_of_app; by left.
      * intros i Hi Hle. apply elem_of_app in Hi as [Hi|Hi].
        -- apply (kd_pending Hd); [done|lia].
        -- apply list_elem_of_singleton in Hi. lia.
    + rewrite Hinc. intros i v Hiv. apply Habove in Hiv. lia.
  - apply Z.eqb_neq in Heq. intros i v Hiv. simpl in *.
    apply lookup_insert_Some in Hiv as [[<- _]|[_ Hiv]]; [|by apply Habove in Hiv].
    destruct (Z.lt_trichotomy id (doneTaskKeeper.current st)) as [Hlt|[?|?]];
      [|done|done].
    exfalso. apply Hnew, (kd_below Hd). lia.
Qed.

Lemma updateNextKeys_above ids : forall seen st,
  (forall i, i ∈ seen ++ ids -> 0 <= i < n) -> NoDup (seen ++ ids) ->
  keeper_inv S0 k n seen st -> stash_above st ->
  stash_above (updateNextKeys st (calls_of k ids)).
Proof using n_int.
  induction ids as [|id ids IH]; intros seen st Hall Hnd Hinv Habove; [done|].
  simpl. assert (seen ++ id :: ids = (seen ++ [id]) ++ ids) as Hassoc
    by (by rewrite <- app_assoc).
  rewrite Hassoc in Hall, Hnd.
  assert (id ∉ seen) as Hnew.
  { apply NoDup_app in Hnd as (Hnd & _ & _). apply NoDup_app in Hnd as (_ & Hd & _).
    intros Hin. apply (Hd id Hin). by left. }
  assert (0 <= id < n) as Hid
    by (apply Hall; apply elem_of_app; left; apply elem_of_app; right; by left).
  assert (forall i, i ∈ seen -> 0 <= i < n) as Hseen
    by (intros i Hi; apply Hall; apply elem_of_app; left; apply elem_of_app; by left).
  apply (IH (seen ++ [id])); [done|done| |].
  - by apply updateNextKey_inv.
  - by apply (updateNextKey_above seen).
Qed.

(** X2.  Once each of the ids [0 .. n-1] was reported exactly once, in any
    order, the keeper expects id [n] and its map is empty: everything that
    arrived early was drained. *)
Theorem updateNextKeys_all_reported (ids : list Z) :
  ids ≡ₚ seqZ 0 n ->
  doneTaskKeeper.current (updateNextKeys (newDoneTaskKeeper S0) (calls_of k ids)) = n /\
  doneTaskKeeper.doneTaskNextKey
    (updateNextKeys (newDoneTaskKeeper S0) (calls_of k ids)) = ∅.
Proof using n_int.
  intros Hperm.
  assert (forall i, i ∈ ids -> 0 <= i < n) as Hids.
  { intros i Hi. rewrite Hperm in Hi. apply elem_of_seqZ in Hi. lia. }
  assert (NoDup ids) as Hnd by (rewrite Hperm; apply NoDup_seqZ).
  pose proof (updateNextKeys_inv S0 k n n_int ids [] (newDoneTaskKeeper S0)
                Hids (newDoneTaskKeeper_inv S0 k n n_int)) as Hinv.
  simpl in Hinv.
  assert (stash_above (updateNextKeys (newDoneTaskKeeper S0) (calls_of k ids)))
    as Habove.
  { apply (updateNextKeys_above ids []); [done|done| |].
    - apply (newDoneTaskKeeper_inv S0 k n n_int).
    - intros i v Hiv. unfold newDoneTaskKeeper in Hiv.
      cbn [doneTaskKeeper.doneTaskNextKey] in Hiv. by rewrite lookup_empty in Hiv. }
  assert (doneTaskKeeper.current
            (updateNextKeys (newDoneTaskKeeper S0) (calls_of k ids)) = n) as Hcur.
  { apply (keeper_inv_current S0 k n ids); [done|lia| |].
    - intros i Hi. rewrite Hperm. apply elem_of_seqZ. lia.
    - intros Hin. apply Hids in Hin. lia. }
  split; [done|].
  apply map_empty. intros i.
  destruct (doneTaskKeeper.doneTaskNextKey _ !! i) as [v|] eqn:Hiv; [|done].
  exfalso. pose proof (Habove _ _ Hiv) as Hlt. rewrite Hcur in Hlt.
  destruct Hinv as [Hd _]. destruct (kd_stash Hd _ _ Hiv) as [Hin _].
  apply Hids in Hin. lia.
Qed.

End keeper_drained.

(** X2 at three tasks reported in the order 2, 0, 1. *)
Lemma updateNextKeys_all_reported_witness :
  let k := fun i => backfillResult.nextKey (sampleResult i) in
  let keeper := updateNextKeys (newDoneTaskKeeper (keyOf "a")) (calls_of k [2; 0; 1]) in
  doneTaskKeeper.current keeper = 3 /\ doneTaskKeeper.doneTaskNextKey keeper = ∅.
Proof.
  cbn zeta.
  assert (0 <= 3 <= int_max) as Hn by (unfold int_max; lia).
  assert ([2; 0; 1] ≡ₚ seqZ 0 3) as Hperm.
  { change (seqZ 0 3) with [0; 1; 2].
    etrans; [apply perm_swap|]. apply perm_skip, perm_swap. }
  exact (updateNextKeys_all_reported (keyOf "a")
           (fun i => backfillResult.nextKey (sampleResult i)) 3 Hn [2; 0; 1] Hperm).
Defined.


(** ** The batch loop of a worker *)

Lemma handleBackfillTask_loop_success rounds : forall isDistReorg handleRange
    result merged result' merged',
  Forall (fun c => backfillTaskContext.done c = false) merged ->
  handleBackfillTask_loop rounds isDistReorg handleRange result merged
    = Some (result', merged') ->
  backfillResult.err result' = None ->
  backfillResult.taskID result' = backfillResult.taskID result /\
  exists pre lastCtx,
    merged' = pre ++ [lastCtx] /\
    backfillTaskContext.done lastCtx = true /\
    Forall (fun c => backfillTaskContext.done c = false) pre.
Proof.
  induction rounds as [|round rounds IH];
    intros isDistReorg handleRange result merged result' merged' Hall; simpl; [done|].
  destruct (roundRunnable round); [by intros [= <- <-]|].
  destruct (roundBackfillData round handleRange) as [e|taskCtx];
    [by intros [= <- <-]|].
  destruct (backfillTaskContext.done taskCtx) eqn:Hdone.
  { intros [= <- <-] _. split; [done|]. by exists merged, taskCtx. }
  assert (Forall (fun c => backfillTaskContext.done c = false) (merged ++ [taskCtx]))
    as Hall' by (apply Forall_app; split; [done|by constructor]).
  assert (forall r m,
    handleBackfillTask_loop rounds isDistReorg
      (reorgBackfillTask.with_startKey (backfillTaskContext.nextKey taskCtx) handleRange)
      (mergeBackfillCtxToResult taskCtx result) (merged ++ [taskCtx]) = Some (r, m) ->
    backfillResult.err r = None ->
    backfillResult.taskID r = backfillResult.taskID result /\
    exists pre lastCtx,
      m = pre ++ [lastCtx] /\
      backfillTaskContext.done lastCtx = true /\
      Forall (fun c => backfillTaskContext.done c = false) pre) as Hrec.
  { intros r m Hrun Herr. by destruct (IH _ _ _ _ _ _ Hall' Hrun Herr). }
  destruct isDistReorg; [|by apply Hrec].
  destruct (roundLeaseFresh round); [by apply Hrec|].
  destruct (roundUpdateLease round _); [by intros [= <- <-]|by apply Hrec].
Qed.

(** X3.  When [handleBackfillTask] returns a result without an error, the
    task was processed to its end: at least one batch was committed, the
    last one reported [done] and no earlier one did, and the result carries
    the task's id and the next key of the last batch. *)
Theorem handleBackfillTask_success (rounds : list batchRound)
    (task : reorgBackfillTask.t) (result : backfillResult.t)
    (merged : list backfillTaskContext.t) :
  handleBackfillTask rounds task = Some (result, merged) ->
  backfillResult.err result = None ->
  backfillResult.taskID result = reorgBackfillTask.id task /\
  exists pre lastCtx,
    merged = pre ++ [lastCtx] /\
    backfillTaskContext.done lastCtx = true /\
    Forall (fun c => backfillTaskContext.done c = false) pre /\
    backfillResult.nextKey result = backfillTaskContext.nextKey lastCtx.
Proof.
  unfold handleBackfillTask. intros Hrun Herr.
  set (result0 := backfillResult.mk _ _ _ _ _) in Hrun.
  destruct (handleBackfillTask_loop_success _ _ _ _ _ _ _ (Forall_nil_2 _) Hrun Herr)
    as (Hid & pre & lastCtx & -> & Hdone & Hpre).
  split; [done|]. exists pre, lastCtx. repeat split; try done.
  assert (result_of_batches (reorgBackfillTask.startKey task) [] result0) as Hinv0
    by (by constructor).
  destruct (handleBackfillTask_loop_spec _ _ _ _ _ _ _ _ Hinv0 Hrun) as [[Hk _ _] _].
  rewrite Hk. unfold committedNextKey. by rewrite last_snoc.
Qed.

(** X4.  Within a task the batches proceed from left to right: the batch
    committed in round [i] is what [BackfillData] returned for the task's
    range with its start moved to the next key of the batch before (the
    task's own start key in the first round), and the job was runnable in
    that round. *)
Theorem handleBackfillTask_batches_chain (rounds : list batchRound)
    (task : reorgBackfillTask.t) (result : backfillResult.t)
    (merged : list backfillTaskContext.t) (i : nat) (ctx : backfillTaskContext.t) :
  handleBackfillTask rounds task = Some (result, merged) ->
  merged !! i = Some ctx ->
  exists round,
    rounds !! i = Some round /\
    roundRunnable round = None /\
    roundBackfillData round
      (reorgBackfillTask.with_startKey
         (committedNextKey (reorgBackfillTask.startKey task) (take i merged)) task)
      = inr ctx.
Proof.
  unfold handleBackfillTask. intros Hrun Hl.
  eapply (handleBackfillTask_loop_chain task rounds _ _ [] result merged); [|done].
  rewrite <- Hrun. f_equal. by destruct task.
Qed.

(** X3 and X4 at a task that is done in two batches. *)

Lemma handleBackfillTask_success_witness :
  exists result merged,
    handleBackfillTask sampleTwoBatches (sampleTask 7 (keyOf "a") (keyOf "b"))
      = Some (result, merged) /\
    backfillResult.taskID result = 7 /\
    exists pre lastCtx,
      merged = pre ++ [lastCtx] /\
      backfillTaskContext.done lastCtx = true /\
      Forall (fun c => backfillTaskContext.done c = false) pre /\
      backfillResult.nextKey result = backfillTaskContext.nextKey lastCtx.
Proof.
  eexists. eexists. split; [vm_compute; reflexivity|].
  exact (handleBackfillTask_success sampleTwoBatches
           (sampleTask 7 (keyOf "a") (keyOf "b")) _ _ eq_refl eq_refl).
Defined.

Lemma handleBackfillTask_batches_chain_witness :
  exists round,
    sampleTwoBatches !! 1%nat = Some round /\
    roundRunnable round = None /\
    roundBackfillData round
      (reorgBackfillTask.with_startKey (kv.Next (keyOf "a"))
         (sampleTask 7 (keyOf "a") (keyOf "b")))
      = inr (backfillTaskContext.mk (kv.Next (kv.Next (keyOf "a"))) true 2 2).
Proof.
  exact (handleBackfillTask_batches_chain sampleTwoBatches
           (sampleTask 7 (keyOf "a") (keyOf "b")) _ _ 1%nat _ eq_refl eq_refl).
Defined.


(** ** Waiting for the results of a batch *)

Lemma waitTaskResults_loop_received {W : Type} {pool : WorkerPool W} results :
  forall (i : Z) (st st' : waitState.t W) (rest : list backfillResult.t),
    waitTaskResults_loop results i st = Returns (st', rest) ->
    exists received,
      results = received ++ rest /\
      waitState.keeper st' = updateNextKeys (waitState.keeper st) (reported received) /\
      waitState.addedCount st' =
        foldl int_add (waitState.addedCount st) (addedBy received) /\
      waitState.totalAddedCount st' =
        foldl int_add (waitState.totalAddedCount st) (addedBy received) /\
      waitState.firstErr st' =
        match waitState.firstErr st with
        | Some e => Some e
        | None => firstFailure received
        end.
Proof.
  induction results as [|r results IH]; intros i st st' rest.
  - cbn [waitTaskResults_loop].
    destruct (i <? waitState.taskSize st); [done|]. intros [= <- <-].
    exists []. repeat split. by destruct (waitState.firstErr st).
  - cbn [waitTaskResults_loop].
    destruct (i <? waitState.taskSize st).
    2:{ intros [= <- <-]. exists []. repeat split.
        by destruct (waitState.firstErr st). }
    destruct (backfillResult.err r) as [e|] eqn:Herr.
    + destruct (drainTasks (waitState.taskCh st)) as [cnt taskCh'].
      intros Hrun. apply IH in Hrun as (received & -> & Hk & Ha & Ht & He).
      exists (r :: received). unfold reported, addedBy, firstFailure in *.
      cbn [omap list_omap]. rewrite Herr. cbn [waitState.firstErr] in He.
      repeat split; try done. rewrite He. by destruct (waitState.firstErr st).
    + assert (forall st1,
        waitState.keeper st1 =
          updateNextKey (waitState.keeper st) (backfillResult.taskID r)
            (backfillResult.nextKey r) ->
        waitState.addedCount st1 =
          int_add (waitState.addedCount st) (backfillResult.addedCount r) ->
        waitState.totalAddedCount st1 =
          int_add (waitState.totalAddedCount st) (backfillResult.addedCount r) ->
        waitState.firstErr st1 = waitState.firstErr st ->
        waitTaskResults_loop results (int_add i 1) st1 = Returns (st', rest) ->
        exists received,
          r :: results = received ++ rest /\
          waitState.keeper st' =
            updateNextKeys (waitState.keeper st) (reported received) /\
          waitState.addedCount st' =
            foldl int_add (waitState.addedCount st) (addedBy received) /\
          waitState.totalAddedCount st' =
            foldl int_add (waitState.totalAddedCount st) (addedBy received) /\
          waitState.firstErr st' =
            match waitState.firstErr st with
            | Some e => Some e
            | None => firstFailure received
            end) as Hnext.
      { intros st1 Hk1 Ha1 Ht1 He1 Hrun.
        apply IH in Hrun as (received & -> & Hk & Ha & Ht & He).
        exists (r :: received). unfold reported, addedBy, firstFailure in *.
        cbn [omap list_omap]. rewrite Herr.
        rewrite Hk, Ha, Ht, He, Hk1, Ha1, Ht1, He1. by repeat split. }
      destruct (int_rem i (workerSize (waitState.workers st))); [|done].
      destruct (int_mul _ 4 =? 0).
      * destruct (adjustWorkerSize (waitState.workers st)) as [workers' err'].
        by apply Hnext.
      * by apply Hnext.
Qed.

(** X5.  Whenever [waitTaskResults] returns, it has received a prefix of
    the result channel.  The key it returns is that of a keeper, started at
    the first task's start key, to which the results without an error were
    reported in arrival order; the counts add up (in 64 bits) the rows of
    the results without an error only; and the error is that of the first
    failed result received. *)
Theorem waitTaskResults_returns {W : Type} {pool : WorkerPool W}
    (scheduler : backfillScheduler.t W) (batchTasks : list reorgBackfillTask.t)
    (totalAddedCount : Z) (w : waitResult.t W) :
  waitTaskResults scheduler batchTasks totalAddedCount = Returns w ->
  exists task0 received,
    head batchTasks = Some task0 /\
    backfillScheduler.resultCh scheduler =
      received ++ backfillScheduler.resultCh (waitResult.scheduler w) /\
    waitResult.nextKey w =
      doneTaskKeeper.nextKey
        (updateNextKeys (newDoneTaskKeeper (reorgBackfillTask.startKey task0))
           (reported received)) /\
    waitResult.addedCount w = foldl int_add 0 (addedBy received) /\
    waitResult.totalAddedCount w = foldl int_add totalAddedCount (addedBy received) /\
    waitResult.err w = firstFailure received.
Proof.
  unfold waitTaskResults. destruct batchTasks as [|task0 rest]; [done|].
  destruct (waitTaskResults_loop _ _ _) as [[st resultCh]| |] eqn:Hrun; [|done|done].
  intros [= <-].
  apply waitTaskResults_loop_received in Hrun as (received & Hres & Hk & Ha & Ht & He).
  exists task0, received. cbn in *. by rewrite Hk.
Qed.

Lemma drainTasks_loop_count taskCh : forall cnt,
  0 <= cnt -> cnt + Z.of_nat (length taskCh) <= int_max ->
  drainTasks_loop taskCh cnt = (cnt + Z.of_nat (length taskCh), []).
Proof.
  induction taskCh as [|task taskCh IH]; intros cnt Hcnt Hmax; cbn [drainTasks_loop].
  - simpl. by rewrite Z.add_0_r.
  - rewrite length_cons in *.
    assert (int_add cnt 1 = cnt + 1) as ->
      by (apply wrap64_small; unfold int_min, int_max in *; lia).
    rewrite IH by lia. f_equal. lia.
Qed.

Lemma drainTasks_count taskCh :
  Z.of_nat (length taskCh) <= int_max ->
  drainTasks taskCh = (Z.of_nat (length taskCh), []).
Proof. intros Hmax. unfold drainTasks. by rewrite drainTasks_loop_count. Qed.

Section wait_drain.
Context {W : Type} {pool : WorkerPool W}.
(** The pool is never without a worker. *)
Hypothesis pool_nonempty : forall w : W, workerSize w <> 0.

(** Results without an error leave the task channel and the number of
    awaited results as they are. *)
Lemma waitTaskResults_loop_successes pre :
  forall (i : Z) (st : waitState.t W),
    Forall (fun r => backfillResult.err r = None) pre ->
    0 <= i ->
    i + Z.of_nat (length pre) <= waitState.taskSize st ->
    waitState.taskSize st <= int_max ->
    exists st1,
      (forall rest, waitTaskResults_loop (pre ++ rest) i st =
                    waitTaskResults_loop rest (i + Z.of_nat (length pre)) st1) /\
      waitState.taskSize st1 = waitState.taskSize st /\
      waitState.taskCh st1 = waitState.taskCh st /\
      waitState.firstErr st1 = waitState.firstErr st.
Proof using pool_nonempty.
  induction pre as [|r pre IH]; intros i st Hok Hi Hsz Hmax.
  - exists st. split; [|done]. intros rest. simpl. by rewrite Z.add_0_r.
  - apply Forall_cons in Hok as [Hr Hok]. rewrite length_cons in *.
    assert (int_add i 1 = i + 1) as Hinc
      by (apply wrap64_small; unfold int_min, int_max in *; lia).
    assert (forall st0,
      waitState.taskSize st0 = waitState.taskSize st ->
      waitState.taskCh st0 = waitState.taskCh st ->
      waitState.firstErr st0 = waitState.firstErr st ->
      exists st1,
        (forall rest, waitTaskResults_loop (pre ++ rest) (i + 1) st0 =
                      waitTaskResults_loop rest (i + Z.of_nat (S (length pre))) st1) /\
        waitState.taskSize st1 = waitState.taskSize st /\
        waitState.taskCh st1 = waitState.taskCh st /\
        waitState.firstErr st1 = waitState.firstErr st) as Hnext.
    { intros st0 Hts Htc Hfe.
      destruct (IH (i + 1) st0 Hok) as (st1 & Hrun & Hts1 & Htc1 & Hfe1); [lia|lia|lia|].
      exists st1. split; [|by rewrite Hts1, Htc1, Hfe1].
      intros rest. rewrite Hrun. f_equal. lia. }
    unfold int_rem.
    destruct (workerSize (waitState.workers st) =? 0) eqn:Hws.
    { apply Z.eqb_eq in Hws. by apply pool_nonempty in Hws. }
    destruct (int_mul (Z.rem i (workerSize (waitState.workers st))) 4 =? 0) eqn:Hadj.
    + destruct (adjustWorkerSize (waitState.workers st)) as [workers' err'] eqn:Hw.
      edestruct Hnext as (st1 & Hrun & Hrest); cycle -1.
      * exists st1. split; [|exact Hrest]. intros rest.
        rewrite <- Hrun. cbn [app waitTaskResults_loop].
        replace (i <? waitState.taskSize st) with true by lia.
        rewrite Hr, Hinc. unfold int_rem. rewrite Hws, Hadj, Hw. reflexivity.
      * done.
      * done.
      * done.
    + edestruct Hnext as (st1 & Hrun & Hrest); cycle -1.
      * exists st1. split; [|exact Hrest]. intros rest.
        rewrite <- Hrun. cbn [app waitTaskResults_loop].
        replace (i <? waitState.taskSize st) with true by lia.
        rewrite Hr, Hinc. unfold int_rem. rewrite Hws, Hadj. reflexivity.
      * done.
      * done.
      * done.
Qed.

(** With nothing left in the task channel the number of awaited results
    no longer changes. *)
Lemma waitTaskResults_loop_drained results :
  forall (i : Z) (st : waitState.t W),
    0 <= i ->
    int_min <= waitState.taskSize st <= int_max ->
    waitState.taskCh st = [] ->
    (Z.to_nat (waitState.taskSize st - i) <= length results)%nat ->
    exists st',
      waitTaskResults_loop results i st =
        Returns (st', drop (Z.to_nat (waitState.taskSize st - i)) results) /\
      waitState.taskCh st' = [] /\
      (forall e, waitState.firstErr st = Some e -> waitState.firstErr st' = Some e).
Proof using pool_nonempty.
  induction results as [|r results IH]; intros i st Hi Hts Hch Hlen.
  - simpl in Hlen. cbn [waitTaskResults_loop].
    replace (i <? waitState.taskSize st) with false by lia.
    exists st. by rewrite drop_nil.
  - cbn [waitTaskResults_loop].
    destruct (i <? waitState.taskSize st) eqn:Hlt.
    2:{ replace (Z.to_nat (waitState.taskSize st - i)) with 0%nat by lia.
        by exists st. }
    apply Z.ltb_lt in Hlt.
    replace (Z.to_nat (waitState.taskSize st - i))
      with (S (Z.to_nat (waitState.taskSize st - (i + 1)))) in * by lia.
    cbn [drop]. rewrite length_cons in Hlen.
    assert (int_add i 1 = i + 1) as ->
      by (apply wrap64_small; unfold int_min, int_max in *; lia).
    assert (forall st0,
      waitState.taskSize st0 = waitState.taskSize st ->
      waitState.taskCh st0 = [] ->
      (forall e, waitState.firstErr st = Some e -> waitState.firstErr st0 = Some e) ->
      exists st',
        waitTaskResults_loop results (i + 1) st0 =
          Returns (st', drop (Z.to_nat (waitState.taskSize st - (i + 1))) results) /\
        waitState.taskCh st' = [] /\
        (forall e, waitState.firstErr st = Some e -> waitState.firstErr st' = Some e))
      as Hnext.
    { intros st0 Hts0 Htc0 Hfe0.
      destruct (IH (i + 1) st0) as (st' & Hrun & Htc & Hfe);
        [lia|by rewrite Hts0|done|rewrite Hts0; lia|].
      exists st'. rewrite <- Hts0. split; [done|]. split; [done|].
      intros e He. by apply Hfe, Hfe0. }
    destruct (backfillResult.err r) as [e|] eqn:Herr.
    + rewrite Hch, drainTasks_nil. apply Hnext; cbn.
      * unfold int_add. change (- 0) with 0. rewrite Z.add_0_r. by apply wrap64_small.
      * done.
      * intros e' He'. by rewrite He'.
    + unfold int_rem.
      destruct (workerSize (waitState.workers st) =? 0) eqn:Hws.
      { apply Z.eqb_eq in Hws. by apply pool_nonempty in Hws. }
      destruct (int_mul _ 4 =? 0).
      * destruct (adjustWorkerSize (waitState.workers st)) as [workers' err'].
        by apply Hnext.
      * by apply Hnext.
Qed.

(** X6.  A failed result makes the driver give up the tasks that no worker
    has picked up: when the first failed result arrives while [d] tasks are
    still queued, the task channel is emptied and the results still awaited
    are those that bring the number received to [n - d], [n] being the size
    of the batch; none, if that many were received already.  The call
    returns the error of that first failed result, whatever the later
    results carry. *)
Theorem waitTaskResults_failure_drains
    (scheduler : backfillScheduler.t W) (task0 : reorgBackfillTask.t)
    (rest : list reorgBackfillTask.t) (totalAddedCount : Z)
    (pre : list backfillResult.t) (bad : backfillResult.t)
    (post : list backfillResult.t) (e : error) :
  let batchTasks := task0 :: rest in
  let n := Z.of_nat (length batchTasks) in
  let d := Z.of_nat (length (backfillScheduler.taskCh scheduler)) in
  let awaited := Z.to_nat (n - d - (Z.of_nat (length pre) + 1)) in
  n <= int_max ->
  d <= int_max ->
  backfillScheduler.resultCh scheduler = pre ++ bad :: post ->
  Forall (fun r => backfillResult.err r = None) pre ->
  backfillResult.err bad = Some e ->
  Z.of_nat (length pre) < n ->
  (awaited <= length post)%nat ->
  exists w,
    waitTaskResults scheduler batchTasks totalAddedCount = Returns w /\
    waitResult.err w = Some e /\
    backfillScheduler.taskCh (waitResult.scheduler w) = [] /\
    backfillScheduler.resultCh (waitResult.scheduler w) = drop awaited post.
Proof using pool_nonempty.
  intros batchTasks n d awaited Hn Hd Hres Hok Hbad Hpre Hpost.
  unfold waitTaskResults, batchTasks. fold batchTasks. fold n. rewrite Hres.
  set (st0 := waitState.mk _ _ _ _ _ _ _ _).
  destruct (waitTaskResults_loop_successes pre 0 st0 Hok)
    as (st1 & Hrun1 & Hts1 & Htc1 & Hfe1); [lia|cbn; lia|cbn; lia|].
  rewrite Hrun1. cbn [waitTaskResults_loop]. rewrite Hts1. cbn [waitState.taskSize st0].
  replace (0 + Z.of_nat (length pre) <? n) with true by lia.
  rewrite Hbad, Hfe1, Htc1. cbn [waitState.firstErr waitState.taskCh st0].
  rewrite drainTasks_count by done. fold d.
  assert (int_add (0 + Z.of_nat (length pre)) 1 = Z.of_nat (length pre) + 1) as ->
    by (apply wrap64_small; unfold int_min, int_max in *; lia).
  assert (int_add n (- d) = n - d) as ->
    by (apply wrap64_small; unfold int_min, int_max in *; lia).
  set (st2 := waitState.mk _ _ _ _ _ _ _ _).
  destruct (waitTaskResults_loop_drained post (Z.of_nat (length pre) + 1) st2)
    as (st' & Hrun & Htc & Hfe); [lia|cbn; unfold int_min, int_max in *; lia|done|done|].
  rewrite Hrun. eexists. split; [reflexivity|]. cbn.
  split; [by apply Hfe|]. done.
Qed.

End wait_drain.

(** X22.  The driver waits for every task of the batch: as long as no
    result failed, [waitTaskResults] does not return before it has received
    as many results as the batch has tasks; with fewer in the channel it
    blocks. *)
Theorem waitTaskResults_waits_for_all {W : Type} {pool : WorkerPool W}
    (scheduler : backfillScheduler.t W) (task0 : reorgBackfillTask.t)
    (rest : list reorgBackfillTask.t) (totalAddedCount : Z) :
  let batchTasks := task0 :: rest in
  (forall w : W, workerSize w <> 0) ->
  Z.of_nat (length batchTasks) <= int_max ->
  Forall (fun r => backfillResult.err r = None) (backfillScheduler.resultCh scheduler) ->
  (length (backfillScheduler.resultCh scheduler) < length batchTasks)%nat ->
  waitTaskResults scheduler batchTasks totalAddedCount = Blocks.
Proof.
  intros batchTasks Hpool Hn Hok Hlen. subst batchTasks.
  unfold waitTaskResults.
  set (st0 := waitState.mk _ _ _ _ _ _ _ _).
  assert (waitState.taskSize st0 = Z.of_nat (length (task0 :: rest))) as Hts0 by done.
  destruct (waitTaskResults_loop_successes Hpool
              (backfillScheduler.resultCh scheduler) 0 st0 Hok)
    as (st1 & Hrun & Hts & _); [lia|lia|lia|].
  specialize (Hrun []). rewrite app_nil_r in Hrun. rewrite Hrun.
  cbn [waitTaskResults_loop]. rewrite Hts, Hts0.
  by replace (0 + Z.of_nat (length (backfillScheduler.resultCh scheduler))
              <? Z.of_nat (length (task0 :: rest))) with true by lia.
Qed.

(** X22 for three tasks of which two have reported. *)
Lemma waitTaskResults_waits_for_all_witness :
  waitTaskResults (pool := fixedPool)
    (sampleScheduler [sampleResult 1; sampleResult 0]) sampleTasks 0 = Blocks.
Proof.
  apply (waitTaskResults_waits_for_all (pool := fixedPool)
           (sampleScheduler [sampleResult 1; sampleResult 0])
           (sampleTask 0 (keyOf "a") (keyOf "b"))
           [sampleTask 1 (keyOf "b") (keyOf "c"); sampleTask 2 (keyOf "c") (keyOf "d")] 0).
  - intros w. cbn. lia.
  - vm_compute. discriminate.
  - repeat constructor.
  - cbn. lia.
Defined.

(** X6 for a batch of three tasks of which one is still queued when the
    second result reports an error: no third result is awaited. *)
Lemma waitTaskResults_failure_drains_witness :
  exists w,
    waitTaskResults (pool := fixedPool)
      (backfillScheduler.mk
         (sampleReorgInfo (sampleStore []))
         [sampleTask 2 (keyOf "c") (keyOf "d")]
         [sampleResult 0; sampleFailure 1] 2%positive)
      sampleTasks 0 = Returns w /\
    waitResult.err w = backfillResult.err (sampleFailure 1) /\
    backfillScheduler.taskCh (waitResult.scheduler w) = [] /\
    backfillScheduler.resultCh (waitResult.scheduler w) = [].
Proof.
  assert (forall w : positive, workerSize (WorkerPool := fixedPool) w <> 0) as Hpool
    by (intros w; cbn; lia).
  destruct (waitTaskResults_failure_drains (pool := fixedPool) Hpool
              (backfillScheduler.mk
                 (sampleReorgInfo (sampleStore []))
                 [sampleTask 2 (keyOf "c") (keyOf "d")]
                 [sampleResult 0; sampleFailure 1] 2%positive)
              (sampleTask 0 (keyOf "a") (keyOf "b"))
              [sampleTask 1 (keyOf "b") (keyOf "c"); sampleTask 2 (keyOf "c") (keyOf "d")]
              0 [sampleResult 0] (sampleFailure 1) [] ErrReorgCancelled)
    as (w & Hrun & He & Htc & Hrc).
  - vm_compute. discriminate.
  - vm_compute. discriminate.
  - reflexivity.
  - repeat constructor.
  - reflexivity.
  - cbn. lia.
  - cbn. lia.
  - exists w. split; [exact Hrun|]. split; [exact He|]. split; [exact Htc|exact Hrc].
Defined.

(** X5 for three results arriving in the order 2, 0, 1 of which that of
    task 1 failed: the key is that of task 0, and twenty rows are counted. *)
Lemma waitTaskResults_returns_witness :
  exists w,
    waitTaskResults (pool := fixedPool)
      (sampleScheduler [sampleFailure 2; sampleFailure 0; sampleFailure 1])
      sampleTasks 5 = Returns w /\
    waitResult.nextKey w = keyOf "b" /\
    waitResult.addedCount w = 20 /\
    waitResult.totalAddedCount w = 25 /\
    waitResult.err w = Some ErrReorgCancelled.
Proof.
  eexists. split; [vm_compute; reflexivity|].
  destruct (waitTaskResults_returns (pool := fixedPool)
              (sampleScheduler [sampleFailure 2; sampleFailure 0; sampleFailure 1])
              sampleTasks 5 _ eq_refl)
    as (task0 & received & Hhd & Hres & Hk & Ha & Ht & He).
  injection Hhd as <-.
  assert (received = [sampleFailure 2; sampleFailure 0; sampleFailure 1]) as ->.
  { cbn in Hres. by rewrite app_nil_r in Hres. }
  split; [exact Hk|]. split; [exact Ha|]. split; [exact Ht|exact He].
Defined.


(** X7.  With a fixed number [w] of workers and a batch whose results all
    succeed, [adjustWorkerSize] is called at exactly those loop indices
    that are multiples of [w], the first result included: the factor 4 in
    [i%scheduler.workerSize()*4 == 0] has no effect. *)
Theorem waitTaskResults_adjusts_at_multiples (w : positive)
    (info : reorgInfo.t) (taskCh : list reorgBackfillTask.t)
    (results : list backfillResult.t) (task0 : reorgBackfillTask.t)
    (rest : list reorgBackfillTask.t) (totalAddedCount : Z) :
  let batchTasks := task0 :: rest in
  let n := Z.of_nat (length batchTasks) in
  Z.pos w < 2 ^ 61 ->
  n <= int_max ->
  length results = length batchTasks ->
  Forall (fun r => backfillResult.err r = None) results ->
  exists r,
    waitTaskResults (pool := fixedPool)
      (backfillScheduler.mk info taskCh results w) batchTasks totalAddedCount
      = Returns r /\
    waitResult.adjusted r = List.filter (fun j => Z.rem j (Z.pos w) =? 0) (seqZ 0 n).
Proof.
  intros batchTasks n Hw Hn Hlen Hok.
  unfold waitTaskResults, batchTasks. fold batchTasks. fold n.
  cbn [backfillScheduler.resultCh backfillScheduler.taskCh backfillScheduler.workers].
  set (st0 := waitState.mk _ _ _ _ _ _ _ _).
  destruct (waitTaskResults_loop_adjusted w results 0 st0 Hw)
    as (st' & Hrun & Hadj); [lia|cbn; lia|cbn; lia|done|done|].
  rewrite Hrun. eexists. split; [reflexivity|].
  cbn [waitResult.adjusted]. rewrite Hadj. cbn [waitState.adjusted st0 app].
  by rewrite Hlen.
Qed.

(** X7 for five tasks and two workers: the pool is adjusted at the
    indices 0, 2 and 4. *)
Lemma waitTaskResults_adjusts_at_multiples_witness :
  exists r,
    waitTaskResults (pool := fixedPool)
      (backfillScheduler.mk (sampleReorgInfo (sampleStore [])) []
         (sampleResult <$> [0; 1; 2; 3; 4]) 2%positive)
      (sampleTasks ++ [sampleTask 3 (keyOf "d") (keyOf "e");
                       sampleTask 4 (keyOf "e") (keyOf "f")]) 0
      = Returns r /\
    waitResult.adjusted r = [0; 2; 4].
Proof.
  refine (waitTaskResults_adjusts_at_multiples 2 (sampleReorgInfo (sampleStore [])) []
            (sampleResult <$> [0; 1; 2; 3; 4]) (sampleTask 0 (keyOf "a") (keyOf "b"))
            [sampleTask 1 (keyOf "b") (keyOf "c"); sampleTask 2 (keyOf "c") (keyOf "d");
             sampleTask 3 (keyOf "d") (keyOf "e"); sampleTask 4 (keyOf "e") (keyOf "f")]
            0 _ _ _ _).
  - lia.
  - vm_compute. discriminate.
  - reflexivity.
  - repeat constructor.
Defined.


(** ** The tasks of a batch *)

Lemma getBatchTasks_loop_length {codec : Codec} t info prefix total batch kvRanges :
  forall i batchTasks,
    Z.of_nat (length batchTasks) < Z.max batch 1 ->
    length (getBatchTasks_loop t info prefix total batch kvRanges i batchTasks) =
      ((length batchTasks + length kvRanges) `min` Z.to_nat (Z.max batch 1))%nat.
Proof.
  induction kvRanges as [|keyRange kvRanges IH]; intros i batchTasks Hlen;
    cbn [getBatchTasks_loop length].
  - lia.
  - destruct (getRangeEndKey _ _ _ _ _) as [endK err].
    set (task0 := reorgBackfillTask.mk _ _ _ _ _ _ _ _ _).
    destruct (_ >=? batch) eqn:Hfull; rewrite Z.geb_leb in Hfull;
      [apply Z.leb_le in Hfull|apply Z.leb_gt in Hfull];
      rewrite length_app in Hfull; cbn [length] in Hfull.
    + rewrite length_app. cbn [length]. lia.
    + rewrite IH; rewrite length_app; cbn [length]; lia.
Qed.

Lemma makeslice_panics_false cap :
  makeslice_panics cap = false <-> 0 <= cap /\ cap * ptrSize <= maxAlloc.
Proof. unfold makeslice_panics. rewrite orb_false_iff. lia. Qed.

Lemma getBatchTasks_length {codec : Codec} (t : table.t) (info : reorgInfo.t)
    (kvRanges : list kv.KeyRange) (batch : Z) (batchTasks : list reorgBackfillTask.t) :
  getBatchTasks t info kvRanges batch = Returns batchTasks ->
  length batchTasks = (length kvRanges `min` Z.to_nat (Z.max batch 1))%nat.
Proof.
  unfold getBatchTasks. destruct (makeslice_panics batch) eqn:Hcap; [done|].
  intros [= <-]. apply makeslice_panics_false in Hcap.
  rewrite getBatchTasks_loop_length by (cbn [length]; lia). done.
Qed.

Lemma getBatchTasks_returns {codec : Codec} (t : table.t) (info : reorgInfo.t)
    (kvRanges : list kv.KeyRange) (batch : Z) :
  0 <= batch -> batch * ptrSize <= maxAlloc ->
  exists batchTasks, getBatchTasks t info kvRanges batch = Returns batchTasks.
Proof.
  intros Hbatch Hcap. unfold getBatchTasks.
  assert (makeslice_panics batch = false) as ->
    by (by apply makeslice_panics_false).
  by eexists.
Qed.

(** X8.  For a batch size that [make] accepts as a capacity, one that is
    not negative and whose pointers fit in [maxAlloc] bytes,
    [getBatchTasks] builds one task for each of the first [batch] ranges,
    and one task even when [batch] is zero and there is a range: the size
    is tested after a task was added.  The id of a task is its position in
    the batch, which is what the keeper of [waitTaskResults] counts by. *)
Theorem getBatchTasks_count_ids {codec : Codec} (t : table.t) (info : reorgInfo.t)
    (kvRanges : list kv.KeyRange) (batch : Z) :
  0 <= batch ->
  batch * ptrSize <= maxAlloc ->
  exists batchTasks,
    getBatchTasks t info kvRanges batch = Returns batchTasks /\
    length batchTasks = (length kvRanges `min` Z.to_nat (Z.max batch 1))%nat /\
    forall (j : nat) task,
      batchTasks !! j = Some task -> reorgBackfillTask.id task = Z.of_nat j.
Proof.
  intros Hbatch Hcap.
  destruct (getBatchTasks_returns t info kvRanges batch Hbatch Hcap)
    as (batchTasks & Hrun).
  exists batchTasks. split; [done|].
  split; [by apply (getBatchTasks_length t info kvRanges batch)|].
  unfold getBatchTasks in Hrun. destruct (makeslice_panics batch); [done|].
  injection Hrun as <-. intros j task Hl.
  destruct (getBatchTasks_loop_spec _ _ _ _ _ _ 0 [] j task Hl) as (kr & _ & Hid & _).
  by rewrite Hid.
Qed.

(** X8 for two ranges and the batch size 0: one task is built. *)
Lemma getBatchTasks_count_ids_witness :
  exists batchTasks,
    getBatchTasks (codec := sampleCodec) sampleTable (sampleReorgInfo (sampleStore []))
      [kv.mkKeyRange (keyOf "t1") (keyOf "t3"); kv.mkKeyRange (keyOf "t3") (keyOf "t5")]
      0 = Returns batchTasks /\
    length batchTasks = 1%nat /\
    forall (j : nat) task,
      batchTasks !! j = Some task -> reorgBackfillTask.id task = Z.of_nat j.
Proof.
  refine (getBatchTasks_count_ids (codec := sampleCodec) sampleTable
            (sampleReorgInfo (sampleStore []))
            [kv.mkKeyRange (keyOf "t1") (keyOf "t3");
             kv.mkKeyRange (keyOf "t3") (keyOf "t5")] 0 _ _).
  - lia.
  - vm_compute. discriminate.
Defined.

Lemma bytes_has_prefix_compare p : forall s,
  kv.bytes_has_prefix s p = true -> kv.bytes_compare p s <> Gt.
Proof.
  induction p as [|y p IH]; intros [|x s]; simpl; try done.
  intros H. apply andb_true_iff in H as [Hx Hs].
  apply Byte.byte_dec_bl in Hx. subst x. rewrite N.compare_refl. by apply IH.
Qed.

Lemma HasPrefix_Cmp k prefix : kv.HasPrefix k prefix = true -> kv.Cmp prefix k <= 0.
Proof.
  unfold kv.HasPrefix, kv.Cmp. intros H. apply bytes_has_prefix_compare in H.
  by destruct (kv.bytes_compare (kv.bytes prefix) (kv.bytes k)).
Qed.

(** What [getRangeEndKey] returns without an error is the start key or a
    key with the prefix that is not below the start key. *)
Lemma getRangeEndKey_result store priority keyPrefix startKey endKey endK :
  getRangeEndKey store priority keyPrefix startKey endKey = (endK, None) ->
  endK = startKey \/
  (kv.HasPrefix endK keyPrefix = true /\ 0 <= kv.Cmp endK startKey).
Proof.
  unfold getRangeEndKey. destruct (IterReverse _ _) as [it [e|]]; [done|].
  destruct it as [|key value err rest]; [intros [= <-]; by left|].
  destruct (kv.HasPrefix key keyPrefix) eqn:Hp; simpl; [|intros [= <-]; by left].
  destruct (kv.Cmp key startKey <? 0) eqn:Hc; intros [= <-]; [by left|].
  right. split; [done|lia].
Qed.

Lemma getBatchTasks_loop_keys {codec : Codec} t info prefix total batch kvRanges :
  forall i batchTasks (j : nat) task,
    getBatchTasks_loop t info prefix total batch kvRanges i batchTasks
      !! (length batchTasks + j)%nat = Some task ->
    exists keyRange,
      kvRanges !! j = Some keyRange /\
      let found :=
        getRangeEndKey (reorgInfo.store info) (Job.Priority (reorgInfo.Job info))
          prefix (kv.StartKey keyRange) (kv.EndKey keyRange) in
      let endKey :=
        match snd found with Some _ => kv.EndKey keyRange | None => fst found end in
      reorgBackfillTask.startKey task =
        (if kv.len (kv.StartKey keyRange) =? 0 then prefix else kv.StartKey keyRange) /\
      reorgBackfillTask.endKey task =
        (if kv.len endKey =? 0 then PrefixNext prefix else endKey).
Proof.
  induction kvRanges as [|keyRange kvRanges IH]; intros i batchTasks j task; simpl.
  - intros Hl. apply lookup_lt_Some in Hl. lia.
  - destruct (getRangeEndKey _ _ _ _ _) as [endK err] eqn:Hend.
    set (task0 := reorgBackfillTask.mk _ _ _ _ _ _ _ _ _).
    assert ((batchTasks ++ [task0]) !! length batchTasks = Some task ->
            exists keyRange0,
              Some keyRange = Some keyRange0 /\
              reorgBackfillTask.startKey task =
                (if kv.len (kv.StartKey keyRange0) =? 0 then prefix
                 else kv.StartKey keyRange0) /\
              reorgBackfillTask.endKey task =
                (if kv.len
                      match
                        snd (getRangeEndKey (reorgInfo.store info)
                               (Job.Priority (reorgInfo.Job info)) prefix
                               (kv.StartKey keyRange0) (kv.EndKey keyRange0))
                      with
                      | Some _ => kv.EndKey keyRange0
                      | None =>
                          fst (getRangeEndKey (reorgInfo.store info)
                                 (Job.Priority (reorgInfo.Job info)) prefix
                                 (kv.StartKey keyRange0) (kv.EndKey keyRange0))
                      end =? 0
                 then PrefixNext prefix
                 else
                   match
                     snd (getRangeEndKey (reorgInfo.store info)
                            (Job.Priority (reorgInfo.Job info)) prefix
                            (kv.StartKey keyRange0) (kv.EndKey keyRange0))
                   with
                   | Some _ => kv.EndKey keyRange0
                   | None =>
                       fst (getRangeEndKey (reorgInfo.store info)
                              (Job.Priority (reorgInfo.Job info)) prefix
                              (kv.StartKey keyRange0) (kv.EndKey keyRange0))
                   end)) as Hhere.
    { intros Hl. rewrite list_lookup_middle in Hl by done.
      inversion Hl. subst task. exists keyRange. split; [done|].
      rewrite Hend. by destruct err. }
    destruct (_ >=? batch).
    + intros Hl. destruct j as [|j].
      * rewrite Nat.add_0_r in Hl. by apply Hhere.
      * apply lookup_lt_Some in Hl. rewrite length_app in Hl. simpl in Hl. lia.
    + intros Hl. destruct j as [|j].
      * rewrite Nat.add_0_r in Hl. apply Hhere.
        destruct (getBatchTasks_loop_app t info prefix total batch kvRanges
                    (i + 1) (batchTasks ++ [task0])) as [new Hnew].
        rewrite Hnew in Hl. rewrite lookup_app_l in Hl; [done|].
        rewrite length_app. simpl. lia.
      * replace (length batchTasks + S j)%nat
          with (length (batchTasks ++ [task0]) + j)%nat in Hl
          by (rewrite length_app; simpl; lia).
        by apply IH in Hl.
Qed.

Lemma len_0_Cmp k1 k2 : kv.len k1 = 0 -> kv.Cmp k1 k2 <= 0.
Proof.
  unfold kv.len, kv.Cmp. intros H.
  destruct (kv.bytes k1); [|simpl in H; lia]. by destruct (kv.bytes k2).
Qed.

(** X9.  A task never runs backwards: whenever [getRangeEndKey] finds the
    end of a range without an error, the start key of the task built for
    it is not above the task's end key, whatever the range was (the prefix
    being not above its [PrefixNext]). *)
Theorem getBatchTasks_tasks_not_inverted {codec : Codec} (t : table.t)
    (info : reorgInfo.t) (kvRanges : list kv.KeyRange) (batch : Z)
    (batchTasks : list reorgBackfillTask.t) (j : nat)
    (task : reorgBackfillTask.t) (keyRange : kv.KeyRange) :
  let prefix :=
    if reorgInfo.mergingTmpIdx info then table.IndexPrefix t
    else table.RecordPrefix t in
  getBatchTasks t info kvRanges batch = Returns batchTasks ->
  batchTasks !! j = Some task ->
  kvRanges !! j = Some keyRange ->
  snd (getRangeEndKey (reorgInfo.store info) (Job.Priority (reorgInfo.Job info))
         prefix (kv.StartKey keyRange) (kv.EndKey keyRange)) = None ->
  kv.Cmp prefix (PrefixNext prefix) <= 0 ->
  kv.Cmp (reorgBackfillTask.startKey task) (reorgBackfillTask.endKey task) <= 0.
Proof.
  intros prefix. unfold getBatchTasks.
  destruct (makeslice_panics batch); [done|]. fold prefix. intros [= <-] Hl Hkr Herr Hprefix.
  destruct (getBatchTasks_loop_keys _ _ _ _ _ _ 0 [] j task Hl)
    as (keyRange' & Hkr' & Hs & He).
  rewrite Hkr in Hkr'. injection Hkr' as <-. rewrite Hs, He, Herr.
  destruct (getRangeEndKey _ _ _ _ _) as [endK err] eqn:Hend.
  simpl in Herr. subst err. cbn [fst]. clear Hs He.
  apply getRangeEndKey_result in Hend as [->|[Hp Hc]].
  - destruct (kv.len (kv.StartKey keyRange) =? 0); [done|].
    by rewrite kv_facts.Cmp_refl.
  - destruct (kv.len (kv.StartKey keyRange) =? 0) eqn:Hs0;
      destruct (kv.len endK =? 0) eqn:He0.
    + done.
    + by apply HasPrefix_Cmp.
    + apply Z.eqb_eq in He0. pose proof (len_0_Cmp endK (kv.StartKey keyRange) He0) as H0.
      assert (kv.Cmp endK (kv.StartKey keyRange) = 0) as Heq by lia.
      apply kv_facts.Cmp_eq in Heq. unfold kv.len in *. rewrite <- Heq in Hs0. lia.
    + rewrite kv_facts.Cmp_antisym. lia.
Qed.


(** X9 for the range from [t7] back to [t3] over the keys [t1] and [t5]:
    the task built for it is the empty range at [t7]. *)
Lemma getBatchTasks_tasks_not_inverted_witness :
  exists batchTasks task,
    getBatchTasks (codec := sampleCodec) sampleTable
      (sampleReorgInfo (sampleStore [keyOf "t1"; keyOf "t5"]))
      [kv.mkKeyRange (keyOf "t7") (keyOf "t3")] 1024 = Returns batchTasks /\
    batchTasks !! 0%nat = Some task /\
    kv.Cmp (reorgBackfillTask.startKey task) (reorgBackfillTask.endKey task) <= 0.
Proof.
  eexists. eexists. split; [vm_compute; reflexivity|]. split; [reflexivity|].
  refine (getBatchTasks_tasks_not_inverted (codec := sampleCodec) sampleTable
            (sampleReorgInfo (sampleStore [keyOf "t1"; keyOf "t5"]))
            [kv.mkKeyRange (keyOf "t7") (keyOf "t3")] 1024 _ 0%nat _
            (kv.mkKeyRange (keyOf "t7") (keyOf "t3")) eq_refl eq_refl eq_refl _ _).
  - reflexivity.
  - vm_compute. discriminate.
Defined.


(** ** The ranges of a round *)

Lemma sendTasksAndWait_persists {W : Type} {pool : WorkerPool W}
    (env : reorgEnv) (scheduler : backfillScheduler.t W) (totalAddedCount : Z)
    (batchTasks : list reorgBackfillTask.t) (r : sendResult.t W) :
  sendTasksAndWait env scheduler totalAddedCount batchTasks = Returns r ->
  exists nextKey,
    reorgInfo.persisted (backfillScheduler.reorgInfo (sendResult.scheduler r)) =
      reorgInfo.persisted (backfillScheduler.reorgInfo scheduler) ++ [nextKey].
Proof.
  unfold sendTasksAndWait. destruct batchTasks as [|task0 rest]; [done|].
  destruct (waitTaskResults _ _ _) as [w| |]; [|done|done].
  unfold UpdateReorgMeta. intros Hret. exists (waitResult.nextKey w).
  destruct (waitResult.err w) as [e|]; [|destruct (envRunnable env) as [e|]];
    by inversion Hret.
Qed.

(** X10.  What [handleRangeTasks] hands back for the next round: after
    an error nothing, and otherwise the ranges beyond the batch, which are
    fewer than it was given.  A call with ranges persists exactly one key;
    a call without ranges returns at once, sends nothing and persists
    nothing. *)
Theorem handleRangeTasks_remains {W : Type} {pool : WorkerPool W} {codec : Codec}
    (env : reorgEnv) (backfillTaskChanSize : Z) (scheduler : backfillScheduler.t W)
    (t : table.t) (totalAddedCount : Z) (kvRanges : list kv.KeyRange)
    (r : rangeResult.t W) :
  0 <= backfillTaskChanSize ->
  handleRangeTasks env backfillTaskChanSize scheduler t totalAddedCount kvRanges
    = Returns r ->
  match rangeResult.err r with
  | Some _ => rangeResult.remains r = []
  | None =>
      rangeResult.remains r =
        drop (Z.to_nat (Z.max backfillTaskChanSize 1)) kvRanges
  end /\
  match kvRanges with
  | [] => r = rangeResult.mk [] None totalAddedCount scheduler
  | _ :: _ =>
      (length (rangeResult.remains r) < length kvRanges)%nat /\
      exists nextKey,
        reorgInfo.persisted
          (backfillScheduler.reorgInfo (rangeResult.scheduler r)) =
        reorgInfo.persisted (backfillScheduler.reorgInfo scheduler) ++ [nextKey]
  end.
Proof.
  intros Hsize. unfold handleRangeTasks.
  destruct (getBatchTasks _ _ _ _) as [batchTasks| |] eqn:Hbatch; [|done|done].
  apply getBatchTasks_length in Hbatch as Hlen.
  destruct kvRanges as [|keyRange kvRanges].
  { cbn [length] in Hlen. rewrite Nat.min_0_l in Hlen. rewrite Hlen.
    cbn. intros [= <-]. by rewrite drop_nil. }
  cbn [length] in Hlen.
  destruct (Z.of_nat (length batchTasks) =? 0) eqn:Hz.
  { apply Z.eqb_eq in Hz. lia. }
  destruct (sendTasksAndWait _ _ _ _) as [sr| |] eqn:Hsend; [|done|done].
  apply sendTasksAndWait_persists in Hsend as Hpersist.
  destruct (sendResult.err sr) as [e|].
  { intros [= <-]. cbn [rangeResult.err rangeResult.remains rangeResult.scheduler
      length]. split; [done|]. split; [lia|done]. }
  destruct (_ <? _) eqn:Hlt; intros [= <-]; cbn [rangeResult.err rangeResult.remains
    rangeResult.scheduler].
  - apply Z.ltb_lt in Hlt. cbn [length] in Hlt. split; [|split; [|done]].
    + f_equal. lia.
    + rewrite length_drop. cbn [length]. lia.
  - apply Z.ltb_ge in Hlt. cbn [length] in Hlt. split; [|split; [cbn [length]; lia|done]].
    symmetry. apply drop_ge. cbn [length]. lia.
Qed.

(** X10 for three ranges and a channel of size two: the third range is
    handed back. *)
Lemma handleRangeTasks_remains_witness :
  exists r,
    handleRangeTasks (pool := fixedPool) (codec := sampleCodec)
      {| envWorkers := fun _ => ([sampleResult 1; sampleResult 0], []);
         envRunnable := None;
         envUpdateReorgMeta := fun _ => None |}
      2 (sampleScheduler []) sampleTable 0
      [ kv.mkKeyRange (keyOf "t0") (keyOf "t3");
        kv.mkKeyRange (keyOf "t3") (keyOf "t5");
        kv.mkKeyRange (keyOf "t5") (keyOf "t9") ] = Returns r /\
    rangeResult.err r = None /\
    rangeResult.remains r = [kv.mkKeyRange (keyOf "t5") (keyOf "t9")].
Proof.
  eexists. split; [vm_compute; reflexivity|]. split; [reflexivity|].
  refine (proj1 (handleRangeTasks_remains (pool := fixedPool) (codec := sampleCodec)
            {| envWorkers := fun _ => ([sampleResult 1; sampleResult 0], []);
               envRunnable := None;
               envUpdateReorgMeta := fun _ => None |}
            2 (sampleScheduler []) sampleTable 0
            [ kv.mkKeyRange (keyOf "t0") (keyOf "t3");
              kv.mkKeyRange (keyOf "t3") (keyOf "t5");
              kv.mkKeyRange (keyOf "t5") (keyOf "t9") ] _ _ eq_refl)).
  lia.
Defined.

Lemma waitTaskResults_loop_no_panic {W : Type} {pool : WorkerPool W} results :
  (forall w : W, workerSize w <> 0) ->
  forall (i : Z) (st : waitState.t W), waitTaskResults_loop results i st <> Panics.
Proof.
  intros Hpool. induction results as [|r results IH]; intros i st;
    cbn [waitTaskResults_loop].
  - by destruct (i <? waitState.taskSize st).
  - destruct (i <? waitState.taskSize st); [|done].
    destruct (backfillResult.err r).
    + destruct (drainTasks _). apply IH.
    + unfold int_rem. destruct (workerSize (waitState.workers st) =? 0) eqn:Hws.
      { apply Z.eqb_eq in Hws. by apply Hpool in Hws. }
      destruct (int_mul _ 4 =? 0); [|apply IH].
      destruct (adjustWorkerSize _). apply IH.
Qed.

(** X11.  With a channel size that [make] accepts as a capacity and a pool
    that is never without a worker, [handleRangeTasks] does not panic; it
    returns, or blocks waiting for a result.  A batch that is sent has a
    first task, and no remainder by zero is taken. *)
Theorem handleRangeTasks_no_panic {W : Type} {pool : WorkerPool W} {codec : Codec}
    (env : reorgEnv) (backfillTaskChanSize : Z) (scheduler : backfillScheduler.t W)
    (t : table.t) (totalAddedCount : Z) (kvRanges : list kv.KeyRange) :
  0 <= backfillTaskChanSize ->
  backfillTaskChanSize * ptrSize <= maxAlloc ->
  (forall w : W, workerSize w <> 0) ->
  (exists r,
     handleRangeTasks env backfillTaskChanSize scheduler t totalAddedCount kvRanges
       = Returns r) \/
  handleRangeTasks env backfillTaskChanSize scheduler t totalAddedCount kvRanges
    = Blocks.
Proof.
  intros Hsize Hcap Hpool. unfold handleRangeTasks.
  destruct (getBatchTasks_returns t (backfillScheduler.reorgInfo scheduler)
              kvRanges backfillTaskChanSize Hsize Hcap) as (batchTasks & ->).
  destruct (Z.of_nat (length batchTasks) =? 0) eqn:Hz; [left; by eexists|].
  destruct batchTasks as [|task0 rest]; [done|].
  unfold sendTasksAndWait, waitTaskResults.
  pose proof (waitTaskResults_loop_no_panic
                (backfillScheduler.resultCh (sendTasks env scheduler (task0 :: rest)))
                Hpool 0) as Hloop.
  match goal with
  | |- context [waitTaskResults_loop ?rs 0 ?st] =>
      specialize (Hloop st); destruct (waitTaskResults_loop rs 0 st) as [[st' rc]| |]
  end; [|by right|done].
  left. cbn. destruct (waitState.firstErr st') as [e|]; [by eexists|].
  destruct (envRunnable env); [by eexists|]. cbn.
  destruct (_ <? _); by eexists.
Qed.

(** X11 for three ranges, a channel of size two and workers that deliver
    the result of the second task only: the call blocks, it does not
    panic. *)
Lemma handleRangeTasks_no_panic_witness :
  let env :=
    {| envWorkers := fun _ => ([sampleResult 1], []);
       envRunnable := None;
       envUpdateReorgMeta := fun _ => None |} in
  let kvRanges :=
    [ kv.mkKeyRange (keyOf "t0") (keyOf "t3");
      kv.mkKeyRange (keyOf "t3") (keyOf "t5");
      kv.mkKeyRange (keyOf "t5") (keyOf "t9") ] in
  ((exists r,
      handleRangeTasks (pool := fixedPool) (codec := sampleCodec)
        env 2 (sampleScheduler []) sampleTable 0 kvRanges = Returns r) \/
   handleRangeTasks (pool := fixedPool) (codec := sampleCodec)
     env 2 (sampleScheduler []) sampleTable 0 kvRanges = Blocks) /\
  handleRangeTasks (pool := fixedPool) (codec := sampleCodec)
    env 2 (sampleScheduler []) sampleTable 0 kvRanges = Blocks.
Proof.
  cbn zeta. split; [|by vm_compute].
  apply (handleRangeTasks_no_panic (pool := fixedPool) (codec := sampleCodec)
           {| envWorkers := fun _ => ([sampleResult 1], []);
              envRunnable := None;
              envUpdateReorgMeta := fun _ => None |}
           2 (sampleScheduler []) sampleTable 0
           [ kv.mkKeyRange (keyOf "t0") (keyOf "t3");
             kv.mkKeyRange (keyOf "t3") (keyOf "t5");
             kv.mkKeyRange (keyOf "t5") (keyOf "t9") ]).
  - lia.
  - vm_compute. discriminate.
  - intros w. cbn. lia.
Defined.


(** ** The loop of a worker *)

(** X12.  When a worker's loop ends, it has delivered one result for each
    task it took off the channel, in the same order: what
    [handleBackfillTask] returned for the task or, where handling the task
    panicked, the recovered result with the task's id and [ErrReorgPanic].
    Only the last of them can carry an error, for the worker stops at its
    first failed task and at a panic; the tasks it did not take are still
    in the channel. *)
Theorem run_stops_at_first_failure (cancelled : nat -> bool)
    (script : reorgBackfillTask.t -> taskScript) (closed : bool)
    (taskCh : list reorgBackfillTask.t) (i : nat)
    (resultCh resultCh' : list backfillResult.t)
    (taskCh' : list reorgBackfillTask.t) :
  run cancelled script closed taskCh i resultCh = Some (Returns (resultCh', taskCh')) ->
  exists taken results,
    taskCh = taken ++ taskCh' /\
    resultCh' = resultCh ++ results /\
    Forall2 (fun task result =>
               handleBackfillTask_call (script task) task = Some (Returns result) \/
               (handleBackfillTask_call (script task) task = Some Panics /\
                result = recoveredResult (reorgBackfillTask.id task)))
      taken results /\
    forall (j : nat) result,
      results !! j = Some result -> backfillResult.err result <> None ->
      S j = length results.
Proof.
  assert (forall (resultCh0 : list backfillResult.t)
                 (taskCh0 : list reorgBackfillTask.t),
    exists taken results,
      taskCh0 = taken ++ taskCh0 /\
      resultCh0 = resultCh0 ++ results /\
      Forall2 (fun task result =>
                 handleBackfillTask_call (script task) task = Some (Returns result) \/
                 (handleBackfillTask_call (script task) task = Some Panics /\
                  result = recoveredResult (reorgBackfillTask.id task)))
        taken results /\
      forall (j : nat) result,
        results !! j = Some result -> backfillResult.err result <> None ->
        S j = length results) as Hnone.
  { intros resultCh0 taskCh0. exists [], []. rewrite app_nil_r.
    split; [done|]. split; [done|]. split; [constructor|]. by intros []. }
  revert i resultCh. induction taskCh as [|task taskCh IH]; intros i resultCh; simpl.
  - destruct (cancelled i).
    + intros [= <- <-]. apply Hnone.
    + destruct closed; [|done]. intros [= <- <-]. apply Hnone.
  - destruct (cancelled i).
    { intros [= <- <-]. apply Hnone. }
    destruct (handleBackfillTask_call (script task) task) as [[result| |]|] eqn:Hh;
      [|done| |done].
    + destruct (backfillResult.err result) as [e|] eqn:He.
      * intros [= <- <-]. exists [task], [result]. repeat split.
        -- constructor; [by left|constructor].
        -- intros [|j] r Hr _; [done|]. by destruct j.
      * intros Hrun. apply IH in Hrun as (taken & results & -> & -> & Hall & Hlast).
        exists (task :: taken), (result :: results). rewrite <- app_assoc. repeat split.
        -- constructor; [by left|done].
        -- intros [|j] r Hr Hr'.
           ++ injection Hr as <-. by rewrite He in Hr'.
           ++ simpl. f_equal. by apply (Hlast j r).
    + intros [= <- <-].
      exists [task], [recoveredResult (reorgBackfillTask.id task)]. repeat split.
      * constructor; [by right|constructor].
      * intros [|j] r Hr _; [done|]. by destruct j.
Qed.

(** X13.  A worker that is not cancelled and whose tasks are all handled
    without an error and without a panic empties a closed task channel and
    delivers one result for each task. *)
Theorem run_takes_all (cancelled : nat -> bool)
    (script : reorgBackfillTask.t -> taskScript)
    (taskCh : list reorgBackfillTask.t) (i : nat) (resultCh : list backfillResult.t)
    (handled : reorgBackfillTask.t -> backfillResult.t) :
  (forall j, cancelled j = false) ->
  Forall (fun task =>
            handleBackfillTask_call (script task) task = Some (Returns (handled task)) /\
            backfillResult.err (handled task) = None) taskCh ->
  run cancelled script true taskCh i resultCh
    = Some (Returns (resultCh ++ (handled <$> taskCh), [])).
Proof.
  intros Hc. revert i resultCh.
  induction taskCh as [|task taskCh IH]; intros i resultCh Hall; simpl; rewrite Hc.
  - by rewrite app_nil_r.
  - apply Forall_cons in Hall as [[Hh He] Hall].
    rewrite Hh, He, IH by done. by rewrite <- app_assoc.
Qed.

(** X12 for a worker whose first task finds the job cancelled after a
    batch, and for a worker for which handling the second task panics. *)
Lemma run_stops_at_first_failure_witness :
  let failed := backfillResult.mk 0 3 4 (keyOf "a5") (Some ErrReorgCancelled) in
  let queued :=
    [sampleTask 1 (keyOf "b") (keyOf "c"); sampleTask 2 (keyOf "c") (keyOf "d")] in
  let script := fun task =>
    if reorgBackfillTask.id task =? 1 then PanicsAfter (take 1 sampleTwoBatches)
    else Handles sampleTwoBatches in
  run (fun _ => false) (fun _ => Handles sampleRounds) true sampleTasks 0 []
    = Some (Returns ([failed], queued)) /\
  run (fun _ => false) script true sampleTasks 0 []
    = Some (Returns ([backfillResult.mk 0 5 6 (kv.Next (kv.Next (keyOf "a"))) None;
                      recoveredResult 1],
                     [sampleTask 2 (keyOf "c") (keyOf "d")])) /\
  exists taken results,
    sampleTasks = taken ++ [sampleTask 2 (keyOf "c") (keyOf "d")] /\
    [backfillResult.mk 0 5 6 (kv.Next (kv.Next (keyOf "a"))) None; recoveredResult 1]
      = [] ++ results /\
    Forall2 (fun task result =>
               handleBackfillTask_call (script task) task = Some (Returns result) \/
               (handleBackfillTask_call (script task) task = Some Panics /\
                result = recoveredResult (reorgBackfillTask.id task)))
      taken results /\
    forall (j : nat) result,
      results !! j = Some result -> backfillResult.err result <> None ->
      S j = length results.
Proof.
  cbn zeta. split; [reflexivity|]. split; [reflexivity|].
  exact (run_stops_at_first_failure (fun _ => false)
           (fun task =>
              if reorgBackfillTask.id task =? 1 then PanicsAfter (take 1 sampleTwoBatches)
              else Handles sampleTwoBatches)
           true sampleTasks 0 [] _ _ eq_refl).
Defined.

(** X13 for two tasks of two batches each. *)
Lemma run_takes_all_witness :
  exists results,
    run (fun _ => false) (fun _ => Handles sampleTwoBatches) true
      [sampleTask 0 (keyOf "a") (keyOf "b"); sampleTask 1 (keyOf "b") (keyOf "c")] 0 []
      = Some (Returns (results, [])) /\
    backfillResult.taskID <$> results = [0; 1].
Proof.
  eexists. split.
  - refine (run_takes_all (fun _ => false) (fun _ => Handles sampleTwoBatches)
              [sampleTask 0 (keyOf "a") (keyOf "b");
               sampleTask 1 (keyOf "b") (keyOf "c")] 0 []
              (fun task =>
                 backfillResult.mk (reorgBackfillTask.id task) 5 6
                   (kv.Next (kv.Next (reorgBackfillTask.startKey task))) None) _ _).
    + done.
    + repeat constructor.
  - reflexivity.
Defined.

(** ** Merging the warnings of a batch *)

Section warnings_facts.
Context {ErrorID : Type} `{Countable ErrorID} {Warn : Type}.
Variable ID : Warn -> ErrorID.

Lemma mergeWarningsAndWarningsCount_range_spec (warns : list Warn)
    (partWarningsCount : gmap ErrorID Z) :
  forall (totalWarnings : gmap ErrorID Warn) (totalWarningsCount : gmap ErrorID Z),
    NoDup (ID <$> warns) ->
    exists warnings counts,
      mergeWarningsAndWarningsCount_range ID warns (Some totalWarnings)
        partWarningsCount (Some totalWarningsCount)
        = Returns (Some warnings, Some counts) /\
      forall id,
        (id ∉ ID <$> warns ->
         counts !! id = totalWarningsCount !! id /\
         warnings !! id = totalWarnings !! id) /\
        (forall warn, warn ∈ warns -> ID warn = id ->
           counts !! id =
             Some (match totalWarningsCount !! id with
                   | Some count => int_add count (default 0 (partWarningsCount !! id))
                   | None => default 0 (partWarningsCount !! id)
                   end) /\
           warnings !! id =
             match totalWarningsCount !! id with
             | Some _ => totalWarnings !! id
             | None => Some warn
             end).
Proof using Type.
  unfold mergeWarningsAndWarningsCount_range.
  induction warns as [|w0 warns IH]; intros tw tc Hnd.
  - exists tw, tc. split; [done|]. intros id. split; [done|].
    intros warn Hin. by apply elem_of_nil in Hin.
  - cbn [fmap list_fmap] in Hnd. apply NoDup_cons in Hnd as [Hw0 Hnd].
    cbn [foldl mergeWarning mapaccess mapassign mbind option_bind].
    set (tc1 := match tc !! ID w0 with
                | Some count =>
                    <[ID w0 := int_add count (default 0 (partWarningsCount !! ID w0))]> tc
                | None => <[ID w0 := default 0 (partWarningsCount !! ID w0)]> tc
                end).
    set (tw1 := match tc !! ID w0 with
                | Some _ => tw
                | None => <[ID w0 := w0]> tw
                end).
    destruct (IH tw1 tc1 Hnd) as (warnings & counts & Hrun & Hspec).
    exists warnings, counts. split.
    { rewrite <- Hrun. unfold tw1, tc1. by destruct (tc !! ID w0). }
    assert (forall id, id <> ID w0 -> tc1 !! id = tc !! id /\ tw1 !! id = tw !! id)
      as Hother.
    { intros id Hne. unfold tc1, tw1.
      destruct (tc !! ID w0); by rewrite ?lookup_insert_ne. }
    assert (tc1 !! ID w0 =
              Some (match tc !! ID w0 with
                    | Some count =>
                        int_add count (default 0 (partWarningsCount !! ID w0))
                    | None => default 0 (partWarningsCount !! ID w0)
                    end) /\
            tw1 !! ID w0 =
              match tc !! ID w0 with
              | Some _ => tw !! ID w0
              | None => Some w0
              end) as Hhere.
    { unfold tc1, tw1. destruct (tc !! ID w0); by rewrite ?lookup_insert_eq. }
    intros id. destruct (Hspec id) as [Hout Hin]. split.
    + intros Hid. cbn [fmap list_fmap] in Hid. apply not_elem_of_cons in Hid as [Hne Hid].
      destruct (Hout Hid) as [-> ->]. by apply Hother.
    + intros warn Hwarn Hidw. apply elem_of_cons in Hwarn as [->|Hwarn].
      * subst id. destruct (Hout Hw0) as [-> ->]. exact Hhere.
      * assert (id <> ID w0) as Hne.
        { intros ->. apply Hw0. rewrite <- Hidw. by apply list_elem_of_fmap_2. }
        destruct (Hin warn Hwarn Hidw) as [-> ->].
        by destruct (Hother id Hne) as [-> ->].
Qed.

(** X14.  Merging the warnings of a part into totals that are not [nil],
    the part being keyed by the ids of its warnings: in whatever order the
    warnings are taken, the count of an id of the part is added (in 64 bits)
    to the total count of that id, or becomes it; and a warning of the part
    is recorded exactly when its id had no total count before, whatever was
    recorded for the id.  The ids that are not in the part keep their
    entries. *)
Theorem mergeWarningsAndWarningsCount_range_lookup (warns : list Warn)
    (partWarnings totalWarnings : gmap ErrorID Warn)
    (partWarningsCount totalWarningsCount : gmap ErrorID Z) :
  warns ≡ₚ (map_to_list partWarnings).*2 ->
  (forall id warn, partWarnings !! id = Some warn -> ID warn = id) ->
  exists warnings counts,
    mergeWarningsAndWarningsCount_range ID warns (Some totalWarnings)
      partWarningsCount (Some totalWarningsCount)
      = Returns (Some warnings, Some counts) /\
    forall id,
      counts !! id =
        match partWarnings !! id, totalWarningsCount !! id with
        | Some _, Some count =>
            Some (int_add count (default 0 (partWarningsCount !! id)))
        | Some _, None => Some (default 0 (partWarningsCount !! id))
        | None, count => count
        end /\
      warnings !! id =
        match partWarnings !! id, totalWarningsCount !! id with
        | Some warn, None => Some warn
        | _, _ => totalWarnings !! id
        end.
Proof using Type.
  intros Hperm Hkeyed.
  assert (forall warn, warn ∈ warns <-> partWarnings !! ID warn = Some warn) as Hmem.
  { intros warn. rewrite Hperm, list_elem_of_fmap. split.
    - intros ([id w] & -> & Hin). apply elem_of_map_to_list in Hin. simpl.
      by rewrite (Hkeyed _ _ Hin).
    - intros Hl. exists (ID warn, warn). split; [done|]. by apply elem_of_map_to_list. }
  assert (ID <$> warns ≡ₚ (map_to_list partWarnings).*1) as Hids.
  { rewrite Hperm. rewrite <- list_fmap_compose.
    erewrite list_fmap_ext; [done|]. intros i [id w] Hl. simpl.
    apply list_elem_of_lookup_2, elem_of_map_to_list in Hl. by apply Hkeyed. }
  assert (NoDup (ID <$> warns)) as Hnd.
  { rewrite Hids. apply NoDup_fst_map_to_list. }
  destruct (mergeWarningsAndWarningsCount_range_spec warns partWarningsCount
              totalWarnings totalWarningsCount Hnd)
    as (warnings & counts & Hrun & Hspec).
  exists warnings, counts. split; [done|]. intros id.
  destruct (Hspec id) as [Hout Hin].
  destruct (partWarnings !! id) as [warn|] eqn:Hpart.
  - pose proof (Hkeyed _ _ Hpart) as Hid. subst id.
    destruct (Hin warn) as [-> ->]; [by apply Hmem|done|].
    by destruct (totalWarningsCount !! ID warn).
  - destruct Hout as [-> ->]; [|by destruct (totalWarningsCount !! id)].
    intros Hid. apply list_elem_of_fmap in Hid as (warn & -> & Hwarn).
    apply Hmem in Hwarn. congruence.
Qed.

(** X15.  The total maps must have been made: merging a part that has a
    warning into a total count map that is [nil] panics, in whatever order
    the warnings are taken; so does merging it into a [nil] map of total
    warnings when no id of the part has a total count yet. *)
Theorem mergeWarningsAndWarningsCount_range_nil (warns : list Warn)
    (totalWarnings : option (gmap ErrorID Warn))
    (partWarningsCount totalWarningsCount : gmap ErrorID Z) :
  warns <> [] ->
  mergeWarningsAndWarningsCount_range ID warns totalWarnings partWarningsCount None
    = Panics /\
  ((forall warn, warn ∈ warns -> totalWarningsCount !! ID warn = None) ->
   mergeWarningsAndWarningsCount_range ID warns None partWarningsCount
     (Some totalWarningsCount) = Panics).
Proof using Type.
  assert (forall l, foldl (mergeWarning ID partWarningsCount) Panics l = Panics)
    as Hpanics by (by induction l).
  unfold mergeWarningsAndWarningsCount_range.
  destruct warns as [|w0 warns]; [done|]. intros _. split.
  - cbn [foldl mergeWarning mapaccess mapassign mbind option_bind]. apply Hpanics.
  - intros Hnone. cbn [foldl mergeWarning mapaccess mapassign mbind option_bind].
    rewrite (Hnone w0) by by left. apply Hpanics.
Qed.

End warnings_facts.


(** X14 for a part with the warnings [dup], three times, and [trunc], once,
    merged into totals that have [dup] twice: [dup] is counted five times
    and keeps the warning recorded before, [trunc] is new. *)
Lemma mergeWarningsAndWarningsCount_range_lookup_witness :
  exists warnings counts,
    mergeWarningsAndWarningsCount fst samplePartWarnings
      (Some {["dup" := ("dup", "first duplicate")]}) samplePartWarningsCount
      (Some {["dup" := 2]})
      = Returns (Some warnings, Some counts) /\
    counts !! "dup" = Some 5 /\
    counts !! "trunc" = Some 1 /\
    warnings !! "dup" = Some ("dup", "first duplicate") /\
    warnings !! "trunc" = Some ("trunc", "data truncated").
Proof.
  destruct (mergeWarningsAndWarningsCount_range_lookup fst
              (map_to_list samplePartWarnings).*2 samplePartWarnings
              {["dup" := ("dup", "first duplicate")]} samplePartWarningsCount
              {["dup" := 2]})
    as (warnings & counts & Hrun & Hspec).
  - reflexivity.
  - intros id warn Hl. unfold samplePartWarnings in Hl.
    apply lookup_insert_Some in Hl as [[<- <-]|[_ Hl]]; [done|].
    by apply lookup_singleton_Some in Hl as [<- <-].
  - exists warnings, counts. split; [exact Hrun|].
    destruct (Hspec "dup") as [Hc1 Hw1]. destruct (Hspec "trunc") as [Hc2 Hw2].
    split; [exact Hc1|]. split; [exact Hc2|]. split; [exact Hw1|exact Hw2].
Defined.

(** X15 for a part with one warning. *)
Lemma mergeWarningsAndWarningsCount_range_nil_witness :
  mergeWarningsAndWarningsCount_range fst [("dup", "duplicate entry")]
    (Some ∅) samplePartWarningsCount None = Panics /\
  mergeWarningsAndWarningsCount_range fst [("dup", "duplicate entry")]
    None samplePartWarningsCount (Some {["trunc" := 4]}) = Panics.
Proof.
  destruct (mergeWarningsAndWarningsCount_range_nil (@fst string string)
              [("dup", "duplicate entry")] (Some ∅) samplePartWarningsCount
              {["trunc" := 4]}) as [Hcount Hwarn].
  - discriminate.
  - split; [exact Hcount|]. apply Hwarn.
    intros warn Hin. apply list_elem_of_singleton in Hin. by subst warn.
Defined.


(** ** Iterating the rows of a snapshot *)

Lemma iterateSnapshotKeys_loop_stops {A : Type} {codec : Codec} isRecord keyPrefix
    (fn : recordIterFunc A) fuel :
  forall it a calls a' calls' err,
    iterateSnapshotKeys_loop fuel isRecord keyPrefix (traced fn) it (a, calls)
      = Some ((a', calls'), err) ->
    exists new,
      calls' = calls ++ new /\
      forall (j : nat) key more ferr,
        new !! j = Some (key, (more, ferr)) ->
        more = false \/ ferr <> None ->
        S j = length new /\ err = ferr.
Proof.
  induction fuel as [fuel IH] using lt_wf_ind.
  intros it a calls a' calls' err.
  assert (forall err0 : option error,
    exists new : list (kv.Key * (bool * option error)),
      calls = calls ++ new /\
      forall (j : nat) key more ferr,
        new !! j = Some (key, (more, ferr)) ->
        more = false \/ ferr <> None ->
        S j = length new /\ err0 = ferr) as Hnone.
  { intros err0. exists []. rewrite app_nil_r. split; [done|]. by intros []. }
  destruct it as [|key value nerr rest].
  { destruct fuel; intros [= <- <- <-]; apply Hnone. }
  rewrite iterateSnapshotKeys_loop_ItAt.
  destruct (kv.HasPrefix key keyPrefix) eqn:Hp; simpl negb; cbv iota;
    [|intros [= <- <- <-]; apply Hnone].
  destruct (if isRecord then _ else _) as [handle [e|]];
    [intros [= <- <- <-]; apply Hnone|].
  unfold traced at 1. cbn [fst snd].
  destruct (fn a handle key value) as [a1 [more ferr]].
  destruct (negb more || _) eqn:Hstop.
  { intros [= <- <- <-]. exists [(key, (more, ferr))]. split; [done|].
    intros [|j] key0 more0 ferr0 Hl _; [|by destruct j].
    by injection Hl as <- <- <-. }
  assert (more = true /\ ferr = None) as [-> ->]
    by (destruct more, ferr; by simpl in Hstop).
  assert (forall err0 : option error,
    exists new : list (kv.Key * (bool * option error)),
      calls ++ [(key, (true, None))] = calls ++ new /\
      forall (j : nat) key0 more ferr,
        new !! j = Some (key0, (more, ferr)) ->
        more = false \/ ferr <> None ->
        S j = length new /\ err0 = ferr) as Hone.
  { intros err0. exists [(key, (true, None))]. split; [done|].
    intros [|j] key0 more0 ferr0 Hl Hor; [|by destruct j].
    injection Hl as <- <- <-. by destruct Hor. }
  destruct (NextUntil _ _) as [it' [e|]] eqn:Hn;
    [destruct (isErrNotExist e); intros [= <- <- <-]; apply Hone|].
  destruct fuel as [|fuel]; [done|].
  intros Hrun.
  destruct (IH fuel ltac:(lia) _ _ _ _ _ _ Hrun) as (new & -> & Hnew).
  exists ((key, (true, None)) :: new). split; [by rewrite <- app_assoc|].
  intros [|j] key0 more0 ferr0 Hl Hor.
  - injection Hl as <- <- <-. by destruct Hor.
  - destruct (Hnew j key0 more0 ferr0 Hl Hor) as [Hlen ->]. split; [|done].
    simpl. by rewrite Hlen.
Qed.

(** X16.  The callback ends the iteration: a call in which it asks for no
    more, or returns an error, is the last one, and what
    [iterateSnapshotKeys] returns is the error of that call, [nil] when
    the callback only asked for no more. *)
Theorem iterateSnapshotKeys_callback_stops {A : Type} {codec : Codec}
    (store : Storage.t) (priority : Z) (keyPrefix : kv.Key) (version : Z)
    (startKey endKey : kv.Key) (fn : recordIterFunc A) (a a' : A)
    (calls : list (kv.Key * (bool * option error))) (err : option error)
    (j : nat) (key : kv.Key) (more : bool) (ferr : option error) :
  iterateSnapshotKeys store priority keyPrefix version startKey endKey
    (traced fn) (a, []) = Some ((a', calls), err) ->
  calls !! j = Some (key, (more, ferr)) ->
  more = false \/ ferr <> None ->
  S j = length calls /\ err = ferr.
Proof.
  unfold iterateSnapshotKeys. destruct (Iter _ _ _) as [it [e|]].
  { by intros [= <- <- <-]. }
  intros Hrun. apply iterateSnapshotKeys_loop_stops in Hrun as (new & -> & Hnew).
  apply Hnew.
Qed.

(** Where [NextUntil] comes to rest without an error, the key satisfies the
    condition. *)
Lemma NextUntil_rests it fn it' :
  NextUntil it fn = (it', None) ->
  match it' with
  | ItEnd => True
  | ItAt key _ _ _ => fn key = true
  end.
Proof.
  induction it as [|key value err rest IH]; simpl.
  - by intros [= <-].
  - destruct (fn key) eqn:Hfn; [by intros [= <-]|].
    destruct err; [done|]. apply IH.
Qed.

Lemma iterateSnapshotKeys_loop_rows {A : Type} {codec : Codec} isRecord keyPrefix
    (fn : recordIterFunc A) fuel :
  forall it a keys a' keys' err,
    iterateSnapshotKeys_loop fuel isRecord keyPrefix (logged fn) it (a, keys)
      = Some ((a', keys'), err) ->
    exists new,
      keys' = keys ++ new /\
      (forall k, head new = Some k -> head (iterator_keys it) = Some k) /\
      forall (j : nat) k1 k2,
        new !! j = Some k1 -> new !! S j = Some k2 -> kv.HasPrefix k2 k1 = false.
Proof.
  induction fuel as [fuel IH] using lt_wf_ind.
  intros it a keys a' keys' err.
  assert (forall it0 : Iterator,
    exists new : list kv.Key,
      keys = keys ++ new /\
      (forall k, head new = Some k -> head (iterator_keys it0) = Some k) /\
      forall (j : nat) k1 k2,
        new !! j = Some k1 -> new !! S j = Some k2 -> kv.HasPrefix k2 k1 = false)
    as Hnone.
  { intros it0. exists []. rewrite app_nil_r. by repeat split. }
  destruct it as [|key value nerr rest].
  { destruct fuel; intros [= <- <- <-]; apply Hnone. }
  rewrite iterateSnapshotKeys_loop_ItAt.
  destruct (kv.HasPrefix key keyPrefix) eqn:Hp; simpl negb; cbv iota;
    [|intros [= <- <- <-]; apply Hnone].
  destruct (if isRecord then _ else _) as [handle [e|]];
    [intros [= <- <- <-]; apply Hnone|].
  unfold logged at 1. cbn [fst snd].
  destruct (fn a handle key value) as [a1 [more ferr]].
  assert (exists new : list kv.Key,
      keys ++ [key] = keys ++ new /\
      (forall k, head new = Some k ->
                 head (iterator_keys (ItAt key value nerr rest)) = Some k) /\
      forall (j : nat) k1 k2,
        new !! j = Some k1 -> new !! S j = Some k2 -> kv.HasPrefix k2 k1 = false)
    as Hone.
  { exists [key]. split; [done|]. split; [done|]. by intros [|j] k1 k2 H1 H2. }
  destruct (negb more || _); [intros [= <- <- <-]; apply Hone|].
  destruct (NextUntil _ _) as [it' [e|]] eqn:Hn;
    [destruct (isErrNotExist e); intros [= <- <- <-]; apply Hone|].
  destruct fuel as [|fuel]; [done|].
  intros Hrun. apply NextUntil_rests in Hn.
  destruct (IH fuel ltac:(lia) _ _ _ _ _ _ Hrun) as (new & -> & Hhead & Hnew).
  exists (key :: new). split; [by rewrite <- app_assoc|]. split; [done|].
  intros [|j] k1 k2 H1 H2.
  - injection H1 as <-. cbn in H2.
    assert (head new = Some k2) as Hk2 by (by destruct new).
    apply Hhead in Hk2. destruct it' as [|key' value' nerr' rest']; [done|].
    injection Hk2 as <-. unfold RowKeyPrefixFilter in Hn.
    by apply negb_true_iff in Hn.
  - by apply (Hnew j).
Qed.

(** X17.  The callback is called once for a row: after a call for a key,
    the entries that follow and have that key as a prefix are skipped, so
    the next key the callback is called with does not have it as a
    prefix. *)
Theorem iterateSnapshotKeys_one_call_per_row {A : Type} {codec : Codec}
    (store : Storage.t) (priority : Z) (keyPrefix : kv.Key) (version : Z)
    (startKey endKey : kv.Key) (fn : recordIterFunc A) (a a' : A)
    (keys : list kv.Key) (err : option error) (j : nat) (k1 k2 : kv.Key) :
  iterateSnapshotKeys store priority keyPrefix version startKey endKey
    (logged fn) (a, []) = Some ((a', keys), err) ->
  keys !! j = Some k1 ->
  keys !! S j = Some k2 ->
  kv.HasPrefix k2 k1 = false.
Proof.
  unfold iterateSnapshotKeys. destruct (Iter _ _ _) as [it [e|]].
  { by intros [= <- <- <-]. }
  intros Hrun. apply iterateSnapshotKeys_loop_rows in Hrun as (new & -> & _ & Hnew).
  apply Hnew.
Qed.


Section covers.
Context {A : Type} {codec : Codec}.
Variable nextErr : kv.Key -> option error.
Hypothesis next_ok : forall k, nextErr k = None.
Variable isRecord : bool.
Hypothesis decode_ok : isRecord = true -> forall key, snd (DecodeRowKey key) = None.
Variable fn : recordIterFunc A.
Hypothesis fn_more : forall a handle key value, snd (fn a handle key value) = (true, None).

Lemma NextUntil_iteratorOf cond entries :
  exists skipped suffix,
    entries = skipped ++ suffix /\
    Forall (fun e => cond (fst e) = false) skipped /\
    NextUntil (iteratorOf nextErr entries) cond = (iteratorOf nextErr suffix, None).
Proof using next_ok.
  induction entries as [|[key value] entries IH].
  - by exists [], [].
  - simpl. destruct (cond key) eqn:Hc.
    + by exists [], ((key, value) :: entries).
    + rewrite next_ok. destruct IH as (skipped & suffix & -> & Hall & ->).
      exists ((key, value) :: skipped), suffix. split; [done|]. split; [|done].
      by constructor.
Qed.

Lemma iterateSnapshotKeys_loop_covers keyPrefix fuel :
  forall entries a keys,
    (length entries <= fuel)%nat ->
    exists a' new,
      iterateSnapshotKeys_loop fuel isRecord keyPrefix (logged fn)
        (iteratorOf nextErr entries) (a, keys) = Some ((a', keys ++ new), None) /\
      forall (i : nat) e,
        entries !! i = Some e ->
        Forall (fun x => kv.HasPrefix (fst x) keyPrefix = true) (take (S i) entries) ->
        exists v, v ∈ new /\ kv.HasPrefix (fst e) v = true.
Proof using next_ok decode_ok fn_more.
  induction fuel as [|fuel IH]; intros entries a keys Hlen.
  { destruct entries; [|simpl in Hlen; lia]. exists a, []. rewrite app_nil_r.
    split; [done|]. by intros i e Hl. }
  destruct entries as [|[key value] entries].
  { exists a, []. rewrite app_nil_r. split; [done|]. by intros i e Hl. }
  cbn [iteratorOf]. rewrite iterateSnapshotKeys_loop_ItAt.
  destruct (kv.HasPrefix key keyPrefix) eqn:Hp; simpl negb; cbv iota.
  2:{ exists a, []. rewrite app_nil_r. split; [done|].
      intros i e Hl Hall. cbn [take] in Hall. apply Forall_cons in Hall as [Hkey _].
      simpl in Hkey. congruence. }
  assert ((if isRecord
           then let '(h, err) := DecodeRowKey key in (Some h, err)
           else (None, None)) =
          (if isRecord then Some (fst (DecodeRowKey key)) else None, None)) as ->.
  { destruct isRecord; [|done]. pose proof (decode_ok eq_refl key) as Hd.
    destruct (DecodeRowKey key) as [h derr]. simpl in *. by subst. }
  unfold logged at 1. cbn [fst snd].
  pose proof (fn_more a (if isRecord then Some (fst (DecodeRowKey key)) else None)
                key value) as Hfn.
  destruct (fn a _ key value) as [a1 res]. simpl in Hfn. subst res.
  cbn [negb orb]. cbn [NextUntil]. rewrite RowKeyPrefixFilter_self, next_ok.
  destruct (NextUntil_iteratorOf (RowKeyPrefixFilter key) entries)
    as (skipped & suffix & -> & Hskipped & ->).
  assert (length suffix <= fuel)%nat as Hlen'.
  { simpl in Hlen. rewrite length_app in Hlen. lia. }
  destruct (IH suffix a1 (keys ++ [key]) Hlen') as (a' & new & Hrun & Hcov).
  exists a', (key :: new). split.
  { rewrite Hrun. by rewrite <- app_assoc. }
  intros i e Hl Hall. destruct i as [|i].
  - injection Hl as <-. exists key. split; [by left|]. simpl.
    apply bytes_has_prefix_refl.
  - cbn [lookup list_lookup] in Hl. change (list_lookup i (skipped ++ suffix))
      with ((skipped ++ suffix) !! i) in Hl.
    apply lookup_app_Some in Hl as [Hl|[Hge Hl]].
    + exists key. split; [by left|].
      rewrite Forall_forall in Hskipped.
      apply list_elem_of_lookup_2, Hskipped in Hl. unfold RowKeyPrefixFilter in Hl.
      by apply negb_false_iff in Hl.
    + destruct (Hcov _ _ Hl) as (v & Hv & Hpv).
      * replace (S (S i))
          with (length ((key, value) :: skipped) + S (i - length skipped))%nat
          in Hall by (cbn [length]; lia).
        change ((key, value) :: skipped ++ suffix)
          with (((key, value) :: skipped) ++ suffix) in Hall.
        rewrite take_app_add in Hall.
        by apply Forall_app in Hall as [_ Hall].
      * exists v. split; [by right|done].
Qed.

End covers.

(** X18.  No row is left out.  On a snapshot whose iterator does not fail,
    with row keys that decode and a callback that always asks for more,
    [iterateSnapshotKeys] returns [nil], and every key in range that comes
    before the first key without [keyPrefix] was given to the callback or
    has such a key as a prefix, that is, belongs to its row. *)
Theorem iterateSnapshotKeys_covers {A : Type} {codec : Codec}
    (store : Storage.t) (priority : Z) (keyPrefix : kv.Key) (version : Z)
    (startKey endKey : kv.Key) (fn : recordIterFunc A) (a : A) :
  let snap := Storage.snapshot store version in
  let inRange :=
    iterator_keys
      (fst (Iter snap (firstKeyOf keyPrefix startKey) (upperBoundOf keyPrefix endKey))) in
  Snapshot.iterErr snap = None ->
  (forall k, Snapshot.nextErr snap k = None) ->
  (IsRecordKey (kv.Next keyPrefix) = true ->
   forall key, snd (DecodeRowKey key) = None) ->
  (forall a0 handle key value, snd (fn a0 handle key value) = (true, None)) ->
  exists a' keys,
    iterateSnapshotKeys store priority keyPrefix version startKey endKey
      (logged fn) (a, []) = Some ((a', keys), None) /\
    forall (i : nat) k,
      inRange !! i = Some k ->
      Forall (fun x => kv.HasPrefix x keyPrefix = true) (take (S i) inRange) ->
      exists v, v ∈ keys /\ kv.HasPrefix k v = true.
Proof.
  intros snap inRange Hiter Hnext Hdec Hfn.
  unfold iterateSnapshotKeys, inRange.
  fold (firstKeyOf keyPrefix startKey). fold (upperBoundOf keyPrefix endKey).
  fold snap. unfold Iter. rewrite Hiter. cbn [fst].
  set (entries := List.filter _ _).
  rewrite iterator_length_iteratorOf, iterator_keys_iteratorOf.
  destruct (iterateSnapshotKeys_loop_covers (Snapshot.nextErr snap) Hnext
              (IsRecordKey (kv.Next keyPrefix)) Hdec fn Hfn keyPrefix
              (length entries) entries a [] ltac:(lia))
    as (a' & new & Hrun & Hcov).
  exists a', new. split; [done|].
  intros i k Hl Hall. rewrite list_lookup_fmap in Hl.
  destruct (entries !! i) as [e|] eqn:He; [|done]. injection Hl as <-.
  apply (Hcov i e He). rewrite <- fmap_take in Hall.
  by apply Forall_fmap in Hall.
Qed.


(** X16 over the keys [t1], [t2] and [t3] with a callback that asks for no
    more at [t2]: the call for [t2] is the second and last. *)
Lemma iterateSnapshotKeys_callback_stops_witness :
  exists a' calls err,
    iterateSnapshotKeys (codec := sampleCodec)
      (sampleStore [keyOf "t1"; keyOf "t2"; keyOf "t3"]) 0 (keyOf "t") 7 None None
      (traced (collectUntil (keyOf "t2"))) ([], []) = Some ((a', calls), err) /\
    calls !! 1%nat = Some (keyOf "t2", (false, None)) /\
    2%nat = length calls /\ err = None.
Proof.
  eexists. eexists. eexists. split; [vm_compute; reflexivity|].
  split; [reflexivity|].
  refine (iterateSnapshotKeys_callback_stops (codec := sampleCodec)
            (sampleStore [keyOf "t1"; keyOf "t2"; keyOf "t3"]) 0 (keyOf "t") 7 None None
            (collectUntil (keyOf "t2")) [] _ _ _ 1%nat (keyOf "t2") false None
            eq_refl eq_refl _).
  by left.
Defined.

(** X17 over the keys [t1], [t1a] and [t2]: the callback is given [t1] and
    then [t2]. *)
Lemma iterateSnapshotKeys_one_call_per_row_witness :
  exists a' keys err,
    iterateSnapshotKeys (codec := sampleCodec)
      (sampleStore [keyOf "t1"; keyOf "t1a"; keyOf "t2"]) 0 (keyOf "t") 7 None None
      (logged collectKeys) ([], []) = Some ((a', keys), err) /\
    keys = [keyOf "t1"; keyOf "t2"] /\
    kv.HasPrefix (keyOf "t2") (keyOf "t1") = false.
Proof.
  eexists. eexists. eexists. split; [vm_compute; reflexivity|].
  split; [reflexivity|].
  exact (iterateSnapshotKeys_one_call_per_row (codec := sampleCodec)
           (sampleStore [keyOf "t1"; keyOf "t1a"; keyOf "t2"]) 0 (keyOf "t") 7 None None
           collectKeys [] _ _ _ 0%nat (keyOf "t1") (keyOf "t2")
           eq_refl eq_refl eq_refl).
Defined.

(** X18 over the keys [t1], [t1a], [t2] and [u1]. *)
Lemma iterateSnapshotKeys_covers_witness :
  let store := sampleStore [keyOf "t1"; keyOf "t1a"; keyOf "t2"; keyOf "u1"] in
  let inRange :=
    iterator_keys
      (fst (Iter (Storage.snapshot store 7)
              (firstKeyOf (keyOf "t") None)
              (upperBoundOf (codec := sampleCodec) (keyOf "t") None))) in
  exists a' keys,
    iterateSnapshotKeys (codec := sampleCodec) store 0 (keyOf "t") 7 None None
      (logged collectKeys) ([], []) = Some ((a', keys), None) /\
    forall (i : nat) k,
      inRange !! i = Some k ->
      Forall (fun x => kv.HasPrefix x (keyOf "t") = true) (take (S i) inRange) ->
      exists v, v ∈ keys /\ kv.HasPrefix k v = true.
Proof.
  refine (iterateSnapshotKeys_covers (codec := sampleCodec)
            (sampleStore [keyOf "t1"; keyOf "t1a"; keyOf "t2"; keyOf "u1"])
            0 (keyOf "t") 7 None None collectKeys [] _ _ _ _).
  - reflexivity.
  - reflexivity.
  - reflexivity.
  - reflexivity.
Defined.


(** ** Sending a batch *)

(** X19.  What [sendTasksAndWait] returns after the wait: the error of the
    first failed result it received, else the error of the runnability
    check, else [nil].  The error of [UpdateReorgMeta] is never returned:
    whatever that call answers, the outcome is the same. *)
Theorem sendTasksAndWait_error {W : Type} {pool : WorkerPool W}
    (env : reorgEnv) (scheduler : backfillScheduler.t W) (totalAddedCount : Z)
    (batchTasks : list reorgBackfillTask.t) (r : sendResult.t W) :
  sendTasksAndWait env scheduler totalAddedCount batchTasks = Returns r ->
  (exists received,
     backfillScheduler.resultCh (sendTasks env scheduler batchTasks) =
       received ++ backfillScheduler.resultCh (sendResult.scheduler r) /\
     sendResult.err r =
       match firstFailure received with
       | Some e => Some e
       | None => envRunnable env
       end /\
     sendResult.totalAddedCount r = foldl int_add totalAddedCount (addedBy received)) /\
  forall update : kv.Key -> option error,
    sendTasksAndWait
      {| envWorkers := envWorkers env;
         envRunnable := envRunnable env;
         envUpdateReorgMeta := update |}
      scheduler totalAddedCount batchTasks = Returns r.
Proof.
  unfold sendTasksAndWait. destruct batchTasks as [|task0 rest]; [done|].
  change (sendTasks {| envWorkers := envWorkers env; envRunnable := envRunnable env;
                       envUpdateReorgMeta := _ |} scheduler (task0 :: rest))
    with (sendTasks env scheduler (task0 :: rest)).
  destruct (waitTaskResults _ _ _) as [w| |] eqn:Hwait; [|done|done].
  assert (exists received,
    backfillScheduler.resultCh (sendTasks env scheduler (task0 :: rest)) =
      received ++ backfillScheduler.resultCh (waitResult.scheduler w) /\
    waitResult.totalAddedCount w = foldl int_add totalAddedCount (addedBy received) /\
    waitResult.err w = firstFailure received) as (received & Hres & Ht & He).
  { unfold waitTaskResults in Hwait.
    destruct (waitTaskResults_loop _ _ _) as [[st resultCh]| |] eqn:Hrun; [|done|done].
    injection Hwait as <-.
    apply waitTaskResults_loop_received in Hrun as (received & Hres & _ & _ & Ht & He).
    by exists received. }
  unfold UpdateReorgMeta. cbn [envRunnable].
  intros Hret. split.
  - exists received. rewrite He in Hret.
    destruct (firstFailure received) as [e|]; [|destruct (envRunnable env) as [e|]];
      injection Hret as <-; by cbn.
  - intros update. rewrite <- Hret.
    by destruct (waitResult.err w) as [e|]; [|destruct (envRunnable env) as [e|]].
Qed.


(** X19 for three successful results and a job that was cancelled
    meanwhile: the error is that of the runnability check, also when
    [UpdateReorgMeta] fails. *)
Lemma sendTasksAndWait_error_witness :
  exists r,
    sendTasksAndWait (pool := fixedPool) (sampleEnv sampleResult) (sampleScheduler [])
      0 sampleTasks = Returns r /\
    sendResult.err r = Some ErrReorgCancelled /\
    sendTasksAndWait (pool := fixedPool)
      {| envWorkers := envWorkers (sampleEnv sampleResult);
         envRunnable := envRunnable (sampleEnv sampleResult);
         envUpdateReorgMeta := fun _ => Some ErrNotOwner |}
      (sampleScheduler []) 0 sampleTasks = Returns r.
Proof.
  eexists. split; [vm_compute; reflexivity|]. split; [reflexivity|].
  exact (proj2 (sendTasksAndWait_error (pool := fixedPool) (sampleEnv sampleResult)
                  (sampleScheduler []) 0 sampleTasks _ eq_refl)
               (fun _ => Some ErrNotOwner)).
Defined.

(** ** A round of the driver *)

(** X20.  [splitTableRanges] gives ranges or an error, never neither; so
    when the ranges it returned without an error are handed to
    [handleRangeTasks], a batch is sent: a call that returns has persisted
    exactly one key and hands back fewer ranges than it was given. *)
Theorem splitTableRanges_handleRangeTasks {W : Type} {pool : WorkerPool W}
    {codec : Codec} (env : reorgEnv) (backfillTaskChanSize : Z)
    (scheduler : backfillScheduler.t W) (t : table.t) (totalAddedCount : Z)
    (startKey endKey : kv.Key) (kvRanges : list kv.KeyRange) (r : rangeResult.t W) :
  0 <= backfillTaskChanSize ->
  splitTableRanges (reorgInfo.store (backfillScheduler.reorgInfo scheduler))
    startKey endKey backfillTaskChanSize = (kvRanges, None) ->
  handleRangeTasks env backfillTaskChanSize scheduler t totalAddedCount kvRanges
    = Returns r ->
  kvRanges <> [] /\
  (length (rangeResult.remains r) < length kvRanges)%nat /\
  exists nextKey,
    reorgInfo.persisted (backfillScheduler.reorgInfo (rangeResult.scheduler r)) =
    reorgInfo.persisted (backfillScheduler.reorgInfo scheduler) ++ [nextKey].
Proof.
  intros Hsize Hsplit Hrun.
  assert (kvRanges <> []) as Hne.
  { unfold splitTableRanges in Hsplit.
    destruct (Storage.regionCache _) as [rc|]; [|by injection Hsplit as <-].
    destruct (rc _ _) as [ranges [e|]]; [done|].
    destruct (Z.of_nat (length ranges) =? 0) eqn:Hz; [done|].
    injection Hsplit as <-. intros ->. done. }
  split; [done|]. destruct kvRanges as [|keyRange kvRanges]; [done|].
  unfold handleRangeTasks in Hrun.
  destruct (getBatchTasks _ _ _ _) as [batchTasks| |] eqn:Hbatch; [|done|done].
  apply getBatchTasks_length in Hbatch as Hlen. cbn [length] in Hlen.
  destruct (Z.of_nat (length batchTasks) =? 0) eqn:Hz.
  { apply Z.eqb_eq in Hz. lia. }
  destruct (sendTasksAndWait _ _ _ _) as [sr| |] eqn:Hsend; [|done|done].
  apply sendTasksAndWait_persists in Hsend as Hpersist.
  destruct (sendResult.err sr) as [e|].
  { injection Hrun as <-. cbn [rangeResult.remains rangeResult.scheduler length].
    split; [lia|done]. }
  destruct (_ <? _) eqn:Hlt; injection Hrun as <-;
    cbn [rangeResult.remains rangeResult.scheduler].
  - split; [|done]. rewrite length_drop. cbn [length]. lia.
  - split; [|done]. cbn [length]. lia.
Qed.

(** X20 on a store without regions: the one range is handled. *)
Lemma splitTableRanges_handleRangeTasks_witness :
  exists r,
    handleRangeTasks (pool := fixedPool) (codec := sampleCodec)
      {| envWorkers := fun _ => ([sampleResult 0], []);
         envRunnable := None;
         envUpdateReorgMeta := fun _ => None |}
      1024 (sampleScheduler []) sampleTable 0
      [kv.mkKeyRange (keyOf "t0") (keyOf "t9")] = Returns r /\
    (length (rangeResult.remains r) < 1)%nat /\
    exists nextKey,
      reorgInfo.persisted (backfillScheduler.reorgInfo (rangeResult.scheduler r)) =
        [] ++ [nextKey].
Proof.
  eexists. split; [vm_compute; reflexivity|].
  refine (proj2 (splitTableRanges_handleRangeTasks (pool := fixedPool)
                   (codec := sampleCodec)
                   {| envWorkers := fun _ => ([sampleResult 0], []);
                      envRunnable := None;
                      envUpdateReorgMeta := fun _ => None |}
                   1024 (sampleScheduler []) sampleTable 0 (keyOf "t0") (keyOf "t9")
                   [kv.mkKeyRange (keyOf "t0") (keyOf "t9")] _ _ eq_refl eq_refl)).
  lia.
Defined.

(** ** A task of the local mode *)

Lemma handleBackfillTask_loop_local rounds1 : forall rounds2 handleRange result merged,
  Forall2 (fun round1 round2 =>
             roundRunnable round1 = roundRunnable round2 /\
             forall r, roundBackfillData round1 r = roundBackfillData round2 r)
    rounds1 rounds2 ->
  handleBackfillTask_loop rounds1 false handleRange result merged =
  handleBackfillTask_loop rounds2 false handleRange result merged.
Proof.
  induction rounds1 as [|round1 rounds1 IH]; intros rounds2 handleRange result merged Hall.
  - by apply Forall2_nil_inv_l in Hall as ->.
  - apply Forall2_cons_inv_l in Hall as (round2 & rounds2' & [Hr Hd] & Hall & ->).
    cbn [handleBackfillTask_loop]. rewrite Hr, Hd.
    destruct (roundRunnable round2); [done|].
    destruct (roundBackfillData round2 handleRange) as [e|taskCtx]; [done|].
    destruct (backfillTaskContext.done taskCtx); [done|]. by apply IH.
Qed.

(** X21.  For a task of the local mode, one without a [bfJob], neither
    the clock nor [updateLease] plays a part: two runs whose rounds agree
    on the runnability check and on [BackfillData] give the same result. *)
Theorem handleBackfillTask_local_no_lease (rounds1 rounds2 : list batchRound)
    (task : reorgBackfillTask.t) :
  reorgBackfillTask.bfJob task = None ->
  Forall2 (fun round1 round2 =>
             roundRunnable round1 = roundRunnable round2 /\
             forall r, roundBackfillData round1 r = roundBackfillData round2 r)
    rounds1 rounds2 ->
  handleBackfillTask rounds1 task = handleBackfillTask rounds2 task.
Proof.
  intros Hjob Hall. unfold handleBackfillTask. rewrite Hjob.
  by apply handleBackfillTask_loop_local.
Qed.

(** X21 for the two batches of the sample task, with a stale lease whose
    update would fail. *)
Lemma handleBackfillTask_local_no_lease_witness :
  handleBackfillTask sampleTwoBatches (sampleTask 7 (keyOf "a") (keyOf "b")) =
  handleBackfillTask
    ((fun round =>
        {| roundRunnable := roundRunnable round;
           roundBackfillData := roundBackfillData round;
           roundLeaseFresh := false;
           roundUpdateLease := fun _ => Some ErrNotOwner |}) <$> sampleTwoBatches)
    (sampleTask 7 (keyOf "a") (keyOf "b")).
Proof.
  apply handleBackfillTask_local_no_lease; [reflexivity|].
  repeat constructor.
Defined.
